(** * Duplicate Tab Closer: the fuzzy URL matcher, embedded and verified

    A shallow embedding of [src/lib/fuzzy-matcher.js] (module [Lib]) and of
    the copy of the same engine that is inlined in the popup script
    (module [Popup]), with the properties of the engine proved about them.

    Conventions of the embedding:
    - a JavaScript string is a [string]; one [ascii] stands for one code
      unit, so the model covers the code units 0..255;
    - a JavaScript number is an integer [Z] where the program only ever
      produces integers (ids, lengths, scores).  The percentage of
      [stringSimilarity] is computed in IEEE 754 binary64, with the
      operations of [SpecFloat], as the platform computes it.  The weighted
      score of [findSimilarity] is a sum of three integer scores with the
      weights 0.4, 0.4 and 0.2, written with exact rationals [Q]: on
      scores between 0 and 100 it rounds to the integer that the binary64
      computation rounds to ([weightedScore_binary64_agrees]);
    - a plain object used as a string-to-string map is an association list
      kept in the engine's property order (see [JS.obj_set]);
    - a [Map] with array values is an association list in insertion order;
      a [Set] is a list without repetition;
    - the platform's [URL] constructor is a parameter of the engine: every
      general theorem holds for any parser.  [URL_parse] further down is a
      model of it used to evaluate the engine on concrete URLs. *)

From Stdlib Require Import String Ascii List ZArith NArith QArith Qround Qpower.
From Stdlib Require Import Lia Lqa Bool Arith Permutation Sorted SpecFloat.
From Stdlib Require Import DecimalString DecimalPos DecimalZ.
Import ListNotations.

Local Close Scope Q_scope.
Local Open Scope nat_scope.
Local Open Scope string_scope.
Local Open Scope list_scope.

(** String concatenation, the [+] of the source on strings. *)
Infix "+++" := String.append (right associativity, at level 60).

(** ** The JavaScript primitives the engine relies on *)

Module JS.

(** [s.startsWith(p)] *)
Definition startsWith (s p : string) : bool := String.prefix p s.

(** [s.includes(p)] *)
Fixpoint includes (s p : string) : bool :=
  String.prefix p s ||
  match s with
  | EmptyString => false
  | String _ s' => includes s' p
  end.

(** One code unit of [toLowerCase]: A-Z, and the upper-case letters of the
    Latin-1 block (0xC0-0xDE except the multiplication sign 0xD7). *)
Definition lower_ascii (c : ascii) : ascii :=
  let n := N_of_ascii c in
  if ((65 <=? n) && (n <=? 90))%N then ascii_of_N (n + 32)
  else if ((192 <=? n) && (n <=? 222) && negb (n =? 215))%N then ascii_of_N (n + 32)
  else c.

(** [s.toLowerCase()] *)
Fixpoint toLowerCase (s : string) : string :=
  match s with
  | EmptyString => EmptyString
  | String c s' => String (lower_ascii c) (toLowerCase s')
  end.

Fixpoint dropWhile {A} (f : A -> bool) (l : list A) : list A :=
  match l with
  | [] => []
  | x :: l' => if f x then dropWhile f l' else l
  end.

Fixpoint takeWhile {A} (f : A -> bool) (l : list A) : list A :=
  match l with
  | [] => []
  | x :: l' => if f x then x :: takeWhile f l' else []
  end.

Definition is_slash (c : ascii) : bool := Ascii.eqb c "/".

(** [s.replace(/\/+$/, '')]: the maximal run of slashes at the end goes. *)
Definition strip_trailing_slashes (s : string) : string :=
  string_of_list_ascii (rev (dropWhile is_slash (rev (list_ascii_of_string s)))).

(** [s.replace(/^www\./, '')]: one leading [www.] goes. *)
Definition strip_www (s : string) : string :=
  if String.prefix "www." s then String.substring 4 (String.length s - 4) s
  else s.

(** [x || d] on strings: the empty string is falsy. *)
Definition or_default (x d : string) : string :=
  if x =? EmptyString then d else x.

(** Truthiness of a string. *)
Definition truthy (s : string) : bool := negb (s =? EmptyString).

(** Truthiness of an optional string field ([undefined] is falsy). *)
Definition truthy_opt (s : option string) : bool :=
  match s with
  | Some x => truthy x
  | None => false
  end.

(** Number-to-string conversion of an integer, as in a template literal. *)
Definition string_of_Z (z : Z) : string :=
  NilZero.string_of_int (Z.to_int z).

(** [Math.round]: to the nearest integer, halves towards plus infinity. *)
Definition Math_round (x : Q) : Z := Qfloor (x + (1 # 2)).

(** *** Numbers with a fraction

    Such a number is an IEEE 754 binary64 value: the operations are those of
    [SpecFloat] at 53 bits of precision, each of which rounds its exact
    result to the nearest number, a tie to the even mantissa. *)
Definition prec : Z := 53.
Definition emax : Z := 1024.

(** The number that an integer is: the integer itself below [2 ^ 53]. *)
Definition number_of_Z (n : Z) : spec_float := binary_normalize prec emax n 0 false.

(** [x / y], [x - y], [x * y] and [x + y] on numbers. *)
Definition number_div (x y : spec_float) : spec_float := SFdiv prec emax x y.
Definition number_sub (x y : spec_float) : spec_float := SFsub prec emax x y.
Definition number_mul (x y : spec_float) : spec_float := SFmul prec emax x y.
Definition number_add (x y : spec_float) : spec_float := SFadd prec emax x y.

(** The rational that a finite number is. *)
Definition number_value (x : spec_float) : Q :=
  match x with
  | S754_finite s m e =>
      ((if s then inject_Z (Zneg m) else inject_Z (Zpos m)) * 2 ^ e)%Q
  | _ => 0%Q
  end.

(** [Math.round] of a finite number.  [Math.round] hands [NaN] and the
    infinities back as they are, and they are no integers; the engine
    rounds none of them ([percentage_range]). *)
Definition Math_round_number (x : spec_float) : Z := Math_round (number_value x).

(** *** Plain objects with string keys and string values

    Own properties are enumerated with the array-index keys first, in
    ascending numeric order, then the other keys in creation order.  An
    array index is the canonical decimal form of an integer below
    [2^32 - 1]. *)

Definition obj := list (string * string).

Definition is_digit (c : ascii) : bool :=
  let n := N_of_ascii c in ((48 <=? n) && (n <=? 57))%N.

Fixpoint digits_value (acc : N) (s : string) : option N :=
  match s with
  | EmptyString => Some acc
  | String c s' =>
      if is_digit c then digits_value (acc * 10 + (N_of_ascii c - 48))%N s'
      else None
  end.

Definition array_index (k : string) : option N :=
  match k with
  | EmptyString => None
  | String "0" EmptyString => Some 0%N
  | String "0" _ => None
  | String _ _ =>
      if (String.length k <=? 10)%nat then
        match digits_value 0%N k with
        | Some n => if (n <? 4294967295)%N then Some n else None
        | None => None
        end
      else None
  end.

(** [o[k]] for an own property. *)
Fixpoint obj_get (k : string) (o : obj) : option string :=
  match o with
  | [] => None
  | (k', v) :: o' => if k' =? k then Some v else obj_get k o'
  end.

Definition obj_has (k : string) (o : obj) : bool :=
  match obj_get k o with Some _ => true | None => false end.

Fixpoint obj_replace (k v : string) (o : obj) : obj :=
  match o with
  | [] => []
  | (k', v') :: o' =>
      if k' =? k then (k', v) :: o' else (k', v') :: obj_replace k v o'
  end.

(** Where a new array-index key [n] goes: before the first key that is not
    an array index or is a larger one. *)
Fixpoint obj_insert_index (n : N) (k v : string) (o : obj) : obj :=
  match o with
  | [] => [(k, v)]
  | (k', v') :: o' =>
      match array_index k' with
      | Some n' =>
          if (n' <? n)%N then (k', v') :: obj_insert_index n k v o'
          else (k, v) :: o
      | None => (k, v) :: o
      end
  end.

(** [o[k] = v] *)
Definition obj_set (k v : string) (o : obj) : obj :=
  if obj_has k o then obj_replace k v o
  else match array_index k with
       | Some n => obj_insert_index n k v o
       | None => o ++ [(k, v)]
       end.

(** [o[k] = v] as an assignment to an object literal: the key [__proto__]
    reaches the setter inherited from [Object.prototype], which ignores a
    string, so no property is made. *)
Definition obj_assign (k v : string) (o : obj) : obj :=
  if k =? "__proto__" then o else obj_set k v o.

(** [Object.fromEntries(entries)]: every entry defines an own property. *)
Definition Object_fromEntries (entries : list (string * string)) : obj :=
  fold_left (fun o kv => obj_set (fst kv) (snd kv) o) entries [].

(** [Object.keys(o)] and [Object.entries(o)] *)
Definition Object_keys (o : obj) : list string := map fst o.
Definition Object_entries (o : obj) : list (string * string) := o.

(** *** [JSON.stringify] of such an object *)

Definition hex_digit (n : N) : ascii :=
  if (n <? 10)%N then ascii_of_N (48 + n) else ascii_of_N (87 + n).

Definition quote_unit (c : ascii) : string :=
  let n := N_of_ascii c in
  if (n =? 8)%N then "\b"
  else if (n =? 9)%N then "\t"
  else if (n =? 10)%N then "\n"
  else if (n =? 12)%N then "\f"
  else if (n =? 13)%N then "\r"
  else if (n =? 34)%N then String "\" (String c EmptyString)
  else if (n =? 92)%N then "\\"
  else if (n <? 32)%N then
    "\u00" +++ String (hex_digit (n / 16)) (String (hex_digit (n mod 16)) EmptyString)
  else String c EmptyString.

Fixpoint quote_units (s : string) : string :=
  match s with
  | EmptyString => EmptyString
  | String c s' => quote_unit c +++ quote_units s'
  end.

Definition dquote : string := String (ascii_of_N 34) EmptyString.

Definition JSON_quote (s : string) : string := dquote +++ quote_units s +++ dquote.

Definition JSON_stringify (o : obj) : string :=
  "{" +++ String.concat ","
            (map (fun kv => JSON_quote (fst kv) +++ ":" +++ JSON_quote (snd kv)) o)
      +++ "}".

(** *** [Array.prototype.sort] without a comparison function, on strings:
    ascending by code units. *)

Fixpoint insert_string (x : string) (l : list string) : list string :=
  match l with
  | [] => [x]
  | y :: l' => if String.leb x y then x :: l else y :: insert_string x l'
  end.

Fixpoint sort_strings (l : list string) : list string :=
  match l with
  | [] => []
  | x :: l' => insert_string x (sort_strings l')
  end.

(** *** A [Set] of numbers *)

Definition NumSet := list Z.

Definition set_has (x : Z) (s : NumSet) : bool := existsb (Z.eqb x) s.

Definition set_add (s : NumSet) (x : Z) : NumSet :=
  if set_has x s then s else s ++ [x].

(** A [Set] of strings *)

Definition StrSet := list string.

Definition sset_has (x : string) (s : StrSet) : bool := existsb (String.eqb x) s.

Definition sset_add (s : StrSet) (x : string) : StrSet :=
  if sset_has x s then s else s ++ [x].

End JS.

(** ** The platform's URL object, as far as the engine reads it *)

Record URL := mkURL {
  url_protocol : string;
  url_hostname : string;
  url_port : string;
  url_pathname : string;
  url_search : string;
  url_hash : string;
  url_searchParams : list (string * string)
}.

(** ** The data the engine passes around *)

(** What [parseUrl] returns when the URL parses. *)
Record ParsedUrl := mkParsedUrl {
  protocol : string;
  hostname : string;
  port : string;
  pathname : string;
  search : string;
  hash : string;
  params : JS.obj;
  original : string
}.

(** A tab as the host supplies it; [title] may be missing. *)
Record TabRecord := mkTab {
  id : Z;
  url : string;
  title : option string
}.

(** The verdict of [findSimilarity]; [reason] is [None] for [null]. *)
Record Similarity := mkSimilarity {
  similar : bool;
  score : Z;
  reason : option string
}.

Record DuplicateGroup := mkGroup {
  normalizedUrl : string;
  tabs : list TabRecord;
  count : Z
}.

Record SimilarPair := mkPair {
  tab1 : TabRecord;
  tab2 : TabRecord;
  pair_score : Z;
  pair_reason : option string
}.

Record AnalysisResult := mkResult {
  exactDuplicates : list DuplicateGroup;
  similarTabs : list SimilarPair;
  totalDuplicates : Z;
  totalSimilar : Z
}.

(** The result of [getGoogleDocId]. *)
Record GoogleDoc := mkGoogleDoc {
  docId : string;
  type : string
}.

(** A [Map] from strings to arrays of tabs, in insertion order. *)
Definition TabMap := list (string * list TabRecord).

(** [if (!m.has(k)) m.set(k, []); m.get(k).push(t)] *)
Fixpoint map_push (k : string) (t : TabRecord) (m : TabMap) : TabMap :=
  match m with
  | [] => [(k, [t])]
  | (k', ts) :: m' =>
      if k' =? k then (k', ts ++ [t]) :: m' else (k', ts) :: map_push k t m'
  end.

(** [similarPairs.sort((a, b) => b.score - a.score)]: the sort is stable,
    so the result is the only arrangement that is descending by score and
    keeps pairs of equal score in their order. *)
Fixpoint insert_pair (x : SimilarPair) (l : list SimilarPair) : list SimilarPair :=
  match l with
  | [] => [x]
  | y :: l' =>
      if (pair_score x <? pair_score y)%Z then y :: insert_pair x l' else x :: l
  end.

Fixpoint sort_pairs (l : list SimilarPair) : list SimilarPair :=
  match l with
  | [] => []
  | x :: l' => insert_pair x (sort_pairs l')
  end.

(** A regular expression [/^<prefix>([^\/]+)/]: the text after the prefix up
    to the next slash, which must not be empty. *)
Definition match_prefix_segment (prefix s : string) : option string :=
  if String.prefix prefix s then
    let rest := list_ascii_of_string
                  (String.substring (String.length prefix)
                     (String.length s - String.length prefix) s) in
    match JS.takeWhile (fun c => negb (JS.is_slash c)) rest with
    | [] => None
    | seg => Some (string_of_list_ascii seg)
    end
  else None.

(** ** [src/lib/fuzzy-matcher.js] *)

Module Lib.

Definition GOOGLE_WORKSPACE_PATTERNS : list (string * string) :=
  [ ("docs.google.com/document/d/", "doc");
    ("docs.google.com/spreadsheets/d/", "sheet");
    ("docs.google.com/presentation/d/", "slides") ].

Fixpoint first_pattern (pats : list (string * string)) (s : string) : option GoogleDoc :=
  match pats with
  | [] => None
  | (pattern, ty) :: pats' =>
      match match_prefix_segment pattern s with
      | Some m1 => Some {| docId := m1; type := ty |}
      | None => first_pattern pats' s
      end
  end.

Definition getGoogleDocId (hostname pathname : string) : option GoogleDoc :=
  first_pattern GOOGLE_WORKSPACE_PATTERNS (hostname +++ pathname).

Definition TRACKING_PARAMS : list string :=
  [ "utm_source"; "utm_medium"; "utm_campaign"; "utm_term"; "utm_content";
    "fbclid"; "gclid"; "msclkid"; "dclid";
    "ref"; "source"; "mc_cid"; "mc_eid";
    "_ga"; "_gl"; "yclid"; "wickedid";
    "twclid"; "igshid"; "zanpid" ].

Definition min3 (a b c : nat) : nat := Nat.min (Nat.min a b) c.

(** The inner loop of [levenshteinDistance] for one row [i]: [c] is
    [str1[i - 1]], [prev] is row [i - 1] from column [j - 1] on and [left]
    is [dp[i][j - 1]]; the result is row [i] from column [j] on. *)
Fixpoint fill_row (c : ascii) (str2 : list ascii) (prev : list nat) (left : nat)
  : list nat :=
  match str2, prev with
  | d :: str2', diag :: ((up :: _) as prev') =>
      let cost := if Ascii.eqb c d then 0 else 1 in
      let v := min3 (up + 1) (left + 1) (diag + cost) in
      v :: fill_row c str2' prev' v
  | _, _ => []
  end.

(** The outer loop: from row [i - 1] to the last row. *)
Fixpoint fill_rows (str1 str2 : list ascii) (i : nat) (prev : list nat) : list nat :=
  match str1 with
  | [] => prev
  | c :: str1' => fill_rows str1' str2 (S i) (i :: fill_row c str2 prev i)
  end.

Definition levenshteinDistance (str1 str2 : string) : nat :=
  let m := String.length str1 in
  let n := String.length str2 in
  if (m =? 0)%nat then n
  else if (n =? 0)%nat then m
  else
    let row0 := seq 0 (S n) in
    last (fill_rows (list_ascii_of_string str1) (list_ascii_of_string str2) 1 row0) 0.

Definition stringSimilarity (str1 str2 : string) : Z :=
  if (str1 =? str2)%string then 100%Z
  else if negb (JS.truthy str1) || negb (JS.truthy str2) then 0%Z
  else
    let maxLen := Nat.max (String.length str1) (String.length str2) in
    let distance := levenshteinDistance str1 str2 in
    JS.Math_round_number
      (JS.number_mul
         (JS.number_sub (JS.number_of_Z 1)
            (JS.number_div (JS.number_of_Z (Z.of_nat distance))
                           (JS.number_of_Z (Z.of_nat maxLen))))
         (JS.number_of_Z 100)).

Definition getNonTrackingParams (params : JS.obj) : JS.obj :=
  fold_left
    (fun filtered kv =>
       if negb (JS.sset_has (JS.toLowerCase (fst kv)) TRACKING_PARAMS)
       then JS.obj_assign (fst kv) (snd kv) filtered
       else filtered)
    (JS.Object_entries params) [].

Definition differsByTrackingOnly (params1 params2 : JS.obj) : bool :=
  let clean1 := getNonTrackingParams params1 in
  let clean2 := getNonTrackingParams params2 in
  (JS.JSON_stringify clean1 =? JS.JSON_stringify clean2)%string.

Section Engine.

(** [new URL(s)]: [None] when the constructor throws. *)
Variable new_URL : string -> option URL.

Definition parseUrl (urlString : string) : option ParsedUrl :=
  match new_URL urlString with
  | Some u =>
      Some {| protocol := url_protocol u;
              hostname := JS.toLowerCase (url_hostname u);
              port := url_port u;
              pathname := JS.or_default (JS.strip_trailing_slashes (url_pathname u)) "/";
              search := url_search u;
              hash := url_hash u;
              params := JS.Object_fromEntries (url_searchParams u);
              original := urlString |}
  | None => None
  end.

Definition normalizeUrl (urlString : string) : string :=
  match parseUrl urlString with
  | None => urlString
  | Some parsed =>
      let hostname := JS.strip_www (hostname parsed) in
      let sortedParams :=
        String.concat "&"
          (map (fun k => k +++ "=" +++
                         match JS.obj_get k (params parsed) with
                         | Some v => v
                         | None => "undefined"
                         end)
               (JS.sort_strings (JS.Object_keys (params parsed)))) in
      let query := if JS.truthy sortedParams then "?" +++ sortedParams else EmptyString in
      protocol parsed +++ "//" +++ hostname +++
      (if JS.truthy (port parsed) then ":" +++ port parsed else EmptyString) +++
      pathname parsed +++ query
  end.

Definition normalizeUrlBase (urlString : string) : string :=
  match parseUrl urlString with
  | None => urlString
  | Some parsed =>
      let hostname := JS.strip_www (hostname parsed) in
      protocol parsed +++ "//" +++ hostname +++
      (if JS.truthy (port parsed) then ":" +++ port parsed else EmptyString) +++
      pathname parsed
  end.

Definition isExactDuplicate (url1 url2 : string) : bool :=
  (normalizeUrl url1 =? normalizeUrl url2)%string.

Definition findSimilarity (tab1 tab2 : TabRecord) (threshold : Z) : Similarity :=
  match parseUrl (url tab1), parseUrl (url tab2) with
  | Some url1, Some url2 =>
      let host1 := JS.strip_www (hostname url1) in
      let host2 := JS.strip_www (hostname url2) in
      (* subdomain variation (www vs non-www) *)
      if negb (hostname url1 =? hostname url2)%string && (host1 =? host2)%string
         && (pathname url1 =? pathname url2)%string
         && (JS.JSON_stringify (params url1) =? JS.JSON_stringify (params url2))%string
      then {| similar := true; score := 95;
              reason := Some "Same page on different subdomain" |}
      (* must be same base domain for other checks *)
      else if negb (host1 =? host2)%string
      then {| similar := false; score := 0; reason := None |}
      (* same path, different hash *)
      else if (pathname url1 =? pathname url2)%string
              && (JS.JSON_stringify (params url1) =? JS.JSON_stringify (params url2))%string
              && negb (hash url1 =? hash url2)%string
      then {| similar := true; score := 90;
              reason := Some "Same page, different section" |}
      (* same path, different query params *)
      else if (pathname url1 =? pathname url2)%string
              && negb (JS.JSON_stringify (params url1) =? JS.JSON_stringify (params url2))%string
      then
        if differsByTrackingOnly (params url1) (params url2)
        then {| similar := true; score := 95;
                reason := Some "Same page with tracking parameters" |}
        else {| similar := true; score := 85;
                reason := Some "Same page, different parameters" |}
      else
        (* similar path (Levenshtein) *)
        let pathSimilarity := stringSimilarity (pathname url1) (pathname url2) in
        if (threshold <=? pathSimilarity)%Z && (pathSimilarity <? 100)%Z
        then {| similar := true; score := pathSimilarity;
                reason := Some ("Similar page paths (" +++ JS.string_of_Z pathSimilarity
                                +++ "% match)") |}
        else
          (* weighted similarity score *)
          let domainScore := if (host1 =? host2)%string then 100%Z else 0%Z in
          let pathScore := stringSimilarity (pathname url1) (pathname url2) in
          let titleScore :=
            match title tab1, title tab2 with
            | Some t1, Some t2 =>
                if JS.truthy t1 && JS.truthy t2 then stringSimilarity t1 t2 else 0%Z
            | _, _ => 0%Z
            end in
          let weightedScore :=
            JS.Math_round (inject_Z domainScore * (4 # 10)
                           + inject_Z pathScore * (4 # 10)
                           + inject_Z titleScore * (2 # 10))%Q in
          if (threshold <=? weightedScore)%Z
          then {| similar := true; score := weightedScore;
                  reason := Some (JS.string_of_Z weightedScore +++ "% overall similarity") |}
          else {| similar := false; score := weightedScore; reason := None |}
  | _, _ => {| similar := false; score := 0; reason := None |}
  end.

(** The state of the two loops that build [duplicateGroups]: the groups
    pushed so far and the [Set] [tabsInDuplicateGroups]. *)
Definition GroupState := (list DuplicateGroup * JS.NumSet)%type.

Definition add_ids (s : JS.NumSet) (ts : list TabRecord) : JS.NumSet :=
  fold_left (fun s t => JS.set_add s (id t)) ts s.

(** One iteration of [for (const [key, tabGroup] of googleDocGroups)]. *)
Definition push_doc_group (st : GroupState) (entry : string * list TabRecord)
  : GroupState :=
  let '(key, tabGroup) := entry in
  if (1 <? length tabGroup)%nat then
    (fst st ++ [ {| normalizedUrl := key; tabs := tabGroup;
                    count := Z.of_nat (length tabGroup) |} ],
     add_ids (snd st) tabGroup)
  else st.

(** One iteration of [for (const [url, tabGroup] of exactDuplicates)]. *)
Definition push_url_group (st : GroupState) (entry : string * list TabRecord)
  : GroupState :=
  let '(url, tabGroup) := entry in
  let filteredGroup := filter (fun t => negb (JS.set_has (id t) (snd st))) tabGroup in
  if (1 <? length filteredGroup)%nat then
    (fst st ++ [ {| normalizedUrl := url; tabs := filteredGroup;
                    count := Z.of_nat (length filteredGroup) |} ],
     add_ids (snd st) filteredGroup)
  else st.

(** The state of the pairwise loops: the [Set] [processed] and the array
    [similarPairs]. *)
Definition PairState := (JS.StrSet * list SimilarPair)%type.

(** The body of the inner loop for the pair [tab1], [tab2]. *)
Definition compare_pair (threshold : Z) (tab1 tab2 : TabRecord) (st : PairState)
  : PairState :=
  let pairKey := JS.string_of_Z (id tab1) +++ "-" +++ JS.string_of_Z (id tab2) in
  if JS.sset_has pairKey (fst st) then st
  else
    let processed := JS.sset_add (fst st) pairKey in
    let similarity := findSimilarity tab1 tab2 threshold in
    if similar similarity then
      (processed,
       snd st ++ [ {| tab1 := tab1; tab2 := tab2;
                      pair_score := score similarity;
                      pair_reason := reason similarity |} ])
    else (processed, snd st).

(** [for (let j = i + 1; ...)]: [rest] holds the tabs after index [i]. *)
Fixpoint inner_loop (threshold : Z) (tab1 : TabRecord) (rest : list TabRecord)
  (st : PairState) : PairState :=
  match rest with
  | [] => st
  | tab2 :: rest' => inner_loop threshold tab1 rest' (compare_pair threshold tab1 tab2 st)
  end.

(** [for (let i = 0; ...)] *)
Fixpoint outer_loop (threshold : Z) (pool : list TabRecord) (st : PairState)
  : PairState :=
  match pool with
  | [] => st
  | tab1 :: rest => outer_loop threshold rest (inner_loop threshold tab1 rest st)
  end.

Definition validTabs (tabs : list TabRecord) : list TabRecord :=
  filter (fun tab => JS.truthy (url tab)
                     && negb (JS.startsWith (url tab) "chrome://")
                     && negb (JS.startsWith (url tab) "chrome-extension://")) tabs.

(** The [Map] [exactDuplicates] after the first loop. *)
Definition urlGroups (valid : list TabRecord) : TabMap :=
  fold_left (fun m tab => map_push (normalizeUrl (url tab)) tab m) valid [].

(** The key of the Google Docs group a tab is pushed to, if any. *)
Definition googleDocKey (tab : TabRecord) : option string :=
  if JS.truthy (url tab) && JS.includes (url tab) "docs.google.com" then
    match parseUrl (url tab) with
    | Some parsed =>
        match getGoogleDocId (hostname parsed) (pathname parsed) with
        | Some googleDoc => Some ("gdoc:" +++ type googleDoc +++ ":" +++ docId googleDoc)
        | None => None
        end
    | None => None
    end
  else None.

(** The [Map] [googleDocGroups] after the second loop. *)
Definition googleDocGroups (valid : list TabRecord) : TabMap :=
  fold_left (fun m tab =>
               match googleDocKey tab with
               | Some key => map_push key tab m
               | None => m
               end) valid [].

(** [duplicateGroups] and [tabsInDuplicateGroups] after both group loops. *)
Definition buildGroups (valid : list TabRecord) : GroupState :=
  fold_left push_url_group (urlGroups valid)
    (fold_left push_doc_group (googleDocGroups valid) ([], [])).

(** The pool of the pairwise comparison. *)
Definition nonGoogleTabs (valid : list TabRecord) (inGroups : JS.NumSet)
  : list TabRecord :=
  let nonDuplicateTabs := filter (fun tab => negb (JS.set_has (id tab) inGroups)) valid in
  firstn 100
    (filter (fun t => negb (JS.truthy (url t))
                      || negb (JS.includes (url t) "docs.google.com"))
            nonDuplicateTabs).

(** [similarPairs] after the loops and the sort. *)
Definition sortedSimilarPairs (tabs : list TabRecord) (threshold : Z)
  : list SimilarPair :=
  let valid := validTabs tabs in
  let '(_, tabsInDuplicateGroups) := buildGroups valid in
  sort_pairs (snd (outer_loop threshold (nonGoogleTabs valid tabsInDuplicateGroups)
                     ([], []))).

Definition analyzeTabs (tabs : list TabRecord) (threshold : Z) : AnalysisResult :=
  let duplicateGroups := fst (buildGroups (validTabs tabs)) in
  let similarPairs := sortedSimilarPairs tabs threshold in
  {| exactDuplicates := duplicateGroups;
     similarTabs := similarPairs;
     totalDuplicates := fold_left (fun sum g => (sum + count g - 1)%Z) duplicateGroups 0%Z;
     totalSimilar := Z.of_nat (length similarPairs) |}.

End Engine.

End Lib.

(** ** The engine inlined in the popup script ([src/unnamed/part_000])

    The copy is embedded on its own, function by function, so that it can
    be compared with [Lib]. *)

Module Popup.

Definition GOOGLE_WORKSPACE_PATTERNS : list (string * string) :=
  [ ("docs.google.com/document/d/", "doc");
    ("docs.google.com/spreadsheets/d/", "sheet");
    ("docs.google.com/presentation/d/", "slides") ].

Fixpoint first_pattern (pats : list (string * string)) (s : string) : option GoogleDoc :=
  match pats with
  | [] => None
  | (pattern, ty) :: pats' =>
      match match_prefix_segment pattern s with
      | Some m1 => Some {| docId := m1; type := ty |}
      | None => first_pattern pats' s
      end
  end.

Definition getGoogleDocId (hostname pathname : string) : option GoogleDoc :=
  let combined := hostname +++ pathname in
  first_pattern GOOGLE_WORKSPACE_PATTERNS combined.

Definition TRACKING_PARAMS : list string :=
  [ "utm_source"; "utm_medium"; "utm_campaign"; "utm_term"; "utm_content";
    "fbclid"; "gclid"; "msclkid"; "dclid";
    "ref"; "source"; "mc_cid"; "mc_eid";
    "_ga"; "_gl"; "yclid"; "wickedid";
    "twclid"; "igshid"; "zanpid" ].

Definition min3 (a b c : nat) : nat := Nat.min (Nat.min a b) c.

(** The inner loop of [levenshteinDistance] for one row [i]: [c] is
    [str1[i - 1]], [prev] is row [i - 1] from column [j - 1] on and [left]
    is [dp[i][j - 1]]; the result is row [i] from column [j] on. *)
Fixpoint fill_row (c : ascii) (str2 : list ascii) (prev : list nat) (left : nat)
  : list nat :=
  match str2, prev with
  | d :: str2', diag :: ((up :: _) as prev') =>
      let cost := if Ascii.eqb c d then 0 else 1 in
      let v := min3 (up + 1) (left + 1) (diag + cost) in
      v :: fill_row c str2' prev' v
  | _, _ => []
  end.

(** The outer loop: from row [i - 1] to the last row. *)
Fixpoint fill_rows (str1 str2 : list ascii) (i : nat) (prev : list nat) : list nat :=
  match str1 with
  | [] => prev
  | c :: str1' => fill_rows str1' str2 (S i) (i :: fill_row c str2 prev i)
  end.

Definition levenshteinDistance (str1 str2 : string) : nat :=
  let m := String.length str1 in
  let n := String.length str2 in
  if (m =? 0)%nat then n
  else if (n =? 0)%nat then m
  else
    let row0 := seq 0 (S n) in
    last (fill_rows (list_ascii_of_string str1) (list_ascii_of_string str2) 1 row0) 0.

Definition stringSimilarity (str1 str2 : string) : Z :=
  if (str1 =? str2)%string then 100%Z
  else if negb (JS.truthy str1) || negb (JS.truthy str2) then 0%Z
  else
    let maxLen := Nat.max (String.length str1) (String.length str2) in
    JS.Math_round_number
      (JS.number_mul
         (JS.number_sub (JS.number_of_Z 1)
            (JS.number_div (JS.number_of_Z (Z.of_nat (levenshteinDistance str1 str2)))
                           (JS.number_of_Z (Z.of_nat maxLen))))
         (JS.number_of_Z 100)).

Definition getNonTrackingParams (params : JS.obj) : JS.obj :=
  fold_left
    (fun filtered kv =>
       if negb (JS.sset_has (JS.toLowerCase (fst kv)) TRACKING_PARAMS)
       then JS.obj_assign (fst kv) (snd kv) filtered
       else filtered)
    (JS.Object_entries params) [].

Definition differsByTrackingOnly (params1 params2 : JS.obj) : bool :=
  (JS.JSON_stringify (getNonTrackingParams params1)
   =? JS.JSON_stringify (getNonTrackingParams params2))%string.

Section Engine.

(** [new URL(s)]: [None] when the constructor throws. *)
Variable new_URL : string -> option URL.

Definition parseUrl (urlString : string) : option ParsedUrl :=
  match new_URL urlString with
  | Some u =>
      Some {| protocol := url_protocol u;
              hostname := JS.toLowerCase (url_hostname u);
              port := url_port u;
              pathname := JS.or_default (JS.strip_trailing_slashes (url_pathname u)) "/";
              search := url_search u;
              hash := url_hash u;
              params := JS.Object_fromEntries (url_searchParams u);
              original := urlString |}
  | None => None
  end.

Definition normalizeUrl (urlString : string) : string :=
  match parseUrl urlString with
  | None => urlString
  | Some parsed =>
      let hostname := JS.strip_www (hostname parsed) in
      let sortedParams :=
        String.concat "&"
          (map (fun k => k +++ "=" +++
                         match JS.obj_get k (params parsed) with
                         | Some v => v
                         | None => "undefined"
                         end)
               (JS.sort_strings (JS.Object_keys (params parsed)))) in
      let query := if JS.truthy sortedParams then "?" +++ sortedParams else EmptyString in
      protocol parsed +++ "//" +++ hostname +++
      (if JS.truthy (port parsed) then ":" +++ port parsed else EmptyString) +++
      pathname parsed +++ query
  end.

Definition findSimilarity (tab1 tab2 : TabRecord) (threshold : Z) : Similarity :=
  match parseUrl (url tab1), parseUrl (url tab2) with
  | Some url1, Some url2 =>
      let host1 := JS.strip_www (hostname url1) in
      let host2 := JS.strip_www (hostname url2) in
      (* subdomain variation (www vs non-www) *)
      if negb (hostname url1 =? hostname url2)%string && (host1 =? host2)%string
         && (pathname url1 =? pathname url2)%string
         && (JS.JSON_stringify (params url1) =? JS.JSON_stringify (params url2))%string
      then {| similar := true; score := 95;
              reason := Some "Same page on different subdomain" |}
      (* must be same base domain for other checks *)
      else if negb (host1 =? host2)%string
      then {| similar := false; score := 0; reason := None |}
      (* same path, different hash *)
      else if (pathname url1 =? pathname url2)%string
              && (JS.JSON_stringify (params url1) =? JS.JSON_stringify (params url2))%string
              && negb (hash url1 =? hash url2)%string
      then {| similar := true; score := 90;
              reason := Some "Same page, different section" |}
      (* same path, different query params *)
      else if (pathname url1 =? pathname url2)%string
              && negb (JS.JSON_stringify (params url1) =? JS.JSON_stringify (params url2))%string
      then
        if differsByTrackingOnly (params url1) (params url2)
        then {| similar := true; score := 95;
                reason := Some "Same page with tracking parameters" |}
        else {| similar := true; score := 85;
                reason := Some "Same page, different parameters" |}
      else
        (* similar path (Levenshtein) *)
        let pathSimilarity := stringSimilarity (pathname url1) (pathname url2) in
        if (threshold <=? pathSimilarity)%Z && (pathSimilarity <? 100)%Z
        then {| similar := true; score := pathSimilarity;
                reason := Some ("Similar page paths (" +++ JS.string_of_Z pathSimilarity
                                +++ "% match)") |}
        else
          (* weighted similarity score *)
          let domainScore := if (host1 =? host2)%string then 100%Z else 0%Z in
          let pathScore := stringSimilarity (pathname url1) (pathname url2) in
          let titleScore :=
            match title tab1, title tab2 with
            | Some t1, Some t2 =>
                if JS.truthy t1 && JS.truthy t2 then stringSimilarity t1 t2 else 0%Z
            | _, _ => 0%Z
            end in
          let weightedScore :=
            JS.Math_round (inject_Z domainScore * (4 # 10)
                           + inject_Z pathScore * (4 # 10)
                           + inject_Z titleScore * (2 # 10))%Q in
          if (threshold <=? weightedScore)%Z
          then {| similar := true; score := weightedScore;
                  reason := Some (JS.string_of_Z weightedScore +++ "% overall similarity") |}
          else {| similar := false; score := weightedScore; reason := None |}
  | _, _ => {| similar := false; score := 0; reason := None |}
  end.

(** The state of the two loops that build [duplicateGroups]: the groups
    pushed so far and the [Set] [tabsInDuplicateGroups]. *)
Definition GroupState := (list DuplicateGroup * JS.NumSet)%type.

Definition add_ids (s : JS.NumSet) (ts : list TabRecord) : JS.NumSet :=
  fold_left (fun s t => JS.set_add s (id t)) ts s.

(** One iteration of [for (const [key, tabGroup] of googleDocGroups)]. *)
Definition push_doc_group (st : GroupState) (entry : string * list TabRecord)
  : GroupState :=
  let '(key, tabGroup) := entry in
  if (1 <? length tabGroup)%nat then
    (fst st ++ [ {| normalizedUrl := key; tabs := tabGroup;
                    count := Z.of_nat (length tabGroup) |} ],
     add_ids (snd st) tabGroup)
  else st.

(** One iteration of [for (const [url, tabGroup] of exactDuplicates)]. *)
Definition push_url_group (st : GroupState) (entry : string * list TabRecord)
  : GroupState :=
  let '(url, tabGroup) := entry in
  let filteredGroup := filter (fun t => negb (JS.set_has (id t) (snd st))) tabGroup in
  if (1 <? length filteredGroup)%nat then
    (fst st ++ [ {| normalizedUrl := url; tabs := filteredGroup;
                    count := Z.of_nat (length filteredGroup) |} ],
     add_ids (snd st) filteredGroup)
  else st.

(** The state of the pairwise loops: the [Set] [processed] and the array
    [similarPairs]. *)
Definition PairState := (JS.StrSet * list SimilarPair)%type.

(** The body of the inner loop for the pair [tab1], [tab2]. *)
Definition compare_pair (threshold : Z) (tab1 tab2 : TabRecord) (st : PairState)
  : PairState :=
  let pairKey := JS.string_of_Z (id tab1) +++ "-" +++ JS.string_of_Z (id tab2) in
  if JS.sset_has pairKey (fst st) then st
  else
    let processed := JS.sset_add (fst st) pairKey in
    let similarity := findSimilarity tab1 tab2 threshold in
    if similar similarity then
      (processed,
       snd st ++ [ {| tab1 := tab1; tab2 := tab2;
                      pair_score := score similarity;
                      pair_reason := reason similarity |} ])
    else (processed, snd st).

(** [for (let j = i + 1; ...)]: [rest] holds the tabs after index [i]. *)
Fixpoint inner_loop (threshold : Z) (tab1 : TabRecord) (rest : list TabRecord)
  (st : PairState) : PairState :=
  match rest with
  | [] => st
  | tab2 :: rest' => inner_loop threshold tab1 rest' (compare_pair threshold tab1 tab2 st)
  end.

(** [for (let i = 0; ...)] *)
Fixpoint outer_loop (threshold : Z) (pool : list TabRecord) (st : PairState)
  : PairState :=
  match pool with
  | [] => st
  | tab1 :: rest => outer_loop threshold rest (inner_loop threshold tab1 rest st)
  end.

Definition validTabs (tabs : list TabRecord) : list TabRecord :=
  filter (fun tab => JS.truthy (url tab)
                     && negb (JS.startsWith (url tab) "chrome://")
                     && negb (JS.startsWith (url tab) "chrome-extension://")) tabs.

(** The [Map] [exactDuplicates] after the first loop. *)
Definition urlGroups (valid : list TabRecord) : TabMap :=
  fold_left (fun m tab => map_push (normalizeUrl (url tab)) tab m) valid [].

(** The key of the Google Docs group a tab is pushed to, if any. *)
Definition googleDocKey (tab : TabRecord) : option string :=
  if JS.truthy (url tab) && JS.includes (url tab) "docs.google.com" then
    match parseUrl (url tab) with
    | Some parsed =>
        match getGoogleDocId (hostname parsed) (pathname parsed) with
        | Some googleDoc => Some ("gdoc:" +++ type googleDoc +++ ":" +++ docId googleDoc)
        | None => None
        end
    | None => None
    end
  else None.

(** The [Map] [googleDocGroups] after the second loop. *)
Definition googleDocGroups (valid : list TabRecord) : TabMap :=
  fold_left (fun m tab =>
               match googleDocKey tab with
               | Some key => map_push key tab m
               | None => m
               end) valid [].

(** [duplicateGroups] and [tabsInDuplicateGroups] after both group loops. *)
Definition buildGroups (valid : list TabRecord) : GroupState :=
  fold_left push_url_group (urlGroups valid)
    (fold_left push_doc_group (googleDocGroups valid) ([], [])).

(** The pool of the pairwise comparison. *)
Definition nonGoogleTabs (valid : list TabRecord) (inGroups : JS.NumSet)
  : list TabRecord :=
  let nonDuplicateTabs := filter (fun tab => negb (JS.set_has (id tab) inGroups)) valid in
  firstn 100
    (filter (fun t => negb (JS.truthy (url t))
                      || negb (JS.includes (url t) "docs.google.com"))
            nonDuplicateTabs).

(** [similarPairs] after the loops and the sort. *)
Definition sortedSimilarPairs (tabs : list TabRecord) (threshold : Z)
  : list SimilarPair :=
  let valid := validTabs tabs in
  let '(_, tabsInDuplicateGroups) := buildGroups valid in
  sort_pairs (snd (outer_loop threshold (nonGoogleTabs valid tabsInDuplicateGroups)
                     ([], []))).

Definition analyzeTabs (tabs : list TabRecord) (threshold : Z) : AnalysisResult :=
  let duplicateGroups := fst (buildGroups (validTabs tabs)) in
  let similarPairs := sortedSimilarPairs tabs threshold in
  {| exactDuplicates := duplicateGroups;
     similarTabs := firstn 20 similarPairs;
     totalDuplicates := fold_left (fun sum g => (sum + count g - 1)%Z) duplicateGroups 0%Z;
     totalSimilar := Z.min (Z.of_nat (length similarPairs)) 20 |}.

End Engine.

End Popup.

(** ** The rest of the popup script ([src/unnamed/part_000]) that computes *)

Module PopupUi.

(** The ids [closeAllDuplicates] hands to [chrome.tabs.remove]: in every
    group, all tabs but the first. *)
Definition tabsToClose (exactDuplicates : list DuplicateGroup) : list Z :=
  fold_left
    (fun tabsToClose group =>
       fold_left (fun tabsToClose t => tabsToClose ++ [id t])
                 (tl (tabs group)) tabsToClose)
    exactDuplicates [].

Section Display.

Variable new_URL : string -> option URL.

Definition getDisplayUrl (url : string) : string :=
  match new_URL url with
  | Some parsed =>
      let display := JS.strip_www (url_hostname parsed) in
      let display :=
        if negb (url_pathname parsed =? "/")%string
        then display +++ url_pathname parsed
        else display in
      if (50 <? String.length display)%nat
      then String.substring 0 47 display +++ "..."
      else display
  | None => url
  end.

End Display.

End PopupUi.

(** ** [src/background/service-worker.js] *)

Module ServiceWorker.

(** A [Map] from strings to numbers, in insertion order. *)
Definition CountMap := list (string * Z).

(** [m.get(k)] *)
Fixpoint count_get (k : string) (m : CountMap) : option Z :=
  match m with
  | [] => None
  | (k', c) :: m' => if k' =? k then Some c else count_get k m'
  end.

(** [m.set(k, v)] *)
Fixpoint count_set (k : string) (v : Z) (m : CountMap) : CountMap :=
  match m with
  | [] => [(k, v)]
  | (k', c) :: m' =>
      if k' =? k then (k', v) :: m' else (k', c) :: count_set k v m'
  end.

(** [x || 0] on the result of [get]. *)
Definition or_zero (x : option Z) : Z :=
  match x with
  | Some c => if (c =? 0)%Z then 0%Z else c
  | None => 0%Z
  end.

(** An entry [[k, v]] as [sort] reads it: converted to the string [k,v]. *)
Definition entry_string (kv : string * string) : string :=
  fst kv +++ "," +++ snd kv.

(** [entries.sort()]: ascending by the strings of the entries, stable. *)
Fixpoint insert_entry (x : string * string) (l : list (string * string))
  : list (string * string) :=
  match l with
  | [] => [x]
  | y :: l' =>
      if String.leb (entry_string x) (entry_string y) then x :: l
      else y :: insert_entry x l'
  end.

Fixpoint sort_entries (l : list (string * string)) : list (string * string) :=
  match l with
  | [] => []
  | x :: l' => insert_entry x (sort_entries l')
  end.

Section Worker.

Variable new_URL : string -> option URL.

Definition normalizeUrlSimple (urlString : string) : string :=
  match new_URL urlString with
  | Some url =>
      let hostname := JS.strip_www (JS.toLowerCase (url_hostname url)) in
      let pathname := JS.or_default (JS.strip_trailing_slashes (url_pathname url)) "/" in
      let params :=
        String.concat "&"
          (map (fun kv => fst kv +++ "=" +++ snd kv)
               (sort_entries (url_searchParams url))) in
      url_protocol url +++ "//" +++ hostname +++
      (if JS.truthy (url_port url) then ":" +++ url_port url else EmptyString) +++
      pathname +++
      (if JS.truthy params then "?" +++ params else EmptyString)
  | None => urlString
  end.

(** One iteration of [for (const tab of tabs)]. *)
Definition count_tab (urlCounts : CountMap) (tab : TabRecord) : CountMap :=
  if negb (JS.truthy (url tab))
     || JS.startsWith (url tab) "chrome://"
     || JS.startsWith (url tab) "chrome-extension://"
  then urlCounts
  else
    let normalized := normalizeUrlSimple (url tab) in
    count_set normalized (or_zero (count_get normalized urlCounts) + 1)%Z urlCounts.

Definition countDuplicates (tabs : list TabRecord) : Z :=
  let urlCounts := fold_left count_tab tabs [] in
  fold_left (fun duplicates kc =>
               if (1 <? snd kc)%Z then (duplicates + (snd kc - 1))%Z else duplicates)
            urlCounts 0%Z.

End Worker.

End ServiceWorker.

(** ** A model of the platform's URL constructor

    [URL_parse] follows the constructor on absolute URLs of the form
    [scheme://host[:port][/path][?query][#fragment]] with an ASCII host, and
    rejects, as the constructor does, a string with no scheme.  It does not
    model user information, IPv6 literals, percent-escapes, dot segments,
    backslashes or the trimming of white space: such strings are outside
    the model.  It is used only to run the engine on concrete URLs. *)

Module UrlModel.

Definition is_alpha (c : ascii) : bool :=
  let n := N_of_ascii c in
  (((65 <=? n) && (n <=? 90)) || ((97 <=? n) && (n <=? 122)))%N.

Definition is_scheme_char (c : ascii) : bool :=
  is_alpha c || JS.is_digit c || Ascii.eqb c "+" || Ascii.eqb c "-" || Ascii.eqb c ".".

(** Code points a host may not contain. *)
Definition is_forbidden_host_char (c : ascii) : bool :=
  let n := N_of_ascii c in
  ((n <=? 32) || (126 <? n))%N
  || existsb (Ascii.eqb c)
       (list_ascii_of_string "#/:<>?@[\]^|%").

(** [break f l]: the longest prefix without an [f] character, and the rest. *)
Fixpoint break (f : ascii -> bool) (l : list ascii) : list ascii * list ascii :=
  match l with
  | [] => ([], [])
  | c :: l' =>
      if f c then ([], l)
      else let '(a, b) := break f l' in (c :: a, b)
  end.

(** Split at every [sep]. *)
Fixpoint split_on (sep : ascii) (l : list ascii) : list (list ascii) :=
  match l with
  | [] => [[]]
  | c :: l' =>
      if Ascii.eqb c sep then [] :: split_on sep l'
      else match split_on sep l' with
           | [] => [[c]]
           | w :: ws => (c :: w) :: ws
           end
  end.

Definition plus_to_space (c : ascii) : ascii :=
  if Ascii.eqb c "+" then " "%char else c.

(** One [name=value] piece of a query string. *)
Definition parse_pair (piece : list ascii) : string * string :=
  let '(name, rest) := break (fun c => Ascii.eqb c "=") piece in
  (string_of_list_ascii (map plus_to_space name),
   string_of_list_ascii (map plus_to_space (tl rest))).

Definition parse_query (q : list ascii) : list (string * string) :=
  map parse_pair
      (filter (fun piece => negb (Nat.eqb (length piece) 0)) (split_on "&" q)).

Definition default_port (scheme : string) : option N :=
  if scheme =? "http" then Some 80%N
  else if scheme =? "https" then Some 443%N
  else if scheme =? "ws" then Some 80%N
  else if scheme =? "wss" then Some 443%N
  else if scheme =? "ftp" then Some 21%N
  else None.

Definition string_of_N (n : N) : string :=
  NilZero.string_of_uint (N.to_uint n).

(** The port as the [port] attribute shows it: empty when absent or the
    default of the scheme. [None] when it is not a number up to 65535. *)
Definition parse_port (scheme : string) (p : list ascii) : option string :=
  match p with
  | [] => Some EmptyString
  | _ =>
      match JS.digits_value 0%N (string_of_list_ascii p) with
      | Some n =>
          if (length p <=? 10)%nat && (n <=? 65535)%N then
            match default_port scheme with
            | Some d => if (n =? d)%N then Some EmptyString else Some (string_of_N n)
            | None => Some (string_of_N n)
            end
          else None
      | None => None
      end
  end.

Definition is_path_end (c : ascii) : bool := Ascii.eqb c "?" || Ascii.eqb c "#".

Definition is_authority_end (c : ascii) : bool :=
  Ascii.eqb c "/" || is_path_end c.

Definition URL_parse (s : string) : option URL :=
  let '(scheme, rest) := break (fun c => Ascii.eqb c ":") (list_ascii_of_string s) in
  match scheme, rest with
  | c0 :: _, _ :: "/"%char :: "/"%char :: rest1 =>
      if is_alpha c0 && forallb is_scheme_char scheme then
        let scheme' := JS.toLowerCase (string_of_list_ascii scheme) in
        let '(authority, rest2) := break is_authority_end rest1 in
        let '(host, port_part) := break (fun c => Ascii.eqb c ":") authority in
        let '(path, rest3) := break is_path_end rest2 in
        let '(query, frag) :=
          match rest3 with
          | "?"%char :: r => break (fun c => Ascii.eqb c "#") r
          | _ => ([], rest3)
          end in
        match host, parse_port scheme' (tl port_part) with
        | _ :: _, Some port' =>
            if existsb is_forbidden_host_char host then None
            else
              Some {| url_protocol := scheme' +++ ":";
                      url_hostname := JS.toLowerCase (string_of_list_ascii host);
                      url_port := port';
                      url_pathname :=
                        match path with
                        | [] => "/"
                        | _ => string_of_list_ascii path
                        end;
                      url_search :=
                        match query with
                        | [] => EmptyString
                        | _ => "?" +++ string_of_list_ascii query
                        end;
                      url_hash :=
                        match frag with
                        | [] | [_] => EmptyString
                        | _ => string_of_list_ascii frag
                        end;
                      url_searchParams := parse_query query |}
        | _, _ => None
        end
      else None
  | _, _ => None
  end.

End UrlModel.

Definition URL_parse := UrlModel.URL_parse.

(** ** Definitions used by the proofs *)

(** The edit distance by its recurrence, removing the first characters. *)
Fixpoint lev (a : list ascii) : list ascii -> nat :=
  fix lev_a (b : list ascii) : nat :=
    match a, b with
    | [], _ => length b
    | _, [] => length a
    | x :: a', y :: b' =>
        Lib.min3 (lev a' b + 1) (lev_a b' + 1)
                 (lev a' b' + (if Ascii.eqb x y then 0 else 1))
    end.

(** The prefixes of [s], each reversed and put in front of [rb]: the
    strings the columns of one row of the table stand for. *)
Fixpoint rprefixes (rb s : list ascii) : list (list ascii) :=
  rb :: match s with
        | [] => []
        | d :: s' => rprefixes (d :: rb) s'
        end.

(** Two runs of the loops at two thresholds: the processed keys agree and
    the run at the higher threshold has collected no more pairs. *)
Definition fewer_pairs (hi_st lo_st : Lib.PairState) : Prop :=
  fst hi_st = fst lo_st /\ length (snd hi_st) <= length (snd lo_st).

(** Every collected pair has two URLs that parse. *)
Definition pairs_parse (new_URL : string -> option URL) (st : Lib.PairState) : Prop :=
  forall p, In p (snd st) ->
    Lib.parseUrl new_URL (url (tab1 p)) <> None /\
    Lib.parseUrl new_URL (url (tab2 p)) <> None.

(** The tab ids of a group, of all groups, and the tabs of all buckets of a
    [Map]. *)
Definition group_ids (g : DuplicateGroup) : list Z := map id (tabs g).

Definition all_ids (gs : list DuplicateGroup) : list Z := concat (map group_ids gs).

Definition bucket_tabs (m : TabMap) : list TabRecord := concat (map snd m).

(** Grouping a list of tabs by an optional key, as both [Map] loops do. *)
Definition group_fold (key : TabRecord -> option string) (l : list TabRecord)
  (m : TabMap) : TabMap :=
  fold_left (fun m tab =>
               match key tab with
               | Some k => map_push k tab m
               | None => m
               end) l m.

Definition has_key (key : TabRecord -> option string) (t : TabRecord) : bool :=
  match key t with Some _ => true | None => false end.

(** Every tab of every bucket carries the key of its bucket. *)
Definition keyed (key : TabRecord -> option string) (m : TabMap) : Prop :=
  forall k ts t, In (k, ts) m -> In t ts -> key t = Some k.

(** The invariant of the two loops that build [duplicateGroups]: no id
    occurs twice in the groups, the [Set] holds exactly the ids of the
    groups, and each group records its size, which is above one. *)
Definition groups_ok (st : Lib.GroupState) : Prop :=
  NoDup (all_ids (fst st)) /\
  (forall x, JS.set_has x (snd st) = true <-> In x (all_ids (fst st))) /\
  (forall g, In g (fst st) ->
     count g = Z.of_nat (length (tabs g)) /\ 1 < length (tabs g)).

(** Where the tabs of a group come from: a group's key is the document key
    of each of its tabs, or the normalized URL of each of them. *)
Definition groups_keyed (new_URL : string -> option URL) (gs : list DuplicateGroup)
  : Prop :=
  forall g t, In g gs -> In t (tabs g) ->
    Lib.googleDocKey new_URL t = Some (normalizedUrl g) \/
    Lib.normalizeUrl new_URL (url t) = normalizedUrl g.

(** Two objects hold the same properties, whatever their order. *)
Definition same_mapping (o1 o2 : JS.obj) : bool :=
  (length o1 =? length o2)%nat &&
  forallb (fun kv => match JS.obj_get (fst kv) o2 with
                     | Some v => (v =? snd kv)%string
                     | None => false
                     end) o1.

(** [p'] is what parsing the normalized form of a URL parsed as [p] should
    give: the scheme, the host without its leading [www.], the port, the
    path and the query mapping that [normalizeUrl] wrote. *)
Definition reparsed_shape (p p' : ParsedUrl) : bool :=
  (protocol p' =? protocol p)%string
  && (hostname p' =? JS.strip_www (hostname p))%string
  && (port p' =? port p)%string
  && (pathname p' =? pathname p)%string
  && same_mapping (params p') (params p).

(** ** Concrete tabs used to run the engine *)

Definition tab_bad1 : TabRecord := mkTab 1 "not a url" None.
Definition tab_bad2 : TabRecord := mkTab 2 "not a url" None.

Definition tab_shop : TabRecord :=
  mkTab 1 "https://example.com/page" (Some "Welcome").
Definition tab_other : TabRecord :=
  mkTab 2 "https://other.org/page" (Some "Welcome").

Definition tab_post1 : TabRecord := mkTab 1 "https://a.com/blog/post-1" None.
Definition tab_post2 : TabRecord := mkTab 2 "https://a.com/blog/post-2" None.
Definition tab_post3 : TabRecord := mkTab 3 "https://a.com/blog/post-1" None.

Definition tab_doc_edit : TabRecord :=
  mkTab 4 "https://docs.google.com/document/d/ABC123/edit" None.
Definition tab_doc_view : TabRecord :=
  mkTab 5 "https://docs.google.com/document/d/ABC123/view" None.

Definition tabs_five : list TabRecord :=
  [tab_post1; tab_doc_edit; tab_post2; tab_post3; tab_doc_view].

(** Seven tabs on one page that differ in one query parameter: every two of
    them are similar, which makes twenty-one pairs. *)
Definition tabs_seven : list TabRecord :=
  [ mkTab 1 "https://a.com/p?x=1" None; mkTab 2 "https://a.com/p?x=2" None;
    mkTab 3 "https://a.com/p?x=3" None; mkTab 4 "https://a.com/p?x=4" None;
    mkTab 5 "https://a.com/p?x=5" None; mkTab 6 "https://a.com/p?x=6" None;
    mkTab 7 "https://a.com/p?x=7" None ].

(** The [pathname] of what [parseUrl] returned, empty when it returned
    [null]. *)
Definition pathname_of (r : option ParsedUrl) : string :=
  match r with
  | Some p => pathname p
  | None => EmptyString
  end.

(** The [params] of what [parseUrl] returned, empty when it returned
    [null]. *)
Definition params_of (r : option ParsedUrl) : JS.obj :=
  match r with
  | Some p => params p
  | None => []
  end.

(** The test [getNonTrackingParams] makes on a key, and the keys whose
    assignment makes a property of [filtered]. *)
Definition is_tracking (k : string) : bool :=
  JS.sset_has (JS.toLowerCase k) Lib.TRACKING_PARAMS.

Definition kept_key (k : string) : bool :=
  negb (is_tracking k) && negb (k =? "__proto__")%string.

(** Descending order of the scores of two pairs. *)
Definition score_desc (a b : SimilarPair) : Prop :=
  (pair_score b <= pair_score a)%Z.

(** The pool of the pairwise comparison that [analyzeTabs] builds from the
    input. *)
Definition comparison_pool (new_URL : string -> option URL) (tabs0 : list TabRecord)
  : list TabRecord :=
  Lib.nonGoogleTabs (Lib.validTabs tabs0)
    (snd (Lib.buildGroups new_URL (Lib.validTabs tabs0))).

(** The [Set] [tabsInDuplicateGroups] holds the ids of the groups pushed so
    far, and only them. *)
Definition set_tracks (st : Lib.GroupState) : Prop :=
  forall x, JS.set_has x (snd st) = true <-> In x (all_ids (fst st)).

(** Every group records its size, which is above one. *)
Definition groups_counted (gs : list DuplicateGroup) : Prop :=
  forall g, In g gs ->
    count g = Z.of_nat (length (tabs g)) /\ 1 < length (tabs g).

(** A tab of the input that the analyzer takes into account: its URL is not
    empty and is not one of the browser's own. *)
Definition comparable (tabs0 : list TabRecord) (t : TabRecord) : Prop :=
  In t tabs0 /\ url t <> EmptyString
  /\ JS.startsWith (url t) "chrome://" = false
  /\ JS.startsWith (url t) "chrome-extension://" = false.

(** The invariant of the group loops that needs no unique ids: the [Set]
    follows the groups, the groups record their sizes, and their tabs all
    satisfy [P]. *)
Definition groups_inv (P : TabRecord -> Prop) (st : Lib.GroupState) : Prop :=
  set_tracks st /\ groups_counted (fst st)
  /\ Forall (fun g => Forall P (tabs g)) (fst st).

(** The ids of the tabs of a group after the first. *)
Definition rest_ids (g : DuplicateGroup) : list Z := map id (tl (tabs g)).

(** [m.get(k)] on a [Map] of tab arrays, empty when the key is missing. *)
Fixpoint bucket (k : string) (m : TabMap) : list TabRecord :=
  match m with
  | [] => []
  | (k', ts) :: m' => if (k' =? k)%string then ts else bucket k m'
  end.

(** The tabs whose key is [k]. *)
Definition key_is (key : TabRecord -> option string) (k : string) (t : TabRecord)
  : bool :=
  match key t with
  | Some k' => (k' =? k)%string
  | None => false
  end.

(** Where the groups come from while the URL buckets [ks] have been gone
    through: a group is a group by document, or the group of one of those
    buckets. *)
Definition groups_origin (new_URL : string -> option URL) (ks : list string)
  (gs : list DuplicateGroup) : Prop :=
  forall g t, In g gs -> In t (tabs g) ->
    Lib.googleDocKey new_URL t = Some (normalizedUrl g)
    \/ (In (normalizedUrl g) ks
        /\ Lib.normalizeUrl new_URL (url t) = normalizedUrl g).

(** The sum of the counts of a [Map] of counts. *)
Definition count_total (m : ServiceWorker.CountMap) : Z :=
  fold_right (fun kc s => (snd kc + s)%Z) 0%Z m.

(** A list of tabs taken out of the input by a test, in the order of the
    input. *)
Definition in_input_order (tabs0 l : list TabRecord) : Prop :=
  exists keep : TabRecord -> bool, l = filter keep tabs0.

(** The key under which the inner loop records a pair of tab ids in the
    [Set] [processed]. *)
Definition pairKey (i j : Z) : string :=
  JS.string_of_Z i +++ "-" +++ JS.string_of_Z j.

(** No minus sign among the code units. *)
Fixpoint dash_free (s : string) : bool :=
  match s with
  | EmptyString => true
  | String c s' => negb (Ascii.eqb c "-") && dash_free s'
  end.

(** Every key of [processed] belongs to a pair of ids whose first tab was
    done before, or is the current first tab with a second tab seen before. *)
Definition keys_ok (done : list Z) (cur : Z) (seen : list Z) (st : Lib.PairState)
  : Prop :=
  forall key, In key (fst st) ->
    exists i j, key = pairKey i j /\ (In i done \/ (i = cur /\ In j seen)).

(** [a] stands before [b] in [pool]. *)
Definition before (pool : list TabRecord) (a b : TabRecord) : Prop :=
  exists l1 l2, pool = l1 ++ a :: l2 /\ In b l2.

(** [duplicateGroups] after the first of the two group loops: the groups
    made by document identity. *)
Definition documentGroups (new_URL : string -> option URL) (valid : list TabRecord)
  : list DuplicateGroup :=
  fst (fold_left Lib.push_doc_group (Lib.googleDocGroups new_URL valid) ([], [])).

(** The two kinds of group: every tab has the key of the group as its
    document key, or every tab has it as its normalized URL. *)
Definition by_document (new_URL : string -> option URL) (g : DuplicateGroup) : Prop :=
  forall t, In t (tabs g) -> Lib.googleDocKey new_URL t = Some (normalizedUrl g).

Definition by_url (new_URL : string -> option URL) (g : DuplicateGroup) : Prop :=
  forall t, In t (tabs g) -> Lib.normalizeUrl new_URL (url t) = normalizedUrl g.

(** Six tabs with ids of their own: two with the same unparseable URL, two
    views of one document, and two pages that differ in a parameter. *)
Definition tabs_mixed : list TabRecord :=
  [ tab_bad1; tab_doc_edit; mkTab 3 "https://a.com/p?x=1" None;
    tab_bad2; tab_doc_view; mkTab 6 "https://a.com/p?x=2" None ].

(** A capital letter, A to Z. *)
Definition is_capital (c : ascii) : bool :=
  let n := N_of_ascii c in ((65 <=? n) && (n <=? 90))%N.

(** A constructor that hands the host back as it was written, capitals
    included, as the platform does for a scheme it does not know. *)
Definition URL_capitals (s : string) : option URL :=
  Some {| url_protocol := "foo:"; url_hostname := "WWW.Example.COM";
          url_port := EmptyString; url_pathname := "/a";
          url_search := EmptyString; url_hash := EmptyString;
          url_searchParams := [] |}.

(** A string that the platform can hold: its length is below [2 ^ 53], so
    that lengths and distances are numbers without rounding. *)
Definition js_string (s : string) : Prop :=
  (Z.of_nat (String.length s) < 2 ^ 53)%Z.

(** The strings of a tab that [findSimilarity] measures, the path of its URL
    and its title, are such strings. *)
Definition measurable (new_URL : string -> option URL) (t : TabRecord) : Prop :=
  js_string (pathname_of (Lib.parseUrl new_URL (url t)))
  /\ js_string (match title t with Some s => s | None => EmptyString end).

Section NumberBounds.

Local Open Scope Z_scope.

(** A zero, or a positive finite number that is at most the integer [b],
    with a place that is not above the units. *)
Definition within (b : Z) (x : spec_float) : Prop :=
  match x with
  | S754_zero _ => True
  | S754_finite s m e => s = false /\ e <= 0 /\ Zpos m <= b * 2 ^ (- e)
  | _ => False
  end.

(** Nothing was lost in the shifts to the right so far. *)
Definition exact (mrs : shr_record) : Prop :=
  shr_r mrs = false /\ shr_s mrs = false.

(** What [n] steps to the right make of a record: the mantissa is divided
    by [2 ^ n], and nothing is lost when it was a multiple of it. *)
Definition shifted (n : Z) (x y : shr_record) : Prop :=
  0 <= shr_m x ->
  0 <= shr_m y
  /\ shr_m y = shr_m x / 2 ^ n
  /\ (exact x -> (2 ^ n | shr_m x) -> exact y).

(** A mantissa, a place and a location that stand for a number that is at
    most the integer [b]: below it, or equal to it with nothing left
    over. *)
Definition at_most (b m e : Z) (l : location) : Prop :=
  m < b * 2 ^ (- e) \/ (m = b * 2 ^ (- e) /\ l = loc_Exact).

(** [Math.round(domainScore * 0.4 + pathScore * 0.4 + titleScore * 0.2)] in
    binary64: the literals are the numbers nearest to 4/10 and to 2/10. *)
Definition weightedScore_binary64 (domainScore pathScore titleScore : Z) : Z :=
  let p4 := JS.number_div (JS.number_of_Z 4) (JS.number_of_Z 10) in
  let p2 := JS.number_div (JS.number_of_Z 2) (JS.number_of_Z 10) in
  JS.Math_round_number
    (JS.number_add
       (JS.number_add (JS.number_mul (JS.number_of_Z domainScore) p4)
                      (JS.number_mul (JS.number_of_Z pathScore) p4))
       (JS.number_mul (JS.number_of_Z titleScore) p2)).

(** The same score as [findSimilarity] writes it, with exact weights. *)
Definition weightedScore_exact (domainScore pathScore titleScore : Z) : Z :=
  JS.Math_round (inject_Z domainScore * (4 # 10)
                 + inject_Z pathScore * (4 # 10)
                 + inject_Z titleScore * (2 # 10))%Q.

(** The integers from 0 to 100. *)
Definition scores : list Z := map Z.of_nat (seq 0 101).

End NumberBounds.

(** * Properties *)

(** ** The edit distance *)

Lemma rprefixes_unfold rb s :
  rprefixes rb s = rb :: match s with [] => [] | d :: s' => rprefixes (d :: rb) s' end.
Proof. destruct s; reflexivity. Qed.

Lemma lev_nil_l b : lev [] b = length b.
Proof. destruct b; reflexivity. Qed.

Lemma lev_nil_r a : lev a [] = length a.
Proof. destruct a; reflexivity. Qed.

Lemma lev_cons x a y b :
  lev (x :: a) (y :: b) =
  Lib.min3 (lev a (y :: b) + 1) (lev (x :: a) b + 1)
           (lev a b + (if Ascii.eqb x y then 0 else 1)).
Proof. reflexivity. Qed.

Lemma lev_sym a : forall b, lev a b = lev b a.
Proof.
  induction a as [|x a IHa]; intro b.
  - now rewrite lev_nil_l, lev_nil_r.
  - induction b as [|y b IHb].
    + now rewrite lev_nil_l, lev_nil_r.
    + rewrite !lev_cons, IHb, (IHa (y :: b)), (IHa b), (Ascii.eqb_sym x y).
      unfold Lib.min3. lia.
Qed.

Lemma fill_row_spec c ra : forall s2 rb,
  Lib.fill_row c s2 (map (lev ra) (rprefixes rb s2)) (lev (c :: ra) rb)
  = map (lev (c :: ra)) (tl (rprefixes rb s2)).
Proof.
  induction s2 as [|d s2 IH]; intro rb.
  - reflexivity.
  - cbn [rprefixes tl map]. rewrite (rprefixes_unfold (d :: rb) s2).
    cbn [map Lib.fill_row]. rewrite <- lev_cons. f_equal.
    specialize (IH (d :: rb)). rewrite (rprefixes_unfold (d :: rb) s2) in IH.
    exact IH.
Qed.

Lemma fill_rows_spec s2 : forall s1 ra,
  Lib.fill_rows s1 s2 (S (length ra)) (map (lev ra) (rprefixes [] s2))
  = map (lev (rev s1 ++ ra)) (rprefixes [] s2).
Proof.
  induction s1 as [|c s1 IH]; intro ra.
  - reflexivity.
  - cbn [Lib.fill_rows rev]. rewrite <- app_assoc. cbn [app].
    rewrite <- (IH (c :: ra)). f_equal.
    pose proof (fill_row_spec c ra s2 []) as R. rewrite lev_nil_r in R.
    cbn [length] in R. rewrite R.
    rewrite (rprefixes_unfold [] s2). cbn [map tl].
    now rewrite lev_nil_r.
Qed.

Lemma rprefixes_lengths : forall s rb,
  map (@length ascii) (rprefixes rb s) = seq (length rb) (S (length s)).
Proof.
  induction s as [|d s IH]; intro rb.
  - reflexivity.
  - cbn [rprefixes map]. rewrite IH. reflexivity.
Qed.

Lemma rprefixes_last {A} (f : list ascii -> A) (dflt : A) : forall s rb,
  last (map f (rprefixes rb s)) dflt = f (rev s ++ rb).
Proof.
  induction s as [|d s IH]; intro rb.
  - reflexivity.
  - rewrite (rprefixes_unfold rb (d :: s)). cbn [map rev].
    rewrite <- app_assoc. cbn [app]. rewrite <- (IH (d :: rb)).
    rewrite (rprefixes_unfold (d :: rb) s). reflexivity.
Qed.

Lemma length_list_ascii_of_string s :
  length (list_ascii_of_string s) = String.length s.
Proof. induction s; simpl; congruence. Qed.

(** The table of [levenshteinDistance] computes the recurrence. *)
Lemma levenshteinDistance_lev str1 str2 :
  Lib.levenshteinDistance str1 str2
  = lev (rev (list_ascii_of_string str1)) (rev (list_ascii_of_string str2)).
Proof.
  unfold Lib.levenshteinDistance.
  rewrite <- !length_list_ascii_of_string.
  set (l1 := list_ascii_of_string str1). set (l2 := list_ascii_of_string str2).
  destruct (Nat.eqb_spec (length l1) 0) as [E1|E1].
  - apply length_zero_iff_nil in E1. rewrite E1. cbn [rev].
    now rewrite lev_nil_l, length_rev.
  - destruct (Nat.eqb_spec (length l2) 0) as [E2|E2].
    + apply length_zero_iff_nil in E2. rewrite E2. cbn [rev].
      now rewrite lev_nil_r, length_rev.
    + assert (R0 : seq 0 (S (length l2)) = map (lev []) (rprefixes [] l2)).
      { change 0 with (@length ascii []) at 1.
        rewrite <- (rprefixes_lengths l2 []). apply map_ext. intro b.
        now rewrite lev_nil_l. }
      rewrite R0. pose proof (fill_rows_spec l2 l1 []) as R.
      cbn [length] in R. rewrite R.
      rewrite rprefixes_last. now rewrite !app_nil_r.
Qed.

Lemma levenshteinDistance_sym str1 str2 :
  Lib.levenshteinDistance str1 str2 = Lib.levenshteinDistance str2 str1.
Proof. rewrite !levenshteinDistance_lev. apply lev_sym. Qed.

Lemma stringSimilarity_sym str1 str2 :
  Lib.stringSimilarity str1 str2 = Lib.stringSimilarity str2 str1.
Proof.
  unfold Lib.stringSimilarity.
  rewrite (String.eqb_sym str2 str1), (orb_comm (negb (JS.truthy str2))).
  rewrite (Nat.max_comm (String.length str2)), (levenshteinDistance_sym str2 str1).
  reflexivity.
Qed.

(** ** The popup's copy against the library, function by function *)

Lemma popup_getGoogleDocId_eq : Popup.getGoogleDocId = Lib.getGoogleDocId.
Proof. reflexivity. Qed.

Lemma popup_levenshteinDistance_eq :
  Popup.levenshteinDistance = Lib.levenshteinDistance.
Proof. reflexivity. Qed.

Lemma popup_stringSimilarity_eq : Popup.stringSimilarity = Lib.stringSimilarity.
Proof. reflexivity. Qed.

Lemma popup_differsByTrackingOnly_eq :
  Popup.differsByTrackingOnly = Lib.differsByTrackingOnly.
Proof. reflexivity. Qed.

Lemma popup_parseUrl_eq : Popup.parseUrl = Lib.parseUrl.
Proof. reflexivity. Qed.

Lemma popup_normalizeUrl_eq : Popup.normalizeUrl = Lib.normalizeUrl.
Proof. reflexivity. Qed.

Lemma popup_findSimilarity_eq : Popup.findSimilarity = Lib.findSimilarity.
Proof. reflexivity. Qed.

Lemma popup_buildGroups_eq : Popup.buildGroups = Lib.buildGroups.
Proof. reflexivity. Qed.

Lemma popup_sortedSimilarPairs_eq :
  Popup.sortedSimilarPairs = Lib.sortedSimilarPairs.
Proof. reflexivity. Qed.

(** ** The pairwise classifier *)

Section Classifier.

Variable new_URL : string -> option URL.

Lemma differsByTrackingOnly_sym p1 p2 :
  Lib.differsByTrackingOnly p1 p2 = Lib.differsByTrackingOnly p2 p1.
Proof. unfold Lib.differsByTrackingOnly. apply String.eqb_sym. Qed.

Lemma findSimilarity_sym_lib t1 t2 threshold :
  Lib.findSimilarity new_URL t1 t2 threshold
  = Lib.findSimilarity new_URL t2 t1 threshold.
Proof.
  unfold Lib.findSimilarity.
  destruct (Lib.parseUrl new_URL (url t1)) as [u1|],
           (Lib.parseUrl new_URL (url t2)) as [u2|]; try reflexivity.
  cbv zeta.
  rewrite (String.eqb_sym (hostname u2) (hostname u1)),
          (String.eqb_sym (JS.strip_www (hostname u2)) (JS.strip_www (hostname u1))),
          (String.eqb_sym (pathname u2) (pathname u1)),
          (String.eqb_sym (JS.JSON_stringify (params u2)) (JS.JSON_stringify (params u1))),
          (String.eqb_sym (hash u2) (hash u1)),
          (differsByTrackingOnly_sym (params u2) (params u1)),
          (stringSimilarity_sym (pathname u2) (pathname u1)).
  destruct (title t1) as [a|], (title t2) as [b|]; try reflexivity.
  rewrite (andb_comm (JS.truthy b)), (stringSimilarity_sym b a). reflexivity.
Qed.

(** Raising the threshold never turns a dissimilar pair into a similar one. *)
Lemma findSimilarity_mono t1 t2 (lo hi : Z) :
  (lo <= hi)%Z ->
  similar (Lib.findSimilarity new_URL t1 t2 hi) = true ->
  similar (Lib.findSimilarity new_URL t1 t2 lo) = true.
Proof.
  intro Hle. unfold Lib.findSimilarity.
  destruct (Lib.parseUrl new_URL (url t1)) as [u1|],
           (Lib.parseUrl new_URL (url t2)) as [u2|]; try (intro H; exact H).
  cbv zeta.
  repeat match goal with
         | |- similar (if ?c then _ else _) = true ->
              similar (if ?c then _ else _) = true =>
             destruct c; try (intro Hs; exact Hs)
         end.
  set (ps := Lib.stringSimilarity (pathname u1) (pathname u2)).
  match goal with
  | |- context [JS.Math_round ?q] => set (ws := JS.Math_round q)
  end.
  destruct (Z.leb_spec hi ps), (Z.leb_spec lo ps), (Z.ltb_spec ps 100),
           (Z.leb_spec hi ws), (Z.leb_spec lo ws);
    cbn; intro Hs; try reflexivity; try discriminate Hs; lia.
Qed.

(** A similar verdict needs both URLs to parse. *)
Lemma findSimilarity_similar_parses t1 t2 threshold :
  similar (Lib.findSimilarity new_URL t1 t2 threshold) = true ->
  Lib.parseUrl new_URL (url t1) <> None /\ Lib.parseUrl new_URL (url t2) <> None.
Proof.
  unfold Lib.findSimilarity.
  destruct (Lib.parseUrl new_URL (url t1)) as [u1|],
           (Lib.parseUrl new_URL (url t2)) as [u2|];
    cbn; intro H; try discriminate H; split; discriminate.
Qed.

End Classifier.

(** ** The sort of the similar pairs *)

Lemma insert_pair_perm x l : Permutation (insert_pair x l) (x :: l).
Proof.
  induction l as [|y l IH]; cbn.
  - reflexivity.
  - destruct (pair_score x <? pair_score y)%Z.
    + rewrite IH. apply perm_swap.
    + reflexivity.
Qed.

Lemma sort_pairs_perm l : Permutation (sort_pairs l) l.
Proof.
  induction l as [|x l IH]; cbn.
  - reflexivity.
  - rewrite insert_pair_perm. now constructor.
Qed.

Lemma sort_pairs_length l : length (sort_pairs l) = length l.
Proof. apply Permutation_length, sort_pairs_perm. Qed.

Lemma sort_pairs_In p l : In p (sort_pairs l) -> In p l.
Proof. apply Permutation_in, sort_pairs_perm. Qed.

(** ** The pairwise loops *)

Section PairLoops.

Variable new_URL : string -> option URL.

Lemma compare_pair_fewer lo hi a b hi_st lo_st :
  (lo <= hi)%Z -> fewer_pairs hi_st lo_st ->
  fewer_pairs (Lib.compare_pair new_URL hi a b hi_st)
              (Lib.compare_pair new_URL lo a b lo_st).
Proof.
  intros Hle [Hk Hn]. unfold Lib.compare_pair. cbv zeta. rewrite Hk.
  destruct (JS.sset_has _ (fst lo_st)).
  - now split.
  - pose proof (findSimilarity_mono new_URL a b lo hi Hle) as M.
    destruct (similar (Lib.findSimilarity new_URL a b hi)).
    + rewrite (M eq_refl). split; cbn; [reflexivity|].
      rewrite !length_app. cbn. lia.
    + destruct (similar (Lib.findSimilarity new_URL a b lo));
        split; cbn; try reflexivity; try rewrite length_app; cbn; lia.
Qed.

Lemma inner_loop_fewer lo hi a : (lo <= hi)%Z ->
  forall rest hi_st lo_st, fewer_pairs hi_st lo_st ->
  fewer_pairs (Lib.inner_loop new_URL hi a rest hi_st)
              (Lib.inner_loop new_URL lo a rest lo_st).
Proof.
  intro Hle. induction rest as [|b rest IH]; intros hi_st lo_st H; cbn.
  - exact H.
  - apply IH. now apply compare_pair_fewer.
Qed.

Lemma outer_loop_fewer lo hi : (lo <= hi)%Z ->
  forall pool hi_st lo_st, fewer_pairs hi_st lo_st ->
  fewer_pairs (Lib.outer_loop new_URL hi pool hi_st)
              (Lib.outer_loop new_URL lo pool lo_st).
Proof.
  intro Hle. induction pool as [|a pool IH]; intros hi_st lo_st H; cbn.
  - exact H.
  - apply IH. now apply inner_loop_fewer.
Qed.

Lemma compare_pair_parse threshold a b st :
  pairs_parse new_URL st -> pairs_parse new_URL (Lib.compare_pair new_URL threshold a b st).
Proof.
  intros H. unfold Lib.compare_pair. cbv zeta.
  destruct (JS.sset_has _ (fst st)); [exact H|].
  destruct (similar (Lib.findSimilarity new_URL a b threshold)) eqn:E.
  - intros p Hp. cbn in Hp. apply in_app_or in Hp. destruct Hp as [Hp|[<-|[]]].
    + now apply H.
    + cbn. eapply findSimilarity_similar_parses, E.
  - exact H.
Qed.

Lemma inner_loop_parse threshold a : forall rest st,
  pairs_parse new_URL st -> pairs_parse new_URL (Lib.inner_loop new_URL threshold a rest st).
Proof.
  induction rest as [|b rest IH]; intros st H; cbn.
  - exact H.
  - apply IH. now apply compare_pair_parse.
Qed.

Lemma outer_loop_parse threshold : forall pool st,
  pairs_parse new_URL st -> pairs_parse new_URL (Lib.outer_loop new_URL threshold pool st).
Proof.
  induction pool as [|a pool IH]; intros st H; cbn.
  - exact H.
  - apply IH. now apply inner_loop_parse.
Qed.

Lemma sortedSimilarPairs_parse tabs threshold p :
  In p (Lib.sortedSimilarPairs new_URL tabs threshold) ->
  Lib.parseUrl new_URL (url (tab1 p)) <> None /\
  Lib.parseUrl new_URL (url (tab2 p)) <> None.
Proof.
  unfold Lib.sortedSimilarPairs. cbv zeta.
  destruct (Lib.buildGroups new_URL (Lib.validTabs tabs)) as [gs inGroups].
  intro H. apply sort_pairs_In in H. revert p H.
  apply outer_loop_parse. intros p [].
Qed.

Lemma sortedSimilarPairs_mono tabs lo hi :
  (lo <= hi)%Z ->
  length (Lib.sortedSimilarPairs new_URL tabs hi)
  <= length (Lib.sortedSimilarPairs new_URL tabs lo).
Proof.
  intro Hle. unfold Lib.sortedSimilarPairs. cbv zeta.
  destruct (Lib.buildGroups new_URL (Lib.validTabs tabs)) as [gs inGroups].
  rewrite !sort_pairs_length.
  apply (outer_loop_fewer lo hi Hle). split; reflexivity.
Qed.

End PairLoops.

(** ** The [Map]s of the analyzer *)

Lemma map_push_perm k t m :
  Permutation (bucket_tabs (map_push k t m)) (bucket_tabs m ++ [t]).
Proof.
  unfold bucket_tabs. induction m as [|[k' ts] m IH]; cbn.
  - reflexivity.
  - destruct (k' =? k)%string; cbn.
    + rewrite <- !app_assoc. apply Permutation_app_head, Permutation_app_comm.
    + rewrite IH. now rewrite app_assoc.
Qed.

Lemma group_fold_perm key : forall l m,
  Permutation (bucket_tabs (group_fold key l m))
              (bucket_tabs m ++ filter (has_key key) l).
Proof.
  induction l as [|t l IH]; intro m.
  - cbn. now rewrite app_nil_r.
  - change (group_fold key (t :: l) m)
      with (group_fold key l
              match key t with Some k => map_push k t m | None => m end).
    rewrite IH. cbn [filter]. unfold has_key at 2. destruct (key t) as [k|].
    + rewrite map_push_perm, <- app_assoc. reflexivity.
    + reflexivity.
Qed.

Lemma map_push_keyed key k t m :
  key t = Some k -> keyed key m -> keyed key (map_push k t m).
Proof.
  intros Hk. induction m as [|[k' ts] m IH]; intros Hm k0 ts0 t0; cbn.
  - intros [E|[]] Ht. inversion E; subst. destruct Ht as [<-|[]]. exact Hk.
  - destruct (String.eqb_spec k' k) as [->|Hne].
    + intros [E|Hin] Ht.
      * inversion E; subst. apply in_app_or in Ht. destruct Ht as [Ht|[<-|[]]].
        -- eapply Hm; [left; reflexivity|exact Ht].
        -- exact Hk.
      * eapply Hm; [right; exact Hin|exact Ht].
    + intros [E|Hin] Ht.
      * inversion E; subst. eapply Hm; [left; reflexivity|exact Ht].
      * eapply IH; [|exact Hin|exact Ht].
        intros k1 ts1 t1 H1. apply (Hm k1 ts1 t1). now right.
Qed.

Lemma group_fold_keyed key : forall l m,
  keyed key m -> keyed key (group_fold key l m).
Proof.
  unfold group_fold. induction l as [|t l IH]; intros m Hm; cbn.
  - exact Hm.
  - apply IH. destruct (key t) as [k|] eqn:E.
    + now apply map_push_keyed.
    + exact Hm.
Qed.

Lemma keyed_nil key : keyed key [].
Proof. intros k ts t []. Qed.

(** ** The [Set] of claimed tab ids *)

Lemma set_has_In x s : JS.set_has x s = true <-> In x s.
Proof.
  unfold JS.set_has. rewrite existsb_exists. split.
  - intros [y [Hy E]]. apply Z.eqb_eq in E. now subst.
  - intro H. exists x. split; [exact H|apply Z.eqb_refl].
Qed.

Lemma set_add_has x y s :
  JS.set_has x (JS.set_add s y) = true <-> JS.set_has x s = true \/ x = y.
Proof.
  unfold JS.set_add. destruct (JS.set_has y s) eqn:E.
  - split; [now left|]. intros [H| ->]; assumption.
  - rewrite !set_has_In, in_app_iff. cbn. intuition.
Qed.

Lemma add_ids_has x : forall ts s,
  JS.set_has x (Lib.add_ids s ts) = true
  <-> JS.set_has x s = true \/ In x (map id ts).
Proof.
  unfold Lib.add_ids. induction ts as [|t ts IH]; intro s; cbn [fold_left map In].
  - intuition.
  - rewrite IH, set_add_has. intuition.
Qed.

Lemma NoDup_map_filter {A B} (f : A -> B) (p : A -> bool) l :
  NoDup (map f l) -> NoDup (map f (filter p l)).
Proof.
  induction l as [|a l IH]; cbn; intro H.
  - constructor.
  - inversion H as [|? ? Hn Hd]; subst. destruct (p a); cbn.
    + constructor; [|now apply IH]. intro Hin. apply Hn.
      apply in_map_iff in Hin. destruct Hin as [b [E Hb]].
      apply filter_In in Hb. apply in_map_iff. exists b. tauto.
    + now apply IH.
Qed.

Lemma all_ids_app gs g : all_ids (gs ++ [g]) = all_ids gs ++ map id (tabs g).
Proof.
  unfold all_ids. rewrite map_app, concat_app. cbn. now rewrite app_nil_r.
Qed.

(** ** The loops that build the duplicate groups *)

Lemma groups_ok_push gs set key ts :
  groups_ok (gs, set) -> 1 < length ts ->
  NoDup (all_ids gs ++ map id ts) ->
  groups_ok (gs ++ [ {| normalizedUrl := key; tabs := ts;
                        count := Z.of_nat (length ts) |} ],
             Lib.add_ids set ts).
Proof.
  intros (Hnd & Hset & Hcount) Hlen Hnew. cbn [fst snd] in *.
  split; [|split]; cbn [fst snd].
  - now rewrite all_ids_app.
  - intro x. rewrite all_ids_app, in_app_iff, add_ids_has, Hset. reflexivity.
  - intros g Hg. apply in_app_or in Hg. destruct Hg as [Hg|[<-|[]]].
    + now apply Hcount.
    + cbn. split; [reflexivity|exact Hlen].
Qed.

Lemma doc_groups_ok : forall buckets st,
  groups_ok st ->
  NoDup (all_ids (fst st) ++ map id (bucket_tabs buckets)) ->
  groups_ok (fold_left Lib.push_doc_group buckets st).
Proof.
  induction buckets as [|[key ts] buckets IH]; intros [gs set] Hok Hnd.
  - exact Hok.
  - cbn [fold_left]. unfold bucket_tabs in Hnd. cbn [map concat fst snd] in Hnd.
    fold (bucket_tabs buckets) in Hnd. rewrite map_app in Hnd.
    apply IH; unfold Lib.push_doc_group; cbn [fst snd];
      destruct (Nat.ltb_spec 1 (length ts)) as [Hlen|Hlen]; cbn [fst snd].
    + apply groups_ok_push; [exact Hok|exact Hlen|].
      rewrite app_assoc in Hnd. now apply NoDup_app_remove_r in Hnd.
    + exact Hok.
    + rewrite all_ids_app, <- app_assoc. exact Hnd.
    + eapply NoDup_app_remove_l.
      eapply Permutation_NoDup; [apply Permutation_app_swap_app|exact Hnd].
Qed.

Lemma url_groups_ok : forall buckets st,
  groups_ok st ->
  (forall key ts, In (key, ts) buckets -> NoDup (map id ts)) ->
  groups_ok (fold_left Lib.push_url_group buckets st).
Proof.
  induction buckets as [|[key ts] buckets IH]; intros [gs set] Hok Hb.
  - exact Hok.
  - cbn [fold_left]. apply IH; [|intros k l H; apply (Hb k l); now right].
    unfold Lib.push_url_group. cbv zeta. cbn [fst snd].
    set (filteredGroup := filter (fun t => negb (JS.set_has (id t) set)) ts).
    destruct (Nat.ltb_spec 1 (length filteredGroup)) as [Hlen|Hlen]; [|exact Hok].
    apply groups_ok_push; [exact Hok|exact Hlen|].
    destruct Hok as (Hnd & Hset & _). cbn [fst snd] in *.
    apply NoDup_app; [exact Hnd| |].
    + apply NoDup_map_filter, (Hb key ts). now left.
    + intros x Hx Hin. apply in_map_iff in Hin. destruct Hin as [t [<- Ht]].
      apply filter_In in Ht. destruct Ht as [_ Ht].
      apply Hset in Hx. rewrite Hx in Ht. discriminate Ht.
Qed.

Lemma NoDup_concat_bucket {A} (x : list A) : forall ls,
  NoDup (concat ls) -> In x ls -> NoDup x.
Proof.
  induction ls as [|l ls IH]; cbn; intros Hnd Hx; [destruct Hx|].
  destruct Hx as [<-|Hin].
  - now apply NoDup_app_remove_r in Hnd.
  - apply IH; [now apply NoDup_app_remove_l in Hnd|exact Hin].
Qed.

Lemma map_id_bucket_tabs m :
  map id (bucket_tabs m) = concat (map (fun b => map id (snd b)) m).
Proof.
  unfold bucket_tabs. rewrite concat_map, map_map. reflexivity.
Qed.

Lemma validTabs_NoDup tabs :
  NoDup (map id tabs) -> NoDup (map id (Lib.validTabs tabs)).
Proof. apply NoDup_map_filter. Qed.

(** Distinct positions of a repetition-free concatenation share nothing. *)
Lemma NoDup_concat_disjoint {A} : forall (ls : list (list A)) i j a b x,
  NoDup (concat ls) -> i <> j ->
  nth_error ls i = Some a -> nth_error ls j = Some b ->
  In x a -> In x b -> False.
Proof.
  induction ls as [|l ls IH]; intros i j a b x Hnd Hij Hi Hj Ha Hb.
  - destruct i; discriminate Hi.
  - cbn in Hnd. assert (Hdis : forall y c, In c ls -> In y l -> In y c -> False).
    { intros y c Hc Hy Hyc. clear - Hnd Hc Hy Hyc.
      induction l as [|z l IHl]; [destruct Hy|].
      cbn in Hnd. inversion Hnd as [|? ? Hn Hd]; subst.
      destruct Hy as [->|Hy]; [|now apply IHl].
      apply Hn, in_or_app. right. apply in_concat. now exists c. }
    destruct i as [|i], j as [|j]; cbn in Hi, Hj.
    + now apply Hij.
    + inversion Hi; subst. apply (Hdis x b); [eapply nth_error_In, Hj| |]; assumption.
    + inversion Hj; subst. apply (Hdis x a); [eapply nth_error_In, Hi| |]; assumption.
    + apply (IH i j a b x); try assumption.
      * now apply NoDup_app_remove_l in Hnd.
      * congruence.
Qed.

Section GroupLoops.

Variable new_URL : string -> option URL.

Lemma urlGroups_fold valid :
  Lib.urlGroups new_URL valid
  = group_fold (fun tab => Some (Lib.normalizeUrl new_URL (url tab))) valid [].
Proof. reflexivity. Qed.

Lemma googleDocGroups_fold valid :
  Lib.googleDocGroups new_URL valid = group_fold (Lib.googleDocKey new_URL) valid [].
Proof. reflexivity. Qed.

Lemma buildGroups_ok valid :
  NoDup (map id valid) -> groups_ok (Lib.buildGroups new_URL valid).
Proof.
  intro Hnd. unfold Lib.buildGroups. apply url_groups_ok.
  - apply doc_groups_ok.
    + split; [constructor|split].
      * intro x. cbn. split; [discriminate|intros []].
      * intros g [].
    + cbn [fst all_ids map concat app]. rewrite googleDocGroups_fold.
      eapply Permutation_NoDup.
      * apply Permutation_map, Permutation_sym, group_fold_perm.
      * cbn [bucket_tabs map concat app]. now apply NoDup_map_filter.
  - intros key ts Hin. rewrite urlGroups_fold in Hin.
    apply (NoDup_concat_bucket (map id ts)
             (map (fun b => map id (snd b))
                  (group_fold (fun tab => Some (Lib.normalizeUrl new_URL (url tab)))
                     valid []))).
    + rewrite <- map_id_bucket_tabs. eapply Permutation_NoDup.
      * apply Permutation_map, Permutation_sym, group_fold_perm.
      * cbn [bucket_tabs map concat app]. now apply NoDup_map_filter.
    + apply in_map_iff. now exists (key, ts).
Qed.

Lemma doc_groups_keyed : forall buckets st,
  keyed (Lib.googleDocKey new_URL) buckets ->
  groups_keyed new_URL (fst st) ->
  groups_keyed new_URL (fst (fold_left Lib.push_doc_group buckets st)).
Proof.
  induction buckets as [|[key ts] buckets IH]; intros [gs set] Hb Hg.
  - exact Hg.
  - cbn [fold_left]. apply IH.
    + intros k l t H. apply (Hb k l t). now right.
    + unfold Lib.push_doc_group. cbn [fst snd].
      destruct (1 <? length ts)%nat; [|exact Hg]. cbn [fst].
      intros g t Hin Ht. apply in_app_or in Hin. destruct Hin as [Hin|[<-|[]]].
      * now apply Hg.
      * left. cbn in *. apply (Hb key ts t); [now left|exact Ht].
Qed.

Lemma url_groups_keyed : forall buckets st,
  keyed (fun tab => Some (Lib.normalizeUrl new_URL (url tab))) buckets ->
  groups_keyed new_URL (fst st) ->
  groups_keyed new_URL (fst (fold_left Lib.push_url_group buckets st)).
Proof.
  induction buckets as [|[key ts] buckets IH]; intros [gs set] Hb Hg.
  - exact Hg.
  - cbn [fold_left]. apply IH.
    + intros k l t H. apply (Hb k l t). now right.
    + unfold Lib.push_url_group. cbv zeta. cbn [fst snd].
      destruct (1 <? length _)%nat; [|exact Hg]. cbn [fst].
      intros g t Hin Ht. apply in_app_or in Hin. destruct Hin as [Hin|[<-|[]]].
      * now apply Hg.
      * right. cbn in *. apply filter_In in Ht. destruct Ht as [Ht _].
        assert (E := Hb key ts t (or_introl eq_refl) Ht). now inversion E.
Qed.

Lemma buildGroups_keyed valid :
  groups_keyed new_URL (fst (Lib.buildGroups new_URL valid)).
Proof.
  unfold Lib.buildGroups. apply url_groups_keyed.
  - rewrite urlGroups_fold. apply group_fold_keyed, keyed_nil.
  - apply doc_groups_keyed.
    + rewrite googleDocGroups_fold. apply group_fold_keyed, keyed_nil.
    + intros g t [].
Qed.

Lemma doc_groups_by_document : forall buckets st,
  keyed (Lib.googleDocKey new_URL) buckets ->
  Forall (by_document new_URL) (fst st) ->
  Forall (by_document new_URL) (fst (fold_left Lib.push_doc_group buckets st)).
Proof.
  induction buckets as [|[key ts] buckets IH]; intros [gs set] Hb Hg.
  - exact Hg.
  - cbn [fold_left]. apply IH.
    + intros k l t H. apply (Hb k l t). now right.
    + unfold Lib.push_doc_group. cbn [fst snd].
      destruct (1 <? length ts)%nat; [|exact Hg]. cbn [fst] in *.
      apply Forall_app. split; [exact Hg|]. constructor; [|constructor].
      intros t Ht. cbn in *. apply (Hb key ts t); [now left|exact Ht].
Qed.

Lemma url_groups_of_one_kind : forall buckets st,
  keyed (fun tab => Some (Lib.normalizeUrl new_URL (url tab))) buckets ->
  Forall (fun g => by_document new_URL g \/ by_url new_URL g) (fst st) ->
  Forall (fun g => by_document new_URL g \/ by_url new_URL g)
         (fst (fold_left Lib.push_url_group buckets st)).
Proof.
  induction buckets as [|[key ts] buckets IH]; intros [gs set] Hb Hg.
  - exact Hg.
  - cbn [fold_left]. apply IH.
    + intros k l t H. apply (Hb k l t). now right.
    + unfold Lib.push_url_group. cbv zeta. cbn [fst snd].
      destruct (1 <? length _)%nat; [|exact Hg]. cbn [fst] in *.
      apply Forall_app. split; [exact Hg|]. constructor; [|constructor].
      right. intros t Ht. cbn in *. apply filter_In in Ht. destruct Ht as [Ht _].
      assert (E := Hb key ts t (or_introl eq_refl) Ht). now inversion E.
Qed.

Lemma documentGroups_by_document valid :
  Forall (by_document new_URL) (documentGroups new_URL valid).
Proof.
  unfold documentGroups. apply doc_groups_by_document.
  - rewrite googleDocGroups_fold. apply group_fold_keyed, keyed_nil.
  - constructor.
Qed.

Lemma buildGroups_of_one_kind valid :
  Forall (fun g => by_document new_URL g \/ by_url new_URL g)
         (fst (Lib.buildGroups new_URL valid)).
Proof.
  unfold Lib.buildGroups. apply url_groups_of_one_kind.
  - rewrite urlGroups_fold. apply group_fold_keyed, keyed_nil.
  - eapply Forall_impl; [|apply documentGroups_by_document]. intros g H. now left.
Qed.

(** The second loop only adds groups behind those of the first. *)
Lemma url_groups_behind : forall buckets st,
  exists urlBased, fst (fold_left Lib.push_url_group buckets st) = fst st ++ urlBased.
Proof.
  induction buckets as [|[key ts] buckets IH]; intros [gs set].
  - exists []. cbn. now rewrite app_nil_r.
  - cbn [fold_left]. destruct (IH (Lib.push_url_group (gs, set) (key, ts))) as [r Hr].
    rewrite Hr. unfold Lib.push_url_group. cbv zeta. cbn [fst snd].
    destruct (1 <? length _)%nat; cbn [fst].
    + eexists. rewrite <- app_assoc. reflexivity.
    + now exists r.
Qed.

Lemma googleDocKey_parses t key :
  Lib.googleDocKey new_URL t = Some key -> Lib.parseUrl new_URL (url t) <> None.
Proof.
  unfold Lib.googleDocKey. destruct (_ && _); [|discriminate].
  destruct (Lib.parseUrl new_URL (url t)); [discriminate|discriminate].
Qed.

End GroupLoops.

(** ** Objects and the sort of their keys *)

Lemma string_leb_trans a : forall b c,
  String.leb a b = true -> String.leb b c = true -> String.leb a c = true.
Proof.
  unfold String.leb.
  induction a as [|x a IH]; intros [|y b] [|z c]; cbn; try easy.
  unfold Ascii.compare.
  destruct (N.compare_spec (N_of_ascii x) (N_of_ascii y)),
           (N.compare_spec (N_of_ascii y) (N_of_ascii z)),
           (N.compare_spec (N_of_ascii x) (N_of_ascii z));
    try easy; try lia.
  apply IH.
Qed.

Lemma insert_string_comm x y : forall l,
  JS.insert_string x (JS.insert_string y l)
  = JS.insert_string y (JS.insert_string x l).
Proof.
  induction l as [|z l IH]; cbn.
  - destruct (String.leb x y) eqn:Exy, (String.leb y x) eqn:Eyx; try reflexivity.
    + now rewrite (String.leb_antisym x y Exy Eyx).
    + destruct (String.leb_total x y); congruence.
  - destruct (String.leb y z) eqn:Eyz, (String.leb x z) eqn:Exz; cbn;
      rewrite ?Eyz, ?Exz.
    + destruct (String.leb x y) eqn:Exy, (String.leb y x) eqn:Eyx; try reflexivity.
      * now rewrite (String.leb_antisym x y Exy Eyx).
      * destruct (String.leb_total x y); congruence.
    + destruct (String.leb x y) eqn:Exy; [|reflexivity].
      rewrite (string_leb_trans x y z Exy Eyz) in Exz. discriminate Exz.
    + destruct (String.leb y x) eqn:Eyx; [|reflexivity].
      rewrite (string_leb_trans y x z Eyx Exz) in Eyz. discriminate Eyz.
    + now rewrite IH.
Qed.

Lemma sort_strings_perm_eq l l' :
  Permutation l l' -> JS.sort_strings l = JS.sort_strings l'.
Proof.
  induction 1; cbn.
  - reflexivity.
  - now f_equal.
  - apply insert_string_comm.
  - congruence.
Qed.

Lemma insert_string_perm x l : Permutation (JS.insert_string x l) (x :: l).
Proof.
  induction l as [|y l IH]; cbn.
  - reflexivity.
  - destruct (String.leb x y).
    + reflexivity.
    + rewrite IH. apply perm_swap.
Qed.

Lemma sort_strings_perm l : Permutation (JS.sort_strings l) l.
Proof.
  induction l as [|x l IH]; cbn.
  - reflexivity.
  - rewrite insert_string_perm. now constructor.
Qed.

Lemma obj_get_In k v o : JS.obj_get k o = Some v -> In (k, v) o.
Proof.
  induction o as [|[k' v'] o IH]; cbn; [discriminate|].
  destruct (String.eqb_spec k' k) as [->|Hne].
  - intro E. inversion E. now left.
  - intro E. right. now apply IH.
Qed.

Lemma obj_get_keys k o : JS.obj_get k o <> None <-> In k (map fst o).
Proof.
  induction o as [|[k' v'] o IH]; cbn.
  - tauto.
  - destruct (String.eqb_spec k' k) as [->|Hne].
    + split; [now left|discriminate].
    + rewrite IH. split; [now right|]. intros [E|H]; [contradiction|exact H].
Qed.

Lemma obj_has_keys k o : JS.obj_has k o = true <-> In k (map fst o).
Proof.
  rewrite <- obj_get_keys. unfold JS.obj_has.
  destruct (JS.obj_get k o); split; congruence.
Qed.

Lemma obj_replace_keys k v o : map fst (JS.obj_replace k v o) = map fst o.
Proof.
  induction o as [|[k' v'] o IH]; cbn; [reflexivity|].
  destruct (k' =? k)%string; cbn; congruence.
Qed.

Lemma obj_insert_index_keys n k v o :
  Permutation (map fst (JS.obj_insert_index n k v o)) (k :: map fst o).
Proof.
  induction o as [|[k' v'] o IH]; cbn; [reflexivity|].
  destruct (JS.array_index k') as [n'|]; [|reflexivity].
  destruct (n' <? n)%N; cbn; [|reflexivity].
  rewrite IH. apply perm_swap.
Qed.

Lemma obj_set_NoDup k v o :
  NoDup (map fst o) -> NoDup (map fst (JS.obj_set k v o)).
Proof.
  intro H. unfold JS.obj_set. destruct (JS.obj_has k o) eqn:E.
  - now rewrite obj_replace_keys.
  - assert (Hk : ~ In k (map fst o)).
    { intro Hin. apply obj_has_keys in Hin. congruence. }
    destruct (JS.array_index k) as [n|].
    + eapply Permutation_NoDup.
      * apply Permutation_sym, obj_insert_index_keys.
      * now constructor.
    + rewrite map_app. cbn. eapply Permutation_NoDup.
      * apply Permutation_cons_append.
      * now constructor.
Qed.

Lemma Object_fromEntries_NoDup entries :
  NoDup (map fst (JS.Object_fromEntries entries)).
Proof.
  unfold JS.Object_fromEntries.
  assert (G : forall es o, NoDup (map fst o) ->
                NoDup (map fst (fold_left
                   (fun o kv => JS.obj_set (fst kv) (snd kv) o) es o))).
  { induction es as [|e es IH]; intros o Ho; cbn; [exact Ho|].
    apply IH. now apply obj_set_NoDup. }
  apply G. constructor.
Qed.

Lemma same_mapping_keys o1 o2 :
  NoDup (map fst o1) -> same_mapping o1 o2 = true ->
  Permutation (JS.Object_keys o1) (JS.Object_keys o2).
Proof.
  intros Hnd H. unfold same_mapping in H. apply andb_prop in H.
  destruct H as [Hlen Hall]. apply Nat.eqb_eq in Hlen.
  rewrite forallb_forall in Hall. unfold JS.Object_keys.
  apply NoDup_Permutation_bis; [exact Hnd|rewrite !length_map; lia|].
  intros k Hk. apply in_map_iff in Hk. destruct Hk as [[k0 v] [<- Hin]].
  apply obj_get_keys. specialize (Hall _ Hin). cbn in *.
  destruct (JS.obj_get k0 o2); [discriminate|discriminate Hall].
Qed.

Lemma same_mapping_get o1 o2 k :
  same_mapping o1 o2 = true -> In k (map fst o1) ->
  JS.obj_get k o1 = JS.obj_get k o2.
Proof.
  intros H Hk. unfold same_mapping in H. apply andb_prop in H.
  destruct H as [_ Hall]. rewrite forallb_forall in Hall.
  apply obj_get_keys in Hk. destruct (JS.obj_get k o1) as [v|] eqn:E; [|congruence].
  specialize (Hall _ (obj_get_In _ _ _ E)). cbn in Hall.
  destruct (JS.obj_get k o2) as [v'|]; [|discriminate Hall].
  apply String.eqb_eq in Hall. now subst.
Qed.

Lemma strip_www_no_www s :
  JS.startsWith s "www." = false -> JS.strip_www s = s.
Proof.
  unfold JS.startsWith, JS.strip_www. now intros ->.
Qed.

(** ** The analyzer *)

(** C1, as the code has it.  A tab whose URL does not parse is in no
    similar pair.  It is in no group made by document identity, and these
    are the first groups of [exactDuplicates].  A duplicate group that holds
    it is keyed by the tab's own URL string, and every tab of that group has
    that very string as its normalized URL: [normalizeUrl] hands an
    unparseable string back unchanged. *)
Theorem C1_unparseable_tab_exclusion
  (new_URL : string -> option URL) (tabs0 : list TabRecord) (threshold : Z)
  (t : TabRecord) :
  Lib.parseUrl new_URL (url t) = None ->
  (forall p, In p (similarTabs (Lib.analyzeTabs new_URL tabs0 threshold)) ->
     tab1 p <> t /\ tab2 p <> t) /\
  (forall g, In g (documentGroups new_URL (Lib.validTabs tabs0)) ->
     ~ In t (tabs g)) /\
  (exists urlBased,
     exactDuplicates (Lib.analyzeTabs new_URL tabs0 threshold)
     = documentGroups new_URL (Lib.validTabs tabs0) ++ urlBased) /\
  (forall g, In g (exactDuplicates (Lib.analyzeTabs new_URL tabs0 threshold)) ->
     In t (tabs g) ->
     normalizedUrl g = url t
     /\ forall t', In t' (tabs g) -> Lib.normalizeUrl new_URL (url t') = url t).
Proof.
  intro Hbad. cbn [Lib.analyzeTabs similarTabs exactDuplicates].
  assert (Hkey : Lib.googleDocKey new_URL t = None).
  { destruct (Lib.googleDocKey new_URL t) as [k|] eqn:K; [|reflexivity].
    apply googleDocKey_parses in K. contradiction. }
  assert (Hurl : Lib.normalizeUrl new_URL (url t) = url t).
  { unfold Lib.normalizeUrl. now rewrite Hbad. }
  split; [|split; [|split]].
  - intros p Hp. apply sortedSimilarPairs_parse in Hp. destruct Hp as [H1 H2].
    split; intro E; subst t; contradiction.
  - intros g Hg Ht.
    pose proof (documentGroups_by_document new_URL (Lib.validTabs tabs0)) as D.
    rewrite Forall_forall in D. specialize (D g Hg t Ht). congruence.
  - apply url_groups_behind.
  - intros g Hg Ht.
    pose proof (buildGroups_of_one_kind new_URL (Lib.validTabs tabs0)) as K.
    rewrite Forall_forall in K. destruct (K g Hg) as [D|U].
    + specialize (D t Ht). congruence.
    + pose proof (U t Ht) as E. rewrite Hurl in E. split; [now symmetry|].
      intros t' Ht'. rewrite (U t' Ht'). now symmetry.
Qed.

(** C4.  Raising the threshold never increases [totalSimilar]. *)
Theorem C4_threshold_monotone
  (new_URL : string -> option URL) (tabs0 : list TabRecord) (t1 t2 : Z) :
  (t1 <= t2)%Z ->
  (totalSimilar (Lib.analyzeTabs new_URL tabs0 t2)
   <= totalSimilar (Lib.analyzeTabs new_URL tabs0 t1))%Z.
Proof.
  intro Hle. cbn [Lib.analyzeTabs totalSimilar].
  apply Nat2Z.inj_le. now apply sortedSimilarPairs_mono.
Qed.

(** C5.  When the ids of the input are unique, two groups at different
    places of [exactDuplicates] share no tab id, and every group has
    [count] equal to the number of its tabs, which is more than one. *)
Theorem C5_group_invariant
  (new_URL : string -> option URL) (tabs0 : list TabRecord) (threshold : Z) :
  NoDup (map id tabs0) ->
  (forall i j g1 g2 x,
     i <> j ->
     nth_error (exactDuplicates (Lib.analyzeTabs new_URL tabs0 threshold)) i = Some g1 ->
     nth_error (exactDuplicates (Lib.analyzeTabs new_URL tabs0 threshold)) j = Some g2 ->
     In x (group_ids g1) -> In x (group_ids g2) -> False) /\
  (forall g, In g (exactDuplicates (Lib.analyzeTabs new_URL tabs0 threshold)) ->
     count g = Z.of_nat (length (tabs g)) /\ (count g > 1)%Z).
Proof.
  intro Hnd. cbn [Lib.analyzeTabs exactDuplicates].
  destruct (buildGroups_ok new_URL (Lib.validTabs tabs0) (validTabs_NoDup _ Hnd))
    as (Hids & _ & Hcount).
  split.
  - intros i j g1 g2 x Hij Hi Hj H1 H2.
    apply (NoDup_concat_disjoint _ i j (group_ids g1) (group_ids g2) x Hids Hij);
      try assumption; rewrite nth_error_map.
    + now rewrite Hi.
    + now rewrite Hj.
  - intros g Hg. destruct (Hcount g Hg) as [Hc Hl]. split; [exact Hc|lia].
Qed.

(** C3, as the code has it.  The popup's copy builds the same duplicate
    groups and the same sorted list of similar pairs as the library, but
    returns only the first twenty pairs and caps [totalSimilar] at twenty. *)
Theorem C3_popup_against_lib
  (new_URL : string -> option URL) (tabs0 : list TabRecord) (threshold : Z) :
  Popup.analyzeTabs new_URL tabs0 threshold
  = {| exactDuplicates := exactDuplicates (Lib.analyzeTabs new_URL tabs0 threshold);
       similarTabs := firstn 20 (similarTabs (Lib.analyzeTabs new_URL tabs0 threshold));
       totalDuplicates := totalDuplicates (Lib.analyzeTabs new_URL tabs0 threshold);
       totalSimilar :=
         Z.min (totalSimilar (Lib.analyzeTabs new_URL tabs0 threshold)) 20 |}.
Proof.
  unfold Popup.analyzeTabs, Lib.analyzeTabs.
  cbn [exactDuplicates similarTabs totalDuplicates totalSimilar].
  rewrite popup_buildGroups_eq, popup_sortedSimilarPairs_eq. reflexivity.
Qed.

(** With at most twenty similar pairs the two copies return the same. *)
Lemma popup_equals_lib_up_to_twenty
  (new_URL : string -> option URL) (tabs0 : list TabRecord) (threshold : Z) :
  (totalSimilar (Lib.analyzeTabs new_URL tabs0 threshold) <= 20)%Z ->
  Popup.analyzeTabs new_URL tabs0 threshold = Lib.analyzeTabs new_URL tabs0 threshold.
Proof.
  unfold Popup.analyzeTabs, Lib.analyzeTabs.
  cbn [exactDuplicates similarTabs totalDuplicates totalSimilar].
  rewrite popup_buildGroups_eq, popup_sortedSimilarPairs_eq. intro H.
  rewrite firstn_all2 by lia. rewrite Z.min_l by lia. reflexivity.
Qed.

(** ** The classifier *)

(** C8.  When both URLs parse and the hosts differ after a leading [www.]
    is removed, the verdict is not similar, score 0, no reason, whatever
    the threshold and the titles. *)
Theorem C8_cross_domain_short_circuit
  (new_URL : string -> option URL) (t1 t2 : TabRecord) (threshold : Z)
  (u1 u2 : ParsedUrl) :
  Lib.parseUrl new_URL (url t1) = Some u1 ->
  Lib.parseUrl new_URL (url t2) = Some u2 ->
  JS.strip_www (hostname u1) <> JS.strip_www (hostname u2) ->
  Lib.findSimilarity new_URL t1 t2 threshold
  = {| similar := false; score := 0; reason := None |}.
Proof.
  intros H1 H2 Hne. unfold Lib.findSimilarity. rewrite H1, H2. cbv zeta.
  apply String.eqb_neq in Hne. rewrite Hne.
  rewrite andb_false_r. reflexivity.
Qed.

(** C10.  [findSimilarity] gives the same verdict whichever tab comes
    first, in the library and in the popup's copy. *)
Theorem C10_findSimilarity_symmetric
  (new_URL : string -> option URL) (t1 t2 : TabRecord) (threshold : Z) :
  Lib.findSimilarity new_URL t1 t2 threshold
  = Lib.findSimilarity new_URL t2 t1 threshold
  /\ Popup.findSimilarity new_URL t1 t2 threshold
     = Popup.findSimilarity new_URL t2 t1 threshold.
Proof.
  rewrite popup_findSimilarity_eq. split; apply findSimilarity_sym_lib.
Qed.

(** ** Normalization *)

Lemma parseUrl_params_NoDup (new_URL : string -> option URL) u p :
  Lib.parseUrl new_URL u = Some p -> NoDup (map fst (params p)).
Proof.
  unfold Lib.parseUrl. destruct (new_URL u); [|discriminate].
  intro E. inversion E. cbn. apply Object_fromEntries_NoDup.
Qed.

(** The query part that [normalizeUrl] writes depends on the mapping only. *)
Lemma sorted_query_same_mapping o1 o2 :
  NoDup (map fst o1) -> same_mapping o1 o2 = true ->
  map (fun k => k +++ "=" +++ match JS.obj_get k o1 with
                              | Some v => v
                              | None => "undefined"
                              end)
      (JS.sort_strings (JS.Object_keys o1))
  = map (fun k => k +++ "=" +++ match JS.obj_get k o2 with
                                | Some v => v
                                | None => "undefined"
                                end)
        (JS.sort_strings (JS.Object_keys o2)).
Proof.
  intros Hnd H.
  rewrite <- (sort_strings_perm_eq _ _ (same_mapping_keys o1 o2 Hnd H)).
  apply map_ext_in. intros k Hk.
  apply (Permutation_in _ (sort_strings_perm _)) in Hk.
  now rewrite (same_mapping_get o1 o2 k H Hk).
Qed.

(** C9, as the code has it.  If the normalized form of a parseable URL
    parses again into the components that were written (scheme, host
    without its leading [www.], port, path, query mapping), and that host
    does not begin with a second [www.], normalizing twice gives what
    normalizing once gives. *)
Theorem C9_normalizeUrl_idempotent
  (new_URL : string -> option URL) (u : string) (p p' : ParsedUrl) :
  Lib.parseUrl new_URL u = Some p ->
  Lib.parseUrl new_URL (Lib.normalizeUrl new_URL u) = Some p' ->
  reparsed_shape p p' = true ->
  JS.startsWith (JS.strip_www (hostname p)) "www." = false ->
  Lib.normalizeUrl new_URL (Lib.normalizeUrl new_URL u) = Lib.normalizeUrl new_URL u.
Proof.
  intros Hp Hp' Hshape Hwww.
  pose proof (parseUrl_params_NoDup _ _ _ Hp') as Hnd.
  unfold reparsed_shape in Hshape.
  repeat (apply andb_prop in Hshape; destruct Hshape as [Hshape ?]).
  repeat match goal with
         | H : (_ =? _)%string = true |- _ => apply String.eqb_eq in H
         end.
  unfold Lib.normalizeUrl at 1. rewrite Hp'.
  unfold Lib.normalizeUrl. rewrite Hp. cbv zeta.
  match goal with
  | Hm : same_mapping _ _ = true |- _ =>
      rewrite (sorted_query_same_mapping _ _ Hnd Hm)
  end.
  replace (protocol p') with (protocol p) by congruence.
  replace (port p') with (port p) by congruence.
  replace (pathname p') with (pathname p) by congruence.
  replace (JS.strip_www (hostname p')) with (JS.strip_www (hostname p)).
  - reflexivity.
  - replace (hostname p') with (JS.strip_www (hostname p)) by congruence.
    symmetry. now apply strip_www_no_www.
Qed.

(** ** The engine on concrete tabs *)

(** A bucket of one tab is never turned into a group. *)
Lemma push_url_group_singleton st key t :
  Lib.push_url_group st (key, [t]) = st.
Proof.
  unfold Lib.push_url_group. cbv zeta. cbn [filter].
  now destruct (negb (JS.set_has (id t) (snd st))).
Qed.

(** C6.  Scenario 1: a tracking parameter on one side only. *)
Theorem C6_tracking_parameter_scenario
  (id1 id2 : Z) (title1 title2 : option string) (threshold : Z) :
  Lib.findSimilarity URL_parse
    (mkTab id1 "https://example.com/page?utm_source=x" title1)
    (mkTab id2 "https://example.com/page" title2) threshold
  = {| similar := true; score := 95;
       reason := Some "Same page with tracking parameters" |}.
Proof. vm_compute. reflexivity. Qed.

(** C7.  Scenario 3: two views of one Google document make one group, keyed
    by the document, of count 2, although their normalized URLs differ.
    This holds whatever the two ids are. *)
Theorem C7_google_doc_scenario
  (id1 id2 : Z) (title1 title2 : option string) (threshold : Z) :
  let a := mkTab id1 "https://docs.google.com/document/d/ABC123/edit" title1 in
  let b := mkTab id2 "https://docs.google.com/document/d/ABC123/view" title2 in
  exactDuplicates (Lib.analyzeTabs URL_parse [a; b] threshold)
  = [ {| normalizedUrl := "gdoc:doc:ABC123"; tabs := [a; b]; count := 2 |} ]
  /\ Lib.normalizeUrl URL_parse (url a) <> Lib.normalizeUrl URL_parse (url b).
Proof.
  intros a b. split.
  - cbn [Lib.analyzeTabs exactDuplicates]. unfold Lib.buildGroups.
    assert (V : Lib.validTabs [a; b] = [a; b]) by (vm_compute; reflexivity).
    assert (G : Lib.googleDocGroups URL_parse [a; b]
                = [("gdoc:doc:ABC123", [a; b])]) by (vm_compute; reflexivity).
    assert (U : Lib.urlGroups URL_parse [a; b]
                = [("https://docs.google.com/document/d/ABC123/edit", [a]);
                   ("https://docs.google.com/document/d/ABC123/view", [b])])
      by (vm_compute; reflexivity).
    rewrite V, G, U. cbn [fold_left]. rewrite !push_url_group_singleton.
    reflexivity.
  - vm_compute. discriminate.
Qed.

(** C2 on the code: the same two parameters in another order are taken for
    different parameters, while the same order falls through to the
    weighted score. *)
Theorem C2_query_order_matters (id1 id2 : Z) (title1 title2 : option string) :
  Lib.findSimilarity URL_parse
    (mkTab id1 "https://example.com/p?a=1&b=2" title1)
    (mkTab id2 "https://example.com/p?b=2&a=1" title2) 80
  = {| similar := true; score := 85;
       reason := Some "Same page, different parameters" |}
  /\ Lib.findSimilarity URL_parse
       (mkTab id1 "https://example.com/p?a=1&b=2" None)
       (mkTab id2 "https://example.com/p?a=1&b=2" None) 80
     = {| similar := true; score := 80;
          reason := Some "80% overall similarity" |}
  /\ similarTabs
       (Lib.analyzeTabs URL_parse
          [ mkTab 1 "http://example.com/p?a=1&b=2" None;
            mkTab 2 "https://example.com/p?b=2&a=1" None ] 80)
     = [ {| tab1 := mkTab 1 "http://example.com/p?a=1&b=2" None;
            tab2 := mkTab 2 "https://example.com/p?b=2&a=1" None;
            pair_score := 85;
            pair_reason := Some "Same page, different parameters" |} ].
Proof. repeat split; vm_compute; reflexivity. Qed.

(** C1 fails as stated: two tabs with the same unparseable URL make an
    exact-duplicate group. *)
Lemma C1_unparseable_tabs_grouped :
  JS.truthy (url tab_bad1) = true
  /\ JS.startsWith (url tab_bad1) "chrome://" = false
  /\ JS.startsWith (url tab_bad1) "chrome-extension://" = false
  /\ Lib.parseUrl URL_parse (url tab_bad1) = None
  /\ exactDuplicates (Lib.analyzeTabs URL_parse [tab_bad1; tab_bad2] 80)
     = [ {| normalizedUrl := "not a url"; tabs := [tab_bad1; tab_bad2]; count := 2 |} ]
  /\ ~ (forall g,
          In g (exactDuplicates (Lib.analyzeTabs URL_parse [tab_bad1; tab_bad2] 80)) ->
          ~ In tab_bad1 (tabs g)).
Proof.
  assert (E : exactDuplicates (Lib.analyzeTabs URL_parse [tab_bad1; tab_bad2] 80)
              = [ {| normalizedUrl := "not a url"; tabs := [tab_bad1; tab_bad2];
                     count := 2 |} ]) by (vm_compute; reflexivity).
  repeat split; try (vm_compute; reflexivity).
  rewrite E. intro H. apply (H _ (or_introl eq_refl)). now left.
Qed.

(** C1, as the code has it, on six tabs with ids of their own: the two
    unparseable tabs make the second group, behind the group of the
    document, and the one similar pair holds neither of them. *)
Lemma C1_unparseable_tab_exclusion_witness :
  Lib.parseUrl URL_parse (url tab_bad1) = None
  /\ map id tabs_mixed = [1; 4; 3; 2; 5; 6]%Z
  /\ map (fun g => map id (tabs g))
         (exactDuplicates (Lib.analyzeTabs URL_parse tabs_mixed 80))
     = [[4; 5]; [1; 2]]%Z
  /\ map (fun p => (id (tab1 p), id (tab2 p)))
         (similarTabs (Lib.analyzeTabs URL_parse tabs_mixed 80))
     = [(3, 6)]%Z
  /\ ((forall p, In p (similarTabs (Lib.analyzeTabs URL_parse tabs_mixed 80)) ->
         tab1 p <> tab_bad1 /\ tab2 p <> tab_bad1)
      /\ (forall g, In g (documentGroups URL_parse (Lib.validTabs tabs_mixed)) ->
            ~ In tab_bad1 (tabs g))
      /\ (exists urlBased,
            exactDuplicates (Lib.analyzeTabs URL_parse tabs_mixed 80)
            = documentGroups URL_parse (Lib.validTabs tabs_mixed) ++ urlBased)
      /\ (forall g, In g (exactDuplicates (Lib.analyzeTabs URL_parse tabs_mixed 80)) ->
            In tab_bad1 (tabs g) ->
            normalizedUrl g = url tab_bad1
            /\ forall t', In t' (tabs g) ->
                 Lib.normalizeUrl URL_parse (url t') = url tab_bad1)).
Proof.
  split; [reflexivity|]. split; [reflexivity|].
  split; [vm_compute; reflexivity|]. split; [vm_compute; reflexivity|].
  apply (C1_unparseable_tab_exclusion URL_parse tabs_mixed 80 tab_bad1).
  reflexivity.
Defined.

(** C3 fails as stated: with twenty-one similar pairs the library reports
    them all and the popup's copy stops at twenty. *)
Lemma C3_copies_differ :
  totalSimilar (Lib.analyzeTabs URL_parse tabs_seven 80) = 21%Z
  /\ totalSimilar (Popup.analyzeTabs URL_parse tabs_seven 80) = 20%Z
  /\ Popup.analyzeTabs URL_parse tabs_seven 80 <> Lib.analyzeTabs URL_parse tabs_seven 80.
Proof.
  split; [vm_compute; reflexivity|]. split; [vm_compute; reflexivity|].
  intro H. apply (f_equal totalSimilar) in H. vm_compute in H. discriminate H.
Qed.

(** C4 at thresholds 50 and 95: one similar pair against none. *)
Lemma C4_threshold_monotone_witness :
  (50 <= 95)%Z
  /\ (totalSimilar (Lib.analyzeTabs URL_parse [tab_post1; tab_post2; tab_shop] 95)
      <= totalSimilar (Lib.analyzeTabs URL_parse [tab_post1; tab_post2; tab_shop] 50))%Z.
Proof.
  split; [lia|].
  apply (C4_threshold_monotone URL_parse [tab_post1; tab_post2; tab_shop] 50 95). lia.
Defined.

(** C5 on five tabs that make two groups: one by document, one by URL. *)
Lemma C5_group_invariant_witness :
  NoDup (map id tabs_five)
  /\ (forall i j g1 g2 x,
        i <> j ->
        nth_error (exactDuplicates (Lib.analyzeTabs URL_parse tabs_five 80)) i = Some g1 ->
        nth_error (exactDuplicates (Lib.analyzeTabs URL_parse tabs_five 80)) j = Some g2 ->
        In x (group_ids g1) -> In x (group_ids g2) -> False)
  /\ (forall g,
        In g (exactDuplicates (Lib.analyzeTabs URL_parse tabs_five 80)) ->
        count g = Z.of_nat (length (tabs g)) /\ (count g > 1)%Z).
Proof.
  assert (Hnd : NoDup (map id tabs_five)).
  { cbn. repeat constructor; cbn; lia. }
  split; [exact Hnd|].
  exact (C5_group_invariant URL_parse tabs_five 80 Hnd).
Defined.

(** C8 on two tabs with the same title on different domains. *)
Lemma C8_cross_domain_short_circuit_witness :
  JS.strip_www "example.com" <> JS.strip_www "other.org"
  /\ Lib.findSimilarity URL_parse tab_shop tab_other 0
     = {| similar := false; score := 0; reason := None |}.
Proof.
  assert (Hne : JS.strip_www "example.com" <> JS.strip_www "other.org")
    by (vm_compute; discriminate).
  split; [exact Hne|].
  exact (C8_cross_domain_short_circuit URL_parse tab_shop tab_other 0
           _ _ eq_refl eq_refl Hne).
Defined.

(** C9 fails as stated: a host with two leading [www.] labels loses one at
    each normalization, although the normalized form parses again into
    exactly the components that were written. *)
Lemma C9_double_www_not_idempotent :
  exists p p',
    Lib.parseUrl URL_parse "https://www.www.example.com/a" = Some p
    /\ Lib.parseUrl URL_parse
         (Lib.normalizeUrl URL_parse "https://www.www.example.com/a") = Some p'
    /\ reparsed_shape p p' = true
    /\ Lib.normalizeUrl URL_parse "https://www.www.example.com/a"
       = "https://www.example.com/a"
    /\ Lib.normalizeUrl URL_parse
         (Lib.normalizeUrl URL_parse "https://www.www.example.com/a")
       = "https://example.com/a"
    /\ Lib.normalizeUrl URL_parse
         (Lib.normalizeUrl URL_parse "https://www.www.example.com/a")
       <> Lib.normalizeUrl URL_parse "https://www.www.example.com/a".
Proof.
  eexists. eexists.
  repeat split; try (vm_compute; reflexivity).
  vm_compute. discriminate.
Qed.

(** C9, as the code has it, on a URL whose query gets reordered. *)
Lemma C9_normalizeUrl_idempotent_witness :
  Lib.normalizeUrl URL_parse
    (Lib.normalizeUrl URL_parse "https://www.Example.com/a/?b=2&a=1#top")
  = Lib.normalizeUrl URL_parse "https://www.Example.com/a/?b=2&a=1#top".
Proof.
  exact (C9_normalizeUrl_idempotent URL_parse
           "https://www.Example.com/a/?b=2&a=1#top" _ _
           eq_refl eq_refl eq_refl eq_refl).
Defined.

(** * Further properties of the code *)

(** ** The edit distance and the similarity of strings *)

Lemma lev_upper a : forall b, lev a b <= Nat.max (length a) (length b).
Proof.
  induction a as [|x a IHa]; intro b.
  - rewrite lev_nil_l. cbn. lia.
  - induction b as [|y b IHb].
    + rewrite lev_nil_r. cbn. lia.
    + rewrite lev_cons. specialize (IHa b). unfold Lib.min3.
      cbn [length]. destruct (Ascii.eqb x y); lia.
Qed.

Lemma lev_lower a : forall b,
  length a <= lev a b + length b /\ length b <= lev a b + length a.
Proof.
  induction a as [|x a IHa]; intro b.
  - rewrite lev_nil_l. cbn. lia.
  - induction b as [|y b IHb].
    + rewrite lev_nil_r. cbn. lia.
    + rewrite lev_cons. pose proof (IHa b). pose proof (IHa (y :: b)).
      unfold Lib.min3. cbn [length] in *. destruct (Ascii.eqb x y); lia.
Qed.

Lemma lev_refl a : lev a a = 0.
Proof.
  induction a as [|x a IH]; [reflexivity|].
  rewrite lev_cons, IH, Ascii.eqb_refl. unfold Lib.min3. lia.
Qed.

Lemma lev_zero a : forall b, lev a b = 0 -> a = b.
Proof.
  induction a as [|x a IHa]; intro b.
  - rewrite lev_nil_l. intro H. symmetry. now apply length_zero_iff_nil.
  - destruct b as [|y b].
    + rewrite lev_nil_r. discriminate.
    + rewrite lev_cons. unfold Lib.min3. intro H.
      destruct (Ascii.eqb_spec x y) as [->|Hne].
      * f_equal. apply IHa. lia.
      * lia.
Qed.

Lemma list_ascii_of_string_inj s1 s2 :
  list_ascii_of_string s1 = list_ascii_of_string s2 -> s1 = s2.
Proof.
  intro H. rewrite <- (string_of_list_ascii_of_string s1),
                   <- (string_of_list_ascii_of_string s2). now rewrite H.
Qed.

(** X1.  The edit distance and the similarity do not depend on the order of
    the two strings. *)
Theorem X1_distance_and_similarity_symmetric (str1 str2 : string) :
  Lib.levenshteinDistance str1 str2 = Lib.levenshteinDistance str2 str1
  /\ Lib.stringSimilarity str1 str2 = Lib.stringSimilarity str2 str1.
Proof. split; [apply levenshteinDistance_sym|apply stringSimilarity_sym]. Qed.

Lemma levenshteinDistance_bounds (str1 str2 : string) :
  Lib.levenshteinDistance str1 str2
    <= Nat.max (String.length str1) (String.length str2)
  /\ String.length str1 - String.length str2 <= Lib.levenshteinDistance str1 str2
  /\ String.length str2 - String.length str1 <= Lib.levenshteinDistance str1 str2.
Proof.
  rewrite levenshteinDistance_lev, <- !length_list_ascii_of_string.
  pose proof (lev_upper (rev (list_ascii_of_string str1))
                        (rev (list_ascii_of_string str2))) as U.
  pose proof (lev_lower (rev (list_ascii_of_string str1))
                        (rev (list_ascii_of_string str2))) as L.
  rewrite !length_rev in U, L. lia.
Qed.

(** X2.  The edit distance lies between the difference of the two lengths
    and the larger of them. *)
Theorem X2_levenshteinDistance_bounds (str1 str2 : string) :
  Lib.levenshteinDistance str1 str2
    <= Nat.max (String.length str1) (String.length str2)
  /\ String.length str1 - String.length str2 <= Lib.levenshteinDistance str1 str2
  /\ String.length str2 - String.length str1 <= Lib.levenshteinDistance str1 str2.
Proof. apply levenshteinDistance_bounds. Qed.

(** X3.  The edit distance is zero exactly when the two strings are the
    same. *)
Theorem X3_levenshteinDistance_zero_iff_equal (str1 str2 : string) :
  Lib.levenshteinDistance str1 str2 = 0 <-> str1 = str2.
Proof.
  rewrite levenshteinDistance_lev. split.
  - intro H. apply lev_zero in H. apply list_ascii_of_string_inj.
    rewrite <- (rev_involutive (list_ascii_of_string str1)), H.
    apply rev_involutive.
  - intros ->. apply lev_refl.
Qed.

Lemma Math_round_range (x : Q) :
  (0 <= x)%Q -> (x <= 100)%Q -> (0 <= JS.Math_round x <= 100)%Z.
Proof.
  intros H0 H1. unfold JS.Math_round. split.
  - change 0%Z with (Qfloor 0). apply Qfloor_resp_le. lra.
  - change 100%Z with (Qfloor (100 + (1 # 2))). apply Qfloor_resp_le. lra.
Qed.

(** ** Binary64 arithmetic

    The percentage of [stringSimilarity] goes through a division, a
    subtraction and a multiplication, each rounded to 53 bits.  Rounding
    never crosses an integer below [2 ^ 53]: a quotient that is at most 1
    rounds to at most 1, and so on up to the percentage, which is at most
    100. *)

Section Binary64.

Local Open Scope Z_scope.

Lemma digits2_pos_size p : digits2_pos p = Pos.size p.
Proof. induction p; cbn; congruence. Qed.

Lemma Zdigits2_lt m : 0 < m -> m < 2 ^ Zdigits2 m.
Proof.
  destruct m as [|p|p]; try lia. intros _. cbn [Zdigits2].
  rewrite digits2_pos_size. pose proof (Pos.size_gt p) as H.
  apply Pos2Z.pos_lt_pos in H. now rewrite Pos2Z.inj_pow in H.
Qed.

Lemma Zdigits2_le m : 0 < m -> 2 ^ Zdigits2 m <= 2 * m.
Proof.
  destruct m as [|p|p]; try lia. intros _. cbn [Zdigits2].
  rewrite digits2_pos_size. pose proof (Pos.size_le p) as H.
  apply Pos2Z.pos_le_pos in H. rewrite Pos2Z.inj_pow in H. exact H.
Qed.

Lemma Zdigits2_pos m : 0 < m -> 0 < Zdigits2 m.
Proof. destruct m; cbn; lia. Qed.

Lemma Zdigits2_unique m d :
  0 < m -> 2 ^ d <= 2 * m -> m < 2 ^ d -> Zdigits2 m = d.
Proof.
  intros Hm Hl Hu.
  assert (0 <= d). { destruct (Z.le_gt_cases 0 d); [assumption|].
                     rewrite Z.pow_neg_r in Hu; lia. }
  pose proof (Zdigits2_lt m Hm) as D1. pose proof (Zdigits2_le m Hm) as D2.
  pose proof (Zdigits2_pos m Hm) as D3.
  assert (A : 2 ^ d < 2 ^ (Zdigits2 m + 1)).
  { rewrite Z.pow_add_r; lia. }
  assert (B : 2 ^ Zdigits2 m < 2 ^ (d + 1)).
  { rewrite (Z.pow_add_r 2 d); lia. }
  apply Z.pow_lt_mono_r_iff in A, B; lia.
Qed.

Lemma Zdigits2_upper m k : 0 <= m -> 0 <= k -> m < 2 ^ k -> Zdigits2 m <= k.
Proof.
  intros Hm Hk H. destruct (Z.eq_dec m 0) as [->|]; [cbn; lia|].
  pose proof (Zdigits2_le m ltac:(lia)) as D2.
  assert (A : 2 ^ Zdigits2 m < 2 ^ (k + 1)).
  { rewrite (Z.pow_add_r 2 k); lia. }
  apply Z.pow_lt_mono_r_iff in A; lia.
Qed.

Lemma Zdigits2_shift m k : 0 < m -> 0 <= k -> Zdigits2 (m * 2 ^ k) = Zdigits2 m + k.
Proof.
  intros Hm Hk. pose proof (Zdigits2_lt m Hm) as D1.
  pose proof (Zdigits2_le m Hm) as D2. pose proof (Zdigits2_pos m Hm) as D3.
  assert (P : 0 < 2 ^ k) by (apply Z.pow_pos_nonneg; lia).
  apply Zdigits2_unique; rewrite ?Z.pow_add_r by lia; nia.
Qed.

(** *** Shifting to the right *)

Lemma shr_1_spec mrs :
  0 <= shr_m mrs ->
  0 <= shr_m (shr_1 mrs)
  /\ shr_m (shr_1 mrs) = shr_m mrs / 2
  /\ (exact mrs -> (2 | shr_m mrs) -> exact (shr_1 mrs)).
Proof.
  destruct mrs as [m r s]. cbn [shr_m]. intro Hm. unfold exact.
  destruct m as [|[p|p|]|p]; cbn [shr_1 shr_m shr_r shr_s]; try lia;
    (split; [lia|]); split.
  - reflexivity.
  - intros [-> ->] _. now split.
  - apply Z.div_unique with (r := 1); lia.
  - intros _ [k Hk]. lia.
  - apply Z.div_unique with (r := 0); lia.
  - intros [-> ->] _. now split.
  - reflexivity.
  - intros _ [k Hk]. lia.
Qed.

Lemma shifted_trans a b x y z :
  0 < a -> 0 < b -> shifted a x y -> shifted b y z -> shifted (a + b) x z.
Proof.
  intros Ha Hb Hxy Hyz Hx.
  destruct (Hxy Hx) as [Hy [Ey Xy]]. destruct (Hyz Hy) as [Hz [Ez Xz]].
  assert (Pa : 0 < 2 ^ a) by (apply Z.pow_pos_nonneg; lia).
  assert (Pb : 0 < 2 ^ b) by (apply Z.pow_pos_nonneg; lia).
  split; [assumption|]. split.
  - rewrite Ez, Ey, Z.pow_add_r by lia. apply Z.div_div; lia.
  - intros X [k Hk]. rewrite Z.pow_add_r in Hk by lia.
    apply Xz.
    + apply Xy; [assumption|]. exists (k * 2 ^ b). lia.
    + rewrite Ey. exists k. rewrite Hk.
      replace (k * (2 ^ a * 2 ^ b)) with (k * 2 ^ b * 2 ^ a) by lia.
      rewrite Z.div_mul; lia.
Qed.

Lemma iter_shr_1 p : forall mrs, shifted (Zpos p) mrs (iter_pos shr_1 p mrs).
Proof.
  assert (One : forall mrs, shifted 1 mrs (shr_1 mrs)).
  { intros mrs H. now apply shr_1_spec. }
  induction p as [p IH|p IH|]; intro mrs; cbn [iter_pos].
  - replace (Z.pos p~1) with (1 + (Z.pos p + Z.pos p)) by lia.
    apply shifted_trans with (y := shr_1 mrs); try lia; [apply One|].
    apply shifted_trans with (y := iter_pos shr_1 p (shr_1 mrs)); try lia; apply IH.
  - replace (Z.pos p~0) with (Z.pos p + Z.pos p) by lia.
    apply shifted_trans with (y := iter_pos shr_1 p mrs); try lia; apply IH.
  - apply One.
Qed.

Lemma shr_record_of_loc_m m l : shr_m (shr_record_of_loc m l) = m.
Proof. now destruct l as [|[]]. Qed.

Lemma loc_of_shr_record_of_loc m l : loc_of_shr_record (shr_record_of_loc m l) = l.
Proof. now destruct l as [|[]]. Qed.

Lemma exact_loc mrs : exact mrs -> loc_of_shr_record mrs = loc_Exact.
Proof. destruct mrs as [m r s]. unfold exact. cbn. now intros [-> ->]. Qed.

Lemma fexp_small t : t <= 53 -> fexp JS.prec JS.emax t <= 0.
Proof. unfold fexp, emin, JS.prec, JS.emax. lia. Qed.

Lemma shr_fexp_at_most b m e l :
  0 <= m -> e <= 0 -> 0 <= b < 2 ^ 53 -> at_most b m e l ->
  0 <= shr_m (fst (shr_fexp JS.prec JS.emax m e l))
  /\ snd (shr_fexp JS.prec JS.emax m e l) <= 0
  /\ at_most b (shr_m (fst (shr_fexp JS.prec JS.emax m e l)))
       (snd (shr_fexp JS.prec JS.emax m e l))
       (loc_of_shr_record (fst (shr_fexp JS.prec JS.emax m e l))).
Proof.
  intros Hm He Hb H. unfold shr_fexp, shr.
  assert (Pe : 0 < 2 ^ (- e)) by (apply Z.pow_pos_nonneg; lia).
  assert (Hd : Zdigits2 m + e <= 53).
  { assert (m < 2 ^ (53 - e)).
    { replace (53 - e) with (53 + - e) by lia. rewrite Z.pow_add_r by lia.
      destruct H as [H|[H _]]; nia. }
    pose proof (Zdigits2_upper m (53 - e)). lia. }
  pose proof (fexp_small _ Hd) as Hf.
  destruct (fexp JS.prec JS.emax (Zdigits2 m + e) - e) as [|p|p] eqn:En;
    cbn [fst snd]; rewrite ?shr_record_of_loc_m, ?loc_of_shr_record_of_loc;
    try (repeat split; assumption).
  destruct (iter_shr_1 p (shr_record_of_loc m l)) as [H0 [Hs Hx]];
    [now rewrite shr_record_of_loc_m|].
  rewrite shr_record_of_loc_m in Hs, Hx.
  set (e' := e + Z.pos p) in *.
  assert (Pp : 0 < 2 ^ Z.pos p) by (apply Z.pow_pos_nonneg; lia).
  assert (E : 2 ^ (- e) = 2 ^ (- e') * 2 ^ Z.pos p).
  { rewrite <- Z.pow_add_r by lia. f_equal. lia. }
  split; [assumption|]. split; [lia|].
  rewrite Hs. destruct H as [H|[H Hl]].
  - left. apply Z.div_lt_upper_bound; [assumption|]. rewrite E in H. lia.
  - right. split.
    + rewrite H, E, Z.mul_assoc. apply Z.div_mul. lia.
    + apply exact_loc, Hx.
      * subst l. now split.
      * exists (b * 2 ^ (- e')). rewrite H, E. lia.
Qed.

Lemma round_nearest_even_at_most b m e l :
  0 <= m -> at_most b m e l ->
  0 <= round_nearest_even m l
  /\ at_most b (round_nearest_even m l) e loc_Exact.
Proof.
  intros Hm H. unfold at_most in *.
  assert (round_nearest_even m l <= b * 2 ^ (- e) /\ 0 <= round_nearest_even m l).
  { destruct H as [H|[H ->]]; [|cbn; lia].
    destruct l as [|[]]; cbn; try destruct (Z.even m); lia. }
  split; [tauto|]. destruct (Z.eq_dec (round_nearest_even m l) (b * 2 ^ (- e))); [now right|left; lia].
Qed.

(** Rounding a number that is at most [b] gives a number that is at most
    [b]: a zero, or a positive finite number. *)
Lemma binary_round_aux_within b m e l :
  0 <= m -> e <= 0 -> 0 <= b < 2 ^ 53 -> at_most b m e l ->
  within b (binary_round_aux JS.prec JS.emax false m e l).
Proof.
  intros Hm He Hb H. unfold binary_round_aux.
  destruct (shr_fexp_at_most b m e l Hm He Hb H) as [H1 [E1 A1]].
  destruct (shr_fexp JS.prec JS.emax m e l) as [mrs1 e1]. cbn [fst snd] in *.
  destruct (round_nearest_even_at_most b _ e1 _ H1 A1) as [H2 A2].
  destruct (shr_fexp_at_most b _ e1 loc_Exact H2 E1 Hb A2) as [H3 [E3 A3]].
  destruct (shr_fexp JS.prec JS.emax _ e1 loc_Exact) as [mrs3 e3]. cbn [fst snd] in *.
  destruct (shr_m mrs3) as [|p|p] eqn:Em; cbn [within]; [exact I| |lia].
  replace (e3 <=? JS.emax - JS.prec) with true
    by (symmetry; apply Z.leb_le; unfold JS.emax, JS.prec; lia).
  cbn [within]. split; [reflexivity|]. split; [assumption|].
  destruct A3 as [A3|[A3 _]]; lia.
Qed.

(** *** Shifting to the left *)

Lemma iter_xO m d : Zpos (Pos.iter xO m d) = Zpos m * 2 ^ Zpos d.
Proof.
  induction d as [|d IH] using Pos.peano_ind.
  - cbn. lia.
  - rewrite Pos.iter_succ, Pos2Z.inj_xO, IH, Pos2Z.inj_succ, Z.pow_succ_r; lia.
Qed.

(** [shl_align] lowers the place, never raises it, and keeps the number. *)
Lemma shl_align_spec m e t :
  snd (shl_align m e t) = Z.min e t
  /\ Zpos (fst (shl_align m e t)) = Zpos m * 2 ^ (e - Z.min e t).
Proof.
  unfold shl_align. destruct (t - e) as [|p|p] eqn:E; cbn [fst snd].
  - replace (Z.min e t) with e by lia. rewrite Z.sub_diag. cbn. lia.
  - replace (Z.min e t) with e by lia. rewrite Z.sub_diag. cbn. lia.
  - replace (Z.min e t) with t by lia. split; [reflexivity|].
    rewrite iter_xO. f_equal. f_equal. lia.
Qed.

(** *** The integers below [2 ^ 53] are numbers *)

Lemma number_of_Z_exact n :
  0 < n < 2 ^ 53 ->
  exists m, JS.number_of_Z n = S754_finite false m (Zdigits2 n - 53)
            /\ Zpos m = n * 2 ^ (53 - Zdigits2 n).
Proof.
  intros [Hn Hlt]. destruct n as [|p|p]; try lia.
  pose proof (Zdigits2_upper (Zpos p) 53 ltac:(lia) ltac:(lia) Hlt) as Hd.
  pose proof (Zdigits2_pos (Zpos p) Hn) as Hd0.
  unfold JS.number_of_Z, binary_normalize, binary_round.
  change (Z.pos (digits2_pos p)) with (Zdigits2 (Zpos p)).
  set (d := Zdigits2 (Zpos p)) in *.
  assert (F : fexp JS.prec JS.emax (d + 0) = d - 53).
  { unfold fexp, emin, JS.prec, JS.emax. lia. }
  rewrite F.
  destruct (shl_align_spec p 0 (d - 53)) as [Se Sm].
  destruct (shl_align p 0 (d - 53)) as [mz ez]. cbn [fst snd] in *.
  replace (Z.min 0 (d - 53)) with (d - 53) in * by lia. subst ez.
  replace (0 - (d - 53)) with (53 - d) in Sm by lia.
  exists mz. split; [|exact Sm].
  assert (Dz : Zdigits2 (Zpos mz) = 53).
  { rewrite Sm, Zdigits2_shift by lia. fold d. lia. }
  assert (N : fexp JS.prec JS.emax (Zdigits2 (Z.pos mz) + (d - 53)) - (d - 53) = 0).
  { rewrite Dz. unfold fexp, emin, JS.prec, JS.emax. lia. }
  unfold binary_round_aux, shr_fexp, shr. rewrite N. cbn [shr_m shr_record_of_loc
    loc_of_shr_record round_nearest_even]. rewrite N. cbn [shr_m shr_record_of_loc].
  replace (d - 53 <=? JS.emax - JS.prec) with true
    by (symmetry; apply Z.leb_le; unfold JS.emax, JS.prec; lia).
  reflexivity.
Qed.

Lemma Zdigits2_mono a b : 0 < a -> a <= b -> Zdigits2 a <= Zdigits2 b.
Proof.
  intros Ha Hab. pose proof (Zdigits2_lt b ltac:(lia)).
  pose proof (Zdigits2_pos b ltac:(lia)).
  apply Zdigits2_upper; lia.
Qed.

(** *** The three operations of a percentage *)

Lemma new_location_0 n : new_location n 0 = loc_Exact.
Proof. unfold new_location. now destruct (Z.even n). Qed.

Lemma number_div_within d m :
  0 <= d <= m -> 0 < m < 2 ^ 53 ->
  within 1 (JS.number_div (JS.number_of_Z d) (JS.number_of_Z m)).
Proof.
  intros [Hd Hdm] Hm. unfold JS.number_div.
  destruct (number_of_Z_exact m Hm) as [m2 [-> M2]].
  destruct (Z.eq_dec d 0) as [->|Hd0]; [exact I|].
  destruct (number_of_Z_exact d ltac:(lia)) as [m1 [-> M1]].
  pose proof (Zdigits2_mono d m ltac:(lia) Hdm) as Hdig.
  pose proof (Zdigits2_pos d ltac:(lia)) as Hd1.
  pose proof (Zdigits2_upper m 53 ltac:(lia) ltac:(lia) ltac:(lia)) as Hd2.
  set (e1 := Zdigits2 d - 53) in *. set (e2 := Zdigits2 m - 53) in *.
  cbn [SFdiv xorb]. unfold SFdiv_core_binary.
  set (e' := Z.min _ (e1 - e2)).
  assert (E' : e' <= e1 - e2) by (unfold e'; lia).
  assert (M' : match e1 - e2 - e' with
               | 0 => Z.pos m1
               | Z.pos _ => Z.shiftl (Z.pos m1) (e1 - e2 - e')
               | Z.neg _ => 0
               end = Z.pos m1 * 2 ^ (e1 - e2 - e')).
  { destruct (e1 - e2 - e') as [|s|s] eqn:Es; try lia.
    rewrite Z.shiftl_mul_pow2; lia. }
  rewrite M'. clear M'.
  pose proof (Z_div_mod (Z.pos m1 * 2 ^ (e1 - e2 - e')) (Z.pos m2) ltac:(lia)) as DM.
  destruct (Z.div_eucl _ (Z.pos m2)) as [q r]. destruct DM as [DM Hr].
  assert (P1 : 0 < 2 ^ (e1 - e2 - e')) by (apply Z.pow_pos_nonneg; lia).
  assert (P2 : 0 < 2 ^ (- e')) by (apply Z.pow_pos_nonneg; lia).
  assert (Le : Z.pos m1 * 2 ^ (e1 - e2 - e') <= Z.pos m2 * 2 ^ (- e')).
  { rewrite M1, M2.
    replace (53 - Zdigits2 d) with (- e1) by (unfold e1; lia).
    replace (53 - Zdigits2 m) with (- e2) by (unfold e2; lia).
    rewrite <- !Z.mul_assoc, <- !Z.pow_add_r by lia.
    replace (- e1 + (e1 - e2 - e')) with (- e2 + - e') by lia.
    apply Z.mul_le_mono_nonneg_r; [|assumption].
    apply Z.pow_nonneg. lia. }
  apply binary_round_aux_within; try lia.
  - nia.
  - unfold at_most. rewrite Z.mul_1_l.
    destruct (Z.lt_trichotomy q (2 ^ (- e'))) as [Hq|[Hq|Hq]]; [now left| |nia].
    right. split; [assumption|]. replace r with 0 by nia. apply new_location_0.
Qed.

Lemma number_of_Z_1 : JS.number_of_Z 1 = S754_finite false 4503599627370496 (-52).
Proof. reflexivity. Qed.

Lemma number_of_Z_100 : JS.number_of_Z 100 = S754_finite false 7036874417766400 (-46).
Proof. reflexivity. Qed.

Lemma number_sub_within q :
  within 1 q -> within 1 (JS.number_sub (JS.number_of_Z 1) q).
Proof.
  unfold JS.number_sub. rewrite number_of_Z_1. destruct q as [s| | |s mq eq]; cbn [within]; try tauto.
  - intros _. cbn. repeat split; lia.
  - intros [-> [He Hq]]. cbn [SFsub cond_Zopp].
    destruct (shl_align_spec 4503599627370496 (-52) (Z.min (-52) eq)) as [_ ->].
    destruct (shl_align_spec mq eq (Z.min (-52) eq)) as [_ ->].
    set (ez := Z.min (-52) eq).
    replace (Z.min (-52) ez) with ez by (unfold ez; lia).
    replace (Z.min eq ez) with ez by (unfold ez; lia).
    assert (Ez : ez <= -52 /\ ez <= eq) by (unfold ez; lia).
    assert (A : 4503599627370496 * 2 ^ (-52 - ez) = 2 ^ (- ez)).
    { change 4503599627370496 with (2 ^ 52). rewrite <- Z.pow_add_r by lia.
      f_equal. lia. }
    assert (B : Z.pos mq * 2 ^ (eq - ez) <= 2 ^ (- ez)).
    { replace (- ez) with (- eq + (eq - ez)) by lia. rewrite Z.pow_add_r by lia.
      apply Z.mul_le_mono_nonneg_r; [apply Z.pow_nonneg|]; lia. }
    assert (C : 0 < Z.pos mq * 2 ^ (eq - ez)).
    { apply Z.mul_pos_pos; [lia|apply Z.pow_pos_nonneg; lia]. }
    rewrite A. clear A.
    destruct (2 ^ (- ez) - Z.pos mq * 2 ^ (eq - ez)) as [|pm|pm] eqn:Em;
      cbn [binary_normalize within]; [exact I| |lia].
    unfold binary_round.
    destruct (shl_align_spec pm ez (fexp JS.prec JS.emax (Z.pos (digits2_pos pm) + ez)))
      as [Se Sm].
    destruct (shl_align pm ez _) as [mz ez']. cbn [fst snd] in *.
    assert (Ez' : ez' <= ez) by lia.
    apply binary_round_aux_within; try lia.
    left. rewrite Z.mul_1_l, Sm, <- Se.
    replace (- ez') with (- ez + (ez - ez')) by lia. rewrite Z.pow_add_r by lia.
    apply Z.mul_lt_mono_pos_r; [apply Z.pow_pos_nonneg|]; lia.
Qed.

Lemma at_most_exact b m e : m <= b * 2 ^ (- e) -> at_most b m e loc_Exact.
Proof.
  intro H. destruct (Z.eq_dec m (b * 2 ^ (- e))); [now right|left; lia].
Qed.

Lemma number_mul_within s :
  within 1 s -> within 100 (JS.number_mul s (JS.number_of_Z 100)).
Proof.
  unfold JS.number_mul. rewrite number_of_Z_100. destruct s as [b| | |b ms es]; cbn [within]; try tauto.
  intros [-> [He Hs]]. cbn [SFmul xorb].
  apply binary_round_aux_within; try lia.
  apply at_most_exact.
  replace (- (es + -46)) with (- es + 46) by lia. rewrite Z.pow_add_r by lia.
  rewrite Pos2Z.inj_mul. change (2 ^ 46) with 70368744177664.
  assert (0 < 2 ^ (- es)) by (apply Z.pow_pos_nonneg; lia). nia.
Qed.

(** *** Rounding to an integer *)

Lemma number_value_within b x :
  0 <= b -> within b x -> (0 <= JS.number_value x <= inject_Z b)%Q.
Proof.
  intros Hb. destruct x as [s| | |s m e]; cbn [within JS.number_value]; try tauto.
  - intros _. split; [apply Qle_refl|]. change 0%Q with (inject_Z 0).
    now rewrite <- Zle_Qle.
  - intros [-> [He Hm]].
    assert (P : 0 < 2 ^ (- e)) by (apply Z.pow_pos_nonneg; lia).
    assert (E : (2 ^ e == / inject_Z (2 ^ (- e)))%Q).
    { rewrite Zpower_Qpower by lia. rewrite <- Qpower_opp.
      now rewrite Z.opp_involutive. }
    rewrite E.
    assert (Q0 : (0 < inject_Z (2 ^ (- e)))%Q).
    { change 0%Q with (inject_Z 0). now rewrite <- Zlt_Qlt. }
    split.
    + apply Qle_shift_div_l; [assumption|]. rewrite Qmult_0_l.
      change 0%Q with (inject_Z 0). rewrite <- Zle_Qle. lia.
    + apply Qle_shift_div_r; [assumption|].
      rewrite <- inject_Z_mult, <- Zle_Qle. exact Hm.
Qed.

(** The percentage of a distance that is at most the greater length. *)
Lemma percentage_range d m :
  0 <= d <= m -> 0 < m < 2 ^ 53 ->
  within 100
    (JS.number_mul
       (JS.number_sub (JS.number_of_Z 1)
          (JS.number_div (JS.number_of_Z d) (JS.number_of_Z m)))
       (JS.number_of_Z 100)).
Proof.
  intros Hd Hm. now apply number_mul_within, number_sub_within, number_div_within.
Qed.

Lemma Math_round_number_range x :
  within 100 x -> 0 <= JS.Math_round_number x <= 100.
Proof.
  intro H. apply (number_value_within 100) in H; [|lia].
  apply Math_round_range; tauto.
Qed.

End Binary64.

(** On the scores that [findSimilarity] weighs, the exact weighted sum
    rounds to the integer that the binary64 computation rounds to. *)
Lemma weightedScore_binary64_agrees (domainScore pathScore titleScore : Z) :
  (domainScore = 0 \/ domainScore = 100)%Z ->
  (0 <= pathScore <= 100)%Z -> (0 <= titleScore <= 100)%Z ->
  weightedScore_exact domainScore pathScore titleScore
  = weightedScore_binary64 domainScore pathScore titleScore.
Proof.
  intros Hd Hp Ht.
  assert (A : forallb (fun ps =>
                forallb (fun ts =>
                  (weightedScore_exact 0 ps ts =? weightedScore_binary64 0 ps ts)%Z
                  && (weightedScore_exact 100 ps ts
                      =? weightedScore_binary64 100 ps ts)%Z) scores) scores
              = true) by (vm_compute; reflexivity).
  assert (S : forall x, (0 <= x <= 100)%Z -> In x scores).
  { intros x Hx. unfold scores. apply in_map_iff. exists (Z.to_nat x).
    split; [lia|]. apply in_seq. lia. }
  rewrite forallb_forall in A. specialize (A _ (S _ Hp)).
  rewrite forallb_forall in A. specialize (A _ (S _ Ht)).
  apply andb_prop in A. destruct A as [A0 A100].
  destruct Hd as [->| ->]; now apply Z.eqb_eq.
Qed.

Lemma stringSimilarity_range str1 str2 :
  js_string str1 -> js_string str2 ->
  (0 <= Lib.stringSimilarity str1 str2 <= 100)%Z.
Proof.
  intros J1 J2. unfold Lib.stringSimilarity.
  destruct (str1 =? str2)%string; [lia|].
  destruct (negb (JS.truthy str1) || negb (JS.truthy str2)) eqn:E; [lia|].
  apply orb_false_elim in E. destruct E as [E1 _].
  assert (Hlen : 0 < String.length str1).
  { destruct str1; [discriminate E1|cbn; lia]. }
  destruct (levenshteinDistance_bounds str1 str2) as [Hd _].
  cbv zeta. unfold js_string in *.
  apply Math_round_number_range, percentage_range; lia.
Qed.

(** X4.  The similarity of two strings is a percentage: it lies between 0
    and 100, for all strings whose lengths are below [2 ^ 53], which is
    every string of the platform. *)
Theorem X4_stringSimilarity_range (str1 str2 : string) :
  js_string str1 -> js_string str2 ->
  (0 <= Lib.stringSimilarity str1 str2 <= 100)%Z.
Proof. apply stringSimilarity_range. Qed.

(** X4 on two strings of length 40 at distance 17, where the percentage is
    57 although [(1 - 17/40) * 100] is 57.5. *)
Lemma X4_stringSimilarity_range_witness :
  Lib.stringSimilarity "aaaaaaaaaaaaaaaaaaaaaaaaaaaaaaaaaaaaaaaa"
                       "bbbbbbbbbbbbbbbbbaaaaaaaaaaaaaaaaaaaaaaa" = 57%Z
  /\ (0 <= Lib.stringSimilarity "aaaaaaaaaaaaaaaaaaaaaaaaaaaaaaaaaaaaaaaa"
                                "bbbbbbbbbbbbbbbbbaaaaaaaaaaaaaaaaaaaaaaa" <= 100)%Z.
Proof.
  split; [vm_compute; reflexivity|].
  apply (X4_stringSimilarity_range "aaaaaaaaaaaaaaaaaaaaaaaaaaaaaaaaaaaaaaaa"
                                   "bbbbbbbbbbbbbbbbbaaaaaaaaaaaaaaaaaaaaaaa");
    vm_compute; reflexivity.
Defined.

(** ** The verdict of the classifier *)

Lemma weighted_range (ds ps ts : Z) :
  (0 <= ds <= 100)%Z -> (0 <= ps <= 100)%Z -> (0 <= ts <= 100)%Z ->
  (0 <= JS.Math_round (inject_Z ds * (4 # 10) + inject_Z ps * (4 # 10)
                       + inject_Z ts * (2 # 10)) <= 100)%Z.
Proof.
  intros [D0 D1] [P0 P1] [T0 T1].
  rewrite Zle_Qle in D0, D1, P0, P1, T0, T1. cbn [inject_Z] in *.
  apply Math_round_range.
  - change 0%Q with (inject_Z 0) in *. lra.
  - change 100%Q with (inject_Z 100) in *. lra.
Qed.

Lemma titleScore_range (t1 t2 : option string) :
  js_string (match t1 with Some s => s | None => EmptyString end) ->
  js_string (match t2 with Some s => s | None => EmptyString end) ->
  (0 <= match t1, t2 with
        | Some a, Some b =>
            if JS.truthy a && JS.truthy b then Lib.stringSimilarity a b else 0
        | _, _ => 0
        end <= 100)%Z.
Proof.
  intros J1 J2. destruct t1 as [a|], t2 as [b|]; try lia.
  destruct (JS.truthy a && JS.truthy b); [now apply stringSimilarity_range|lia].
Qed.

(** The two computed scores of [findSimilarity] made opaque, and every test
    of the function decided. *)
Ltac verdict_cases new_URL t1 t2 :=
  unfold Lib.findSimilarity;
  destruct (Lib.parseUrl new_URL (url t1)) as [u1|],
           (Lib.parseUrl new_URL (url t2)) as [u2|];
  cbv zeta;
  [ set (ps := Lib.stringSimilarity (pathname u1) (pathname u2)) in *;
    match goal with
    | |- context [JS.Math_round ?q] =>
        set (ws := JS.Math_round q) in *; clearbody ws
    end;
    clearbody ps;
    repeat match goal with
           | |- context [if ?c then _ else _] => destruct c eqn:?
           end
  | | | ].

(** The same with the ranges of the two scores, for tabs whose strings are
    strings of the platform ([M1] and [M2]). *)
Ltac verdict_cases_in_range new_URL t1 t2 M1 M2 :=
  unfold Lib.findSimilarity;
  destruct M1 as [P1 T1], M2 as [P2 T2];
  destruct (Lib.parseUrl new_URL (url t1)) as [u1|],
           (Lib.parseUrl new_URL (url t2)) as [u2|];
  cbv zeta;
  [ cbn [pathname_of] in P1, P2;
    pose proof (stringSimilarity_range _ _ P1 P2) as Hps;
    pose proof (titleScore_range _ _ T1 T2) as Hts;
    set (ps := Lib.stringSimilarity (pathname u1) (pathname u2)) in *;
    match goal with
    | |- context [JS.Math_round ?q] =>
        let Hws := fresh "Hws" in
        assert (Hws : (0 <= JS.Math_round q <= 100)%Z)
          by (apply weighted_range;
              [destruct (_ =? _)%string; lia | exact Hps | exact Hts]);
        set (ws := JS.Math_round q) in *; clearbody ws
    end;
    clearbody ps;
    repeat match goal with
           | |- context [if ?c then _ else _] => destruct c eqn:?
           end
  | | | ].

Section Verdict.

Variable new_URL : string -> option URL.

Lemma findSimilarity_score_range t1 t2 threshold :
  measurable new_URL t1 -> measurable new_URL t2 ->
  (0 <= score (Lib.findSimilarity new_URL t1 t2 threshold) <= 100)%Z.
Proof.
  intros M1 M2. verdict_cases_in_range new_URL t1 t2 M1 M2; cbn; lia.
Qed.

Lemma findSimilarity_verdict_shape t1 t2 threshold :
  let v := Lib.findSimilarity new_URL t1 t2 threshold in
  (similar v = true /\ reason v <> None
   /\ (score v = 85 \/ score v = 90 \/ score v = 95 \/ threshold <= score v)%Z)
  \/ (similar v = false /\ reason v = None
      /\ (score v = 0 \/ score v < threshold)%Z).
Proof.
  cbv zeta. verdict_cases new_URL t1 t2; cbn;
    repeat match goal with
           | H : (_ && _) = true |- _ => apply andb_prop in H; destruct H
           | H : (_ <=? _)%Z = true |- _ => apply Z.leb_le in H
           | H : (_ <=? _)%Z = false |- _ => apply Z.leb_gt in H
           end;
    first [ left; repeat split; try discriminate; lia
          | right; repeat split; lia ].
Qed.

End Verdict.

(** X5.  The score of the verdict lies between 0 and 100, whatever the
    threshold, for tabs whose paths and titles are strings of the platform
    (shorter than [2 ^ 53]). *)
Theorem X5_findSimilarity_score_range
  (new_URL : string -> option URL) (t1 t2 : TabRecord) (threshold : Z) :
  measurable new_URL t1 -> measurable new_URL t2 ->
  (0 <= score (Lib.findSimilarity new_URL t1 t2 threshold) <= 100)%Z.
Proof. apply findSimilarity_score_range. Qed.

(** X5 on two pages of one site with titles, which get the weighted
    score. *)
Lemma X5_findSimilarity_score_range_witness :
  score (Lib.findSimilarity URL_parse
           (mkTab 1 "https://a.com/news/today" (Some "Today in the news"))
           (mkTab 2 "https://a.com/sport/results" (Some "Results of the day")) 80)
  = 51%Z
  /\ (0 <= score (Lib.findSimilarity URL_parse
                    (mkTab 1 "https://a.com/news/today" (Some "Today in the news"))
                    (mkTab 2 "https://a.com/sport/results" (Some "Results of the day"))
                    80) <= 100)%Z.
Proof.
  split; [vm_compute; reflexivity|].
  apply (X5_findSimilarity_score_range URL_parse
           (mkTab 1 "https://a.com/news/today" (Some "Today in the news"))
           (mkTab 2 "https://a.com/sport/results" (Some "Results of the day")) 80);
    split; vm_compute; reflexivity.
Defined.

(** X6.  A verdict is of one of two shapes.  Similar: it has a reason, and
    its score is one of the fixed 85, 90, 95 of the rules that do not read
    the threshold, or at least the threshold.  Not similar: it has no
    reason, and its score is 0 or below the threshold. *)
Theorem X6_findSimilarity_verdict_shape
  (new_URL : string -> option URL) (t1 t2 : TabRecord) (threshold : Z) :
  (similar (Lib.findSimilarity new_URL t1 t2 threshold) = true
   /\ reason (Lib.findSimilarity new_URL t1 t2 threshold) <> None
   /\ (score (Lib.findSimilarity new_URL t1 t2 threshold) = 85
       \/ score (Lib.findSimilarity new_URL t1 t2 threshold) = 90
       \/ score (Lib.findSimilarity new_URL t1 t2 threshold) = 95
       \/ threshold <= score (Lib.findSimilarity new_URL t1 t2 threshold))%Z)
  \/ (similar (Lib.findSimilarity new_URL t1 t2 threshold) = false
      /\ reason (Lib.findSimilarity new_URL t1 t2 threshold) = None
      /\ (score (Lib.findSimilarity new_URL t1 t2 threshold) = 0
          \/ score (Lib.findSimilarity new_URL t1 t2 threshold) < threshold)%Z).
Proof. apply (findSimilarity_verdict_shape new_URL t1 t2 threshold). Qed.

(** ** What [parseUrl] returns *)

Lemma list_ascii_of_string_app s1 s2 :
  list_ascii_of_string (s1 +++ s2)
  = list_ascii_of_string s1 ++ list_ascii_of_string s2.
Proof. induction s1 as [|c s1 IH]; cbn; [reflexivity|now rewrite IH]. Qed.

Lemma dropWhile_head {A} (f : A -> bool) l x l' :
  JS.dropWhile f l = x :: l' -> f x = false.
Proof.
  induction l as [|y l IH]; cbn; [discriminate|].
  destruct (f y) eqn:E; [exact IH|]. intro H. inversion H. now subst.
Qed.

Lemma strip_trailing_slashes_no_slash s t :
  JS.strip_trailing_slashes s <> t +++ "/".
Proof.
  unfold JS.strip_trailing_slashes. intro H.
  apply (f_equal list_ascii_of_string) in H.
  rewrite list_ascii_of_string_of_list_ascii, list_ascii_of_string_app in H.
  apply (f_equal (@rev ascii)) in H. rewrite rev_involutive, rev_app_distr in H.
  cbn in H. apply dropWhile_head in H. discriminate H.
Qed.

Lemma parseUrl_pathname_shape (new_URL : string -> option URL) u p :
  Lib.parseUrl new_URL u = Some p ->
  pathname p <> EmptyString
  /\ (pathname p = "/" \/ forall t, pathname p <> t +++ "/").
Proof.
  unfold Lib.parseUrl. destruct (new_URL u) as [r|]; [|discriminate].
  intro E. inversion E. cbn. unfold JS.or_default.
  destruct (String.eqb_spec (JS.strip_trailing_slashes (url_pathname r)) EmptyString)
    as [Hempty|Hempty].
  - split; [discriminate|now left].
  - split; [exact Hempty|right]. intro t. apply strip_trailing_slashes_no_slash.
Qed.

Lemma lower_ascii_idempotent c : JS.lower_ascii (JS.lower_ascii c) = JS.lower_ascii c.
Proof.
  destruct c as [[] [] [] [] [] [] [] []]; vm_compute; reflexivity.
Qed.

Lemma toLowerCase_idempotent s : JS.toLowerCase (JS.toLowerCase s) = JS.toLowerCase s.
Proof.
  induction s as [|c s IH]; cbn; [reflexivity|].
  now rewrite lower_ascii_idempotent, IH.
Qed.

(** X7.  The [pathname] of a parsed URL is never empty and never ends in a
    slash, except that the root is the single slash. *)
Theorem X7_parseUrl_pathname_shape
  (new_URL : string -> option URL) (u : string) (p : ParsedUrl) :
  Lib.parseUrl new_URL u = Some p ->
  pathname p <> EmptyString
  /\ (pathname p = "/" \/ forall t, pathname p <> t +++ "/").
Proof. apply parseUrl_pathname_shape. Qed.

(** X7 on a URL with slashes at the end of its path. *)
Lemma X7_parseUrl_pathname_shape_witness :
  pathname_of (Lib.parseUrl URL_parse "https://a.com/x/y///?q=1") = "/x/y"
  /\ ("/x/y" <> EmptyString
      /\ ("/x/y" = "/" \/ forall t, "/x/y" <> t +++ "/")).
Proof.
  split; [reflexivity|].
  exact (X7_parseUrl_pathname_shape URL_parse "https://a.com/x/y///?q=1" _ eq_refl).
Defined.

Lemma lower_ascii_no_capital c : is_capital (JS.lower_ascii c) = false.
Proof.
  destruct c as [[] [] [] [] [] [] [] []]; vm_compute; reflexivity.
Qed.

Lemma toLowerCase_no_capital s :
  Forall (fun c => is_capital c = false) (list_ascii_of_string (JS.toLowerCase s)).
Proof.
  induction s as [|c s IH]; cbn; constructor; [apply lower_ascii_no_capital|exact IH].
Qed.

(** X8.  The [hostname] of a parsed URL holds no capital letter, whatever
    host the constructor returned. *)
Theorem X8_parseUrl_hostname_lowercase
  (new_URL : string -> option URL) (u : string) (p : ParsedUrl) :
  Lib.parseUrl new_URL u = Some p ->
  Forall (fun c => is_capital c = false) (list_ascii_of_string (hostname p)).
Proof.
  unfold Lib.parseUrl. destruct (new_URL u) as [r|]; [|discriminate].
  intro E. inversion E. cbn. apply toLowerCase_no_capital.
Qed.

(** X8 with a constructor that returns a host written with capitals. *)
Lemma X8_parseUrl_hostname_lowercase_witness :
  option_map hostname (Lib.parseUrl URL_capitals "foo://WWW.Example.COM/a")
  = Some "www.example.com"
  /\ Forall (fun c => is_capital c = false) (list_ascii_of_string "www.example.com").
Proof.
  split; [reflexivity|].
  exact (X8_parseUrl_hostname_lowercase URL_capitals "foo://WWW.Example.COM/a" _ eq_refl).
Defined.

(** ** Lookup in the objects the engine builds *)

Lemma obj_get_app k l1 l2 :
  JS.obj_get k (l1 ++ l2)
  = match JS.obj_get k l1 with Some v => Some v | None => JS.obj_get k l2 end.
Proof.
  induction l1 as [|[k0 v0] l1 IH]; cbn; [reflexivity|].
  destruct (k0 =? k)%string; [reflexivity|exact IH].
Qed.

Lemma obj_get_replace k k' v o :
  JS.obj_get k' o <> None ->
  JS.obj_get k (JS.obj_replace k' v o)
  = if (k' =? k)%string then Some v else JS.obj_get k o.
Proof.
  induction o as [|[k0 v0] o IH]; cbn; [congruence|].
  destruct (String.eqb_spec k0 k') as [->|Hne]; cbn.
  - intros _. destruct (k' =? k)%string; reflexivity.
  - intro H. rewrite (IH H).
    destruct (String.eqb_spec k0 k) as [->|Hk]; [|reflexivity].
    destruct (String.eqb_spec k' k) as [->|]; [contradiction|reflexivity].
Qed.

Lemma obj_get_insert_index k n k' v o :
  JS.obj_get k' o = None ->
  JS.obj_get k (JS.obj_insert_index n k' v o)
  = if (k' =? k)%string then Some v else JS.obj_get k o.
Proof.
  induction o as [|[k0 v0] o IH]; cbn; [reflexivity|].
  destruct (String.eqb_spec k0 k') as [->|Hne]; [discriminate|]. intro H.
  destruct (JS.array_index k0) as [n0|]; [|reflexivity].
  destruct (n0 <? n)%N; [|reflexivity]. cbn. rewrite (IH H).
  destruct (String.eqb_spec k0 k) as [->|Hk]; [|reflexivity].
  destruct (String.eqb_spec k' k) as [->|]; [contradiction|reflexivity].
Qed.

Lemma obj_get_set k k' v o :
  JS.obj_get k (JS.obj_set k' v o)
  = if (k' =? k)%string then Some v else JS.obj_get k o.
Proof.
  unfold JS.obj_set, JS.obj_has.
  destruct (JS.obj_get k' o) as [v'|] eqn:E.
  - apply obj_get_replace. congruence.
  - destruct (JS.array_index k') as [n|].
    + now apply obj_get_insert_index.
    + rewrite obj_get_app. cbn.
      destruct (String.eqb_spec k' k) as [->|Hne].
      * now rewrite E.
      * now destruct (JS.obj_get k o).
Qed.

Lemma obj_get_fold_set k : forall es o,
  JS.obj_get k (fold_left (fun o kv => JS.obj_set (fst kv) (snd kv) o) es o)
  = match JS.obj_get k (rev es) with
    | Some v => Some v
    | None => JS.obj_get k o
    end.
Proof.
  induction es as [|[k0 v0] es IH]; intro o; cbn [fold_left rev].
  - reflexivity.
  - rewrite IH, obj_get_app, obj_get_set. cbn.
    destruct (JS.obj_get k (rev es)); [reflexivity|].
    now destruct (k0 =? k)%string.
Qed.

Lemma Object_fromEntries_get k es :
  JS.obj_get k (JS.Object_fromEntries es) = JS.obj_get k (rev es).
Proof.
  unfold JS.Object_fromEntries. rewrite obj_get_fold_set.
  now destruct (JS.obj_get k (rev es)).
Qed.

(** X9.  In the [params] of a parsed URL every name occurs once, and a name
    given several times in the query keeps the value of its last
    occurrence. *)
Theorem X9_parseUrl_params_last_value
  (new_URL : string -> option URL) (u : string) (r : URL) (p : ParsedUrl)
  (k : string) :
  new_URL u = Some r ->
  Lib.parseUrl new_URL u = Some p ->
  JS.obj_get k (params p) = JS.obj_get k (rev (url_searchParams r))
  /\ NoDup (JS.Object_keys (params p)).
Proof.
  intros Hr Hp. split.
  - unfold Lib.parseUrl in Hp. rewrite Hr in Hp. inversion Hp. cbn.
    apply Object_fromEntries_get.
  - exact (parseUrl_params_NoDup new_URL u p Hp).
Qed.

(** X9 on a query that gives [b] twice. *)
Lemma X9_parseUrl_params_last_value_witness :
  JS.obj_get "b" (params_of (Lib.parseUrl URL_parse "https://a.com/p?b=1&a=2&b=3"))
  = Some "3"
  /\ NoDup (JS.Object_keys
              (params_of (Lib.parseUrl URL_parse "https://a.com/p?b=1&a=2&b=3"))).
Proof.
  exact (X9_parseUrl_params_last_value URL_parse "https://a.com/p?b=1&a=2&b=3"
           _ _ "b" eq_refl eq_refl).
Defined.

(** ** Exact duplicates and the order of the query *)

Lemma obj_get_NoDup_In k v l :
  NoDup (map fst l) -> In (k, v) l -> JS.obj_get k l = Some v.
Proof.
  induction l as [|[k0 v0] l IH]; cbn; intros Hnd Hin; [destruct Hin|].
  inversion Hnd as [|? ? Hn Hd]; subst.
  destruct Hin as [E|Hin].
  - inversion E; subst. now rewrite String.eqb_refl.
  - destruct (String.eqb_spec k0 k) as [->|Hne]; [|now apply IH].
    exfalso. apply Hn. apply in_map_iff. now exists (k, v).
Qed.

Lemma Object_fromEntries_In_keys k es :
  In k (map fst (JS.Object_fromEntries es)) <-> In k (map fst es).
Proof.
  rewrite <- (obj_get_keys k (JS.Object_fromEntries es)).
  rewrite Object_fromEntries_get, obj_get_keys, map_rev.
  symmetry. apply in_rev.
Qed.

Lemma Object_fromEntries_length es :
  NoDup (map fst es) -> length (JS.Object_fromEntries es) = length es.
Proof.
  intro H. rewrite <- (length_map fst (JS.Object_fromEntries es)),
                   <- (length_map fst es).
  apply Permutation_length, NoDup_Permutation;
    [apply Object_fromEntries_NoDup|exact H|].
  intro k. apply Object_fromEntries_In_keys.
Qed.

Lemma Object_fromEntries_same_mapping es1 es2 :
  Permutation es1 es2 -> NoDup (map fst es1) ->
  same_mapping (JS.Object_fromEntries es1) (JS.Object_fromEntries es2) = true.
Proof.
  intros Hperm Hnd1.
  assert (Hnd2 : NoDup (map fst es2)).
  { eapply Permutation_NoDup; [apply Permutation_map, Hperm|exact Hnd1]. }
  unfold same_mapping. apply andb_true_intro. split.
  - apply Nat.eqb_eq. rewrite !Object_fromEntries_length by assumption.
    now apply Permutation_length.
  - apply forallb_forall. intros [k v] Hin. cbn.
    apply (obj_get_NoDup_In k v _ (Object_fromEntries_NoDup es1)) in Hin.
    rewrite Object_fromEntries_get in Hin. apply obj_get_In in Hin.
    apply in_rev in Hin. apply (Permutation_in _ Hperm) in Hin.
    rewrite Object_fromEntries_get.
    rewrite (obj_get_NoDup_In k v (rev es2)).
    + apply String.eqb_refl.
    + rewrite map_rev. eapply Permutation_NoDup; [apply Permutation_rev|exact Hnd2].
    + now apply in_rev in Hin.
Qed.

(** X10.  Two URLs are exact duplicates whenever they have the same scheme
    and port, hosts equal up to case and one leading [www.], paths equal up
    to slashes at the end, and the same query parameters with distinct
    names in any order; the fragments play no part. *)
Theorem X10_isExactDuplicate_up_to_cosmetics
  (new_URL : string -> option URL) (u1 u2 : string) (r1 r2 : URL) :
  new_URL u1 = Some r1 ->
  new_URL u2 = Some r2 ->
  url_protocol r1 = url_protocol r2 ->
  url_port r1 = url_port r2 ->
  JS.strip_www (JS.toLowerCase (url_hostname r1))
  = JS.strip_www (JS.toLowerCase (url_hostname r2)) ->
  JS.strip_trailing_slashes (url_pathname r1)
  = JS.strip_trailing_slashes (url_pathname r2) ->
  Permutation (url_searchParams r1) (url_searchParams r2) ->
  NoDup (map fst (url_searchParams r1)) ->
  Lib.isExactDuplicate new_URL u1 u2 = true.
Proof.
  intros H1 H2 Hproto Hport Hhost Hpath Hperm Hnd.
  unfold Lib.isExactDuplicate. apply String.eqb_eq.
  unfold Lib.normalizeUrl, Lib.parseUrl. rewrite H1, H2. cbv zeta.
  cbn [protocol hostname port pathname params].
  rewrite Hproto, Hport, Hhost, Hpath.
  rewrite (sorted_query_same_mapping _ _ (Object_fromEntries_NoDup _)
             (Object_fromEntries_same_mapping _ _ Hperm Hnd)).
  reflexivity.
Qed.

(** X10 on two spellings of one page. *)
Lemma X10_isExactDuplicate_up_to_cosmetics_witness :
  Lib.isExactDuplicate URL_parse
    "https://WWW.Example.com/a/?x=1&y=2#top" "https://example.com/a?y=2&x=1" = true.
Proof.
  refine (X10_isExactDuplicate_up_to_cosmetics URL_parse
            "https://WWW.Example.com/a/?x=1&y=2#top" "https://example.com/a?y=2&x=1"
            _ _ eq_refl eq_refl eq_refl eq_refl eq_refl eq_refl _ _).
  - apply perm_swap.
  - cbn. repeat constructor; cbn; intuition discriminate.
Defined.

Lemma prefix_append s t : String.prefix s (s +++ t) = true.
Proof.
  induction s as [|c s IH]; cbn.
  - now destruct t.
  - destruct (Ascii.ascii_dec c c); [exact IH|contradiction].
Qed.

Lemma append_assoc s1 s2 s3 : (s1 +++ s2) +++ s3 = s1 +++ s2 +++ s3.
Proof. induction s1 as [|c s1 IH]; cbn; [reflexivity|now rewrite IH]. Qed.

Lemma append_nil_r s : s +++ EmptyString = s.
Proof. induction s as [|c s IH]; cbn; [reflexivity|now rewrite IH]. Qed.

(** X11.  The base form of a URL is the beginning of its full normalized
    form: the full form only adds the query. *)
Theorem X11_normalizeUrlBase_prefix (new_URL : string -> option URL) (u : string) :
  String.prefix (Lib.normalizeUrlBase new_URL u) (Lib.normalizeUrl new_URL u) = true.
Proof.
  unfold Lib.normalizeUrlBase, Lib.normalizeUrl.
  destruct (Lib.parseUrl new_URL u) as [p|].
  - cbv zeta. rewrite <- !append_assoc. apply prefix_append.
  - rewrite <- (append_nil_r u) at 2. apply prefix_append.
Qed.

(** ** The document id of a Google Workspace URL *)

Lemma substring_0_length s : String.substring 0 (String.length s) s = s.
Proof. induction s as [|c s IH]; cbn; [reflexivity|now rewrite IH]. Qed.

Lemma prefix_split p : forall s,
  String.prefix p s = true ->
  s = p +++ String.substring (String.length p) (String.length s - String.length p) s.
Proof.
  induction p as [|a p IH]; intros s H.
  - cbn. rewrite Nat.sub_0_r. symmetry. apply substring_0_length.
  - destruct s as [|b s]; [discriminate H|]. cbn in H.
    destruct (Ascii.ascii_dec a b) as [->|]; [|discriminate H].
    cbn. f_equal. now apply IH.
Qed.

Lemma takeWhile_split {A} (f : A -> bool) l :
  exists l', l = JS.takeWhile f l ++ l'.
Proof.
  induction l as [|x l [l' IH]]; cbn.
  - now exists [].
  - destruct (f x).
    + exists l'. cbn. now rewrite <- IH.
    + now exists (x :: l).
Qed.

Lemma takeWhile_Forall {A} (f : A -> bool) l :
  Forall (fun x => f x = true) (JS.takeWhile f l).
Proof.
  induction l as [|x l IH]; cbn; [constructor|].
  destruct (f x) eqn:E; [now constructor|constructor].
Qed.

Lemma string_of_list_ascii_app l1 l2 :
  string_of_list_ascii (l1 ++ l2) = string_of_list_ascii l1 +++ string_of_list_ascii l2.
Proof. induction l1 as [|c l1 IH]; cbn; [reflexivity|now rewrite IH]. Qed.

Lemma match_prefix_segment_spec prefix s seg :
  match_prefix_segment prefix s = Some seg ->
  String.prefix (prefix +++ seg) s = true
  /\ seg <> EmptyString
  /\ Forall (fun c => c <> "/"%char) (list_ascii_of_string seg).
Proof.
  unfold match_prefix_segment.
  destruct (String.prefix prefix s) eqn:Hp; [|discriminate].
  cbv zeta. set (rest := list_ascii_of_string _).
  destruct (JS.takeWhile (fun c => negb (JS.is_slash c)) rest) as [|c l] eqn:E;
    [discriminate|].
  intro H. inversion H as [Hseg]. clear H Hseg.
  change (String c (string_of_list_ascii l)) with (string_of_list_ascii (c :: l)).
  rewrite <- E. split; [|split].
  - destruct (takeWhile_split (fun c => negb (JS.is_slash c)) rest) as [l' Hl'].
    assert (Hs : s = (prefix +++ string_of_list_ascii
                                   (JS.takeWhile (fun c => negb (JS.is_slash c)) rest))
                     +++ string_of_list_ascii l').
    { rewrite append_assoc, <- string_of_list_ascii_app, <- Hl'. unfold rest.
      rewrite string_of_list_ascii_of_string. now apply prefix_split. }
    pose proof (prefix_append
                  (prefix +++ string_of_list_ascii
                                (JS.takeWhile (fun c => negb (JS.is_slash c)) rest))
                  (string_of_list_ascii l')) as P.
    rewrite <- Hs in P. exact P.
  - rewrite E. discriminate.
  - rewrite list_ascii_of_string_of_list_ascii.
    eapply Forall_impl; [|apply takeWhile_Forall].
    intros a Ha. unfold JS.is_slash in Ha. apply negb_true_iff in Ha.
    now apply Ascii.eqb_neq in Ha.
Qed.

(** X12.  A document id found by [getGoogleDocId] is never empty, holds no
    slash, and sits in the text right behind the pattern of its type, one
    of the three of the table. *)
Theorem X12_getGoogleDocId_result (hostname0 pathname0 : string) (doc : GoogleDoc) :
  Lib.getGoogleDocId hostname0 pathname0 = Some doc ->
  docId doc <> EmptyString
  /\ Forall (fun c => c <> "/"%char) (list_ascii_of_string (docId doc))
  /\ exists pattern,
       In (pattern, type doc) Lib.GOOGLE_WORKSPACE_PATTERNS
       /\ String.prefix (pattern +++ docId doc) (hostname0 +++ pathname0) = true.
Proof.
  unfold Lib.getGoogleDocId. generalize (hostname0 +++ pathname0). intro s.
  assert (G : forall pats, Lib.first_pattern pats s = Some doc ->
            docId doc <> EmptyString
            /\ Forall (fun c => c <> "/"%char) (list_ascii_of_string (docId doc))
            /\ exists pattern, In (pattern, type doc) pats
                 /\ String.prefix (pattern +++ docId doc) s = true).
  { induction pats as [|[pattern ty] pats IH]; cbn; [discriminate|].
    destruct (match_prefix_segment pattern s) as [seg|] eqn:E.
    - intro H. inversion H. cbn.
      destruct (match_prefix_segment_spec _ _ _ E) as (Hp & Hne & Hns).
      split; [exact Hne|split; [exact Hns|]]. exists pattern. split; [now left|exact Hp].
    - intro H. destruct (IH H) as (Hne & Hns & pattern' & Hin & Hp).
      split; [exact Hne|split; [exact Hns|]]. exists pattern'. split; [now right|exact Hp]. }
  apply G.
Qed.

(** X12 on a spreadsheet URL. *)
Lemma X12_getGoogleDocId_result_witness :
  Lib.getGoogleDocId "docs.google.com" "/spreadsheets/d/1AbC/edit"
  = Some {| docId := "1AbC"; type := "sheet" |}
  /\ ("1AbC" <> EmptyString
      /\ Forall (fun c => c <> "/"%char) (list_ascii_of_string "1AbC")
      /\ exists pattern,
           In (pattern, "sheet") Lib.GOOGLE_WORKSPACE_PATTERNS
           /\ String.prefix (pattern +++ "1AbC")
                ("docs.google.com" +++ "/spreadsheets/d/1AbC/edit") = true).
Proof.
  split; [reflexivity|].
  exact (X12_getGoogleDocId_result "docs.google.com" "/spreadsheets/d/1AbC/edit"
           {| docId := "1AbC"; type := "sheet" |} eq_refl).
Defined.

(** ** Tracking parameters *)

Lemma getNonTrackingParams_fromEntries o :
  Lib.getNonTrackingParams o
  = JS.Object_fromEntries (filter (fun kv => kept_key (fst kv)) o).
Proof.
  unfold Lib.getNonTrackingParams, JS.Object_fromEntries, JS.Object_entries.
  generalize (@nil (string * string)) as acc.
  induction o as [|[k v] o IH]; intro acc; cbn [fold_left filter fst snd].
  - reflexivity.
  - rewrite IH. unfold kept_key, is_tracking, JS.obj_assign.
    destruct (JS.sset_has (JS.toLowerCase k) Lib.TRACKING_PARAMS); cbn [negb andb];
      [reflexivity|].
    destruct (k =? "__proto__")%string; reflexivity.
Qed.

Lemma obj_get_filter_key (f : string -> bool) k l :
  JS.obj_get k (filter (fun kv => f (fst kv)) l)
  = if f k then JS.obj_get k l else None.
Proof.
  induction l as [|[k0 v0] l IH]; cbn.
  - now destruct (f k).
  - destruct (f k0) eqn:E0; cbn; destruct (String.eqb_spec k0 k) as [->|Hne];
      rewrite ?E0; try exact IH; try reflexivity.
    rewrite IH, E0. reflexivity.
Qed.

Lemma obj_get_rev k l :
  NoDup (map fst l) -> JS.obj_get k (rev l) = JS.obj_get k l.
Proof.
  intro Hnd. destruct (JS.obj_get k l) as [v|] eqn:E.
  - apply obj_get_NoDup_In.
    + rewrite map_rev. eapply Permutation_NoDup; [apply Permutation_rev|exact Hnd].
    + apply in_rev. rewrite rev_involutive. now apply obj_get_In.
  - destruct (JS.obj_get k (rev l)) as [v|] eqn:E'; [|reflexivity].
    exfalso. assert (H : JS.obj_get k (rev l) <> None) by congruence.
    apply obj_get_keys in H. rewrite map_rev in H. apply in_rev in H.
    apply obj_get_keys in H. congruence.
Qed.

Lemma filter_obj_replace (f : string -> bool) k v o :
  f k = false ->
  filter (fun kv => f (fst kv)) (JS.obj_replace k v o)
  = filter (fun kv => f (fst kv)) o.
Proof.
  intro Hk. induction o as [|[k0 v0] o IH]; cbn; [reflexivity|].
  destruct (String.eqb_spec k0 k) as [->|Hne]; cbn.
  - now rewrite Hk.
  - now rewrite IH.
Qed.

Lemma filter_obj_insert_index (f : string -> bool) n k v o :
  f k = false ->
  filter (fun kv => f (fst kv)) (JS.obj_insert_index n k v o)
  = filter (fun kv => f (fst kv)) o.
Proof.
  intro Hk. induction o as [|[k0 v0] o IH]; cbn; [now rewrite Hk|].
  destruct (JS.array_index k0) as [n0|]; [|cbn; now rewrite Hk].
  destruct (n0 <? n)%N; cbn; [now rewrite IH|now rewrite Hk].
Qed.

Lemma filter_obj_set (f : string -> bool) k v o :
  f k = false ->
  filter (fun kv => f (fst kv)) (JS.obj_set k v o)
  = filter (fun kv => f (fst kv)) o.
Proof.
  intro Hk. unfold JS.obj_set. destruct (JS.obj_has k o).
  - now apply filter_obj_replace.
  - destruct (JS.array_index k).
    + now apply filter_obj_insert_index.
    + rewrite filter_app. cbn. rewrite Hk. apply app_nil_r.
Qed.

(** X13.  What [getNonTrackingParams] keeps: a key that is a tracking
    parameter, in any case of letters, is gone, as is the key [__proto__];
    every other key has the value it had. *)
Theorem X13_getNonTrackingParams_lookup (o : JS.obj) (k : string) :
  NoDup (JS.Object_keys o) ->
  JS.obj_get k (Lib.getNonTrackingParams o)
  = if JS.sset_has (JS.toLowerCase k) Lib.TRACKING_PARAMS
       || (k =? "__proto__")%string
    then None
    else JS.obj_get k o.
Proof.
  intro Hnd. rewrite getNonTrackingParams_fromEntries, Object_fromEntries_get.
  rewrite obj_get_rev by now apply NoDup_map_filter.
  rewrite obj_get_filter_key. unfold kept_key, is_tracking.
  destruct (JS.sset_has (JS.toLowerCase k) Lib.TRACKING_PARAMS); [reflexivity|].
  now destruct (k =? "__proto__")%string.
Qed.

(** X13 on an object with one tracking key written in capitals. *)
Lemma X13_getNonTrackingParams_lookup_witness :
  JS.obj_get "UTM_Source"
    (Lib.getNonTrackingParams [("id", "7"); ("UTM_Source", "mail")]) = None
  /\ JS.obj_get "id"
       (Lib.getNonTrackingParams [("id", "7"); ("UTM_Source", "mail")]) = Some "7".
Proof.
  assert (Hnd : NoDup (JS.Object_keys [("id", "7"); ("UTM_Source", "mail")])).
  { cbn. repeat constructor; cbn; intuition discriminate. }
  split.
  - exact (X13_getNonTrackingParams_lookup _ "UTM_Source" Hnd).
  - exact (X13_getNonTrackingParams_lookup _ "id" Hnd).
Defined.

(** X14.  Setting a tracking parameter on a query, new or already there,
    leaves the two queries different by tracking only. *)
Theorem X14_differsByTrackingOnly_set_tracking (o : JS.obj) (k v : string) :
  JS.sset_has (JS.toLowerCase k) Lib.TRACKING_PARAMS = true ->
  Lib.differsByTrackingOnly o (JS.obj_set k v o) = true
  /\ Lib.differsByTrackingOnly (JS.obj_set k v o) o = true.
Proof.
  intro Hk.
  assert (E : Lib.getNonTrackingParams (JS.obj_set k v o) = Lib.getNonTrackingParams o).
  { rewrite !getNonTrackingParams_fromEntries. f_equal. apply filter_obj_set.
    unfold kept_key, is_tracking. now rewrite Hk. }
  unfold Lib.differsByTrackingOnly. cbv zeta. rewrite E.
  split; apply String.eqb_refl.
Qed.

(** X14 with [fbclid] added to a query of two parameters. *)
Lemma X14_differsByTrackingOnly_set_tracking_witness :
  Lib.differsByTrackingOnly
    [("q", "shoes"); ("page", "2")]
    (JS.obj_set "fbclid" "abc" [("q", "shoes"); ("page", "2")]) = true
  /\ Lib.differsByTrackingOnly
       (JS.obj_set "fbclid" "abc" [("q", "shoes"); ("page", "2")])
       [("q", "shoes"); ("page", "2")] = true.
Proof.
  exact (X14_differsByTrackingOnly_set_tracking
           [("q", "shoes"); ("page", "2")] "fbclid" "abc" eq_refl).
Defined.

(** ** The result of the analyzer *)

Lemma insert_pair_sorted x l :
  StronglySorted score_desc l -> StronglySorted score_desc (insert_pair x l).
Proof.
  induction l as [|y l IH]; cbn; intro H.
  - repeat constructor.
  - apply StronglySorted_inv in H. destruct H as [Hs Hy].
    destruct (Z.ltb_spec (pair_score x) (pair_score y)) as [Hlt|Hge].
    + constructor; [now apply IH|].
      rewrite Forall_forall in *. intros z Hz.
      apply (Permutation_in _ (insert_pair_perm x l)) in Hz.
      destruct Hz as [<-|Hz]; [unfold score_desc; lia|now apply Hy].
    + constructor; [now constructor|].
      constructor; [exact Hge|].
      rewrite Forall_forall in *. intros z Hz. specialize (Hy z Hz).
      unfold score_desc in *. lia.
Qed.

Lemma sort_pairs_sorted l : StronglySorted score_desc (sort_pairs l).
Proof.
  induction l as [|x l IH]; cbn; [constructor|now apply insert_pair_sorted].
Qed.

Lemma firstn_In {A} (x : A) : forall n l, In x (firstn n l) -> In x l.
Proof.
  induction n as [|n IH]; intros [|y l]; cbn; try tauto.
  intros [->|H]; [now left|right; now apply IH].
Qed.

Lemma firstn_sorted {A} (R : A -> A -> Prop) : forall n l,
  StronglySorted R l -> StronglySorted R (firstn n l).
Proof.
  induction n as [|n IH]; intros [|y l] H; cbn; try constructor.
  - apply IH. now apply StronglySorted_inv in H.
  - apply StronglySorted_inv in H. destruct H as [_ H].
    rewrite Forall_forall in *. intros z Hz. apply H. now apply firstn_In in Hz.
Qed.

(** X15.  The similar pairs come out in descending order of score, in the
    library and in the popup's copy. *)
Theorem X15_similarTabs_sorted
  (new_URL : string -> option URL) (tabs0 : list TabRecord) (threshold : Z) :
  StronglySorted score_desc (similarTabs (Lib.analyzeTabs new_URL tabs0 threshold))
  /\ StronglySorted score_desc (similarTabs (Popup.analyzeTabs new_URL tabs0 threshold)).
Proof.
  unfold Popup.analyzeTabs, Lib.analyzeTabs. cbn [similarTabs].
  rewrite popup_sortedSimilarPairs_eq.
  assert (H : StronglySorted score_desc (Lib.sortedSimilarPairs new_URL tabs0 threshold)).
  { unfold Lib.sortedSimilarPairs. cbv zeta.
    destruct (Lib.buildGroups new_URL (Lib.validTabs tabs0)). apply sort_pairs_sorted. }
  split; [exact H|now apply firstn_sorted].
Qed.

Section PoolLoops.

Variable new_URL : string -> option URL.
Variable P : TabRecord -> Prop.

Lemma compare_pair_tabs threshold a b st :
  P a -> P b ->
  Forall (fun p => P (tab1 p) /\ P (tab2 p)) (snd st) ->
  Forall (fun p => P (tab1 p) /\ P (tab2 p))
         (snd (Lib.compare_pair new_URL threshold a b st)).
Proof.
  intros Ha Hb H. unfold Lib.compare_pair. cbv zeta.
  destruct (JS.sset_has _ (fst st)); [exact H|].
  destruct (similar _); cbn [snd]; [|exact H].
  apply Forall_app. split; [exact H|]. constructor; [now split|constructor].
Qed.

Lemma inner_loop_tabs threshold a : P a -> forall rest st,
  Forall P rest ->
  Forall (fun p => P (tab1 p) /\ P (tab2 p)) (snd st) ->
  Forall (fun p => P (tab1 p) /\ P (tab2 p))
         (snd (Lib.inner_loop new_URL threshold a rest st)).
Proof.
  intro Ha. induction rest as [|b rest IH]; intros st Hr H; cbn.
  - exact H.
  - inversion Hr; subst. apply IH; [assumption|]. now apply compare_pair_tabs.
Qed.

Lemma outer_loop_tabs threshold : forall pool st,
  Forall P pool ->
  Forall (fun p => P (tab1 p) /\ P (tab2 p)) (snd st) ->
  Forall (fun p => P (tab1 p) /\ P (tab2 p))
         (snd (Lib.outer_loop new_URL threshold pool st)).
Proof.
  induction pool as [|a pool IH]; intros st Hp H; cbn.
  - exact H.
  - inversion Hp; subst. apply IH; [assumption|]. now apply inner_loop_tabs.
Qed.

End PoolLoops.

(** Both tabs of a similar pair are tabs of the comparison pool. *)
Lemma similar_pair_in_pool (new_URL : string -> option URL) tabs0 threshold p :
  In p (Lib.sortedSimilarPairs new_URL tabs0 threshold) ->
  In (tab1 p) (comparison_pool new_URL tabs0)
  /\ In (tab2 p) (comparison_pool new_URL tabs0).
Proof.
  unfold Lib.sortedSimilarPairs, comparison_pool. cbv zeta.
  destruct (Lib.buildGroups new_URL (Lib.validTabs tabs0)) as [gs inGroups].
  cbn [snd]. intro H. apply sort_pairs_In in H. revert p H.
  apply Forall_forall.
  apply (outer_loop_tabs new_URL (fun t => In t (Lib.nonGoogleTabs (Lib.validTabs tabs0) inGroups))).
  - apply Forall_forall. auto.
  - constructor.
Qed.

Lemma comparison_pool_spec (new_URL : string -> option URL) tabs0 t :
  In t (comparison_pool new_URL tabs0) ->
  In t (Lib.validTabs tabs0)
  /\ JS.set_has (id t) (snd (Lib.buildGroups new_URL (Lib.validTabs tabs0))) = false
  /\ JS.includes (url t) "docs.google.com" = false.
Proof.
  unfold comparison_pool, Lib.nonGoogleTabs. cbv zeta. intro H.
  apply firstn_In in H. apply filter_In in H. destruct H as [H H2].
  apply filter_In in H. destruct H as [H H1].
  split; [exact H|split].
  - now apply negb_true_iff in H1.
  - apply orb_prop in H2. destruct H2 as [H2|H2].
    + unfold JS.truthy in H2. rewrite negb_involutive in H2.
      apply String.eqb_eq in H2. rewrite H2. reflexivity.
    + now apply negb_true_iff in H2.
Qed.

Lemma validTabs_spec tabs0 t :
  In t (Lib.validTabs tabs0) ->
  In t tabs0 /\ url t <> EmptyString
  /\ JS.startsWith (url t) "chrome://" = false
  /\ JS.startsWith (url t) "chrome-extension://" = false.
Proof.
  unfold Lib.validTabs. intro H. apply filter_In in H. destruct H as [H Hc].
  apply andb_prop in Hc. destruct Hc as [Hc H3].
  apply andb_prop in Hc. destruct Hc as [H1 H2].
  split; [exact H|]. split; [|split].
  - unfold JS.truthy in H1. apply negb_true_iff in H1. now apply String.eqb_neq in H1.
  - now apply negb_true_iff in H2.
  - now apply negb_true_iff in H3.
Qed.

Section GroupInvariant.

Variable P : TabRecord -> Prop.

Lemma groups_inv_push gs set key ts :
  groups_inv P (gs, set) -> 1 < length ts -> Forall P ts ->
  groups_inv P (gs ++ [ {| normalizedUrl := key; tabs := ts;
                           count := Z.of_nat (length ts) |} ],
                Lib.add_ids set ts).
Proof.
  intros (Hset & Hcount & HP) Hlen Hts. unfold groups_inv, set_tracks in *.
  cbn [fst snd] in *. split; [|split].
  - intro x. rewrite all_ids_app, in_app_iff, add_ids_has, Hset. reflexivity.
  - intros g Hg. apply in_app_or in Hg. destruct Hg as [Hg|[<-|[]]].
    + now apply Hcount.
    + cbn. split; [reflexivity|exact Hlen].
  - apply Forall_app. split; [exact HP|]. constructor; [exact Hts|constructor].
Qed.

Lemma doc_groups_inv : forall buckets st,
  Forall (fun b => Forall P (snd b)) buckets ->
  groups_inv P st -> groups_inv P (fold_left Lib.push_doc_group buckets st).
Proof.
  induction buckets as [|[key ts] buckets IH]; intros [gs set] Hb Hst.
  - exact Hst.
  - inversion Hb as [|? ? Hts Hb']; subst. cbn [fold_left]. apply IH; [exact Hb'|].
    unfold Lib.push_doc_group. cbn [fst snd].
    destruct (Nat.ltb_spec 1 (length ts)); [|exact Hst].
    now apply groups_inv_push.
Qed.

Lemma url_groups_inv : forall buckets st,
  Forall (fun b => Forall P (snd b)) buckets ->
  groups_inv P st -> groups_inv P (fold_left Lib.push_url_group buckets st).
Proof.
  induction buckets as [|[key ts] buckets IH]; intros [gs set] Hb Hst.
  - exact Hst.
  - inversion Hb as [|? ? Hts Hb']; subst. cbn [fold_left]. apply IH; [exact Hb'|].
    unfold Lib.push_url_group. cbv zeta. cbn [fst snd].
    destruct (Nat.ltb_spec 1 (length (filter (fun t => negb (JS.set_has (id t) set)) ts)));
      [|exact Hst].
    apply groups_inv_push; [exact Hst|assumption|].
    cbn [snd] in Hts. rewrite Forall_forall in *. intros t Ht.
    apply filter_In in Ht. now apply Hts.
Qed.

End GroupInvariant.

Lemma group_fold_buckets_within key l :
  Forall (fun b => Forall (fun t => In t l) (snd b)) (group_fold key l []).
Proof.
  apply Forall_forall. intros [k ts] Hb. apply Forall_forall. intros t Ht. cbn in Ht.
  assert (Hin : In t (bucket_tabs (group_fold key l []))).
  { unfold bucket_tabs. apply in_concat. exists ts. split; [|exact Ht].
    apply in_map_iff. now exists (k, ts). }
  apply (Permutation_in _ (group_fold_perm key l [])) in Hin.
  cbn in Hin. now apply filter_In in Hin.
Qed.

Lemma buildGroups_inv (new_URL : string -> option URL) valid :
  groups_inv (fun t => In t valid) (Lib.buildGroups new_URL valid).
Proof.
  unfold Lib.buildGroups. apply url_groups_inv.
  - rewrite urlGroups_fold. apply group_fold_buckets_within.
  - apply doc_groups_inv.
    + rewrite googleDocGroups_fold. apply group_fold_buckets_within.
    + split; [|split].
      * intro x. cbn. split; [discriminate|intros []].
      * intros g [].
      * constructor.
Qed.

(** X16.  Every tab of a duplicate group and both tabs of every similar
    pair are tabs of the input with a URL that is not empty and does not
    begin with [chrome://] or [chrome-extension://]. *)
Theorem X16_results_hold_comparable_tabs
  (new_URL : string -> option URL) (tabs0 : list TabRecord) (threshold : Z) :
  Forall (fun g => Forall (comparable tabs0) (tabs g))
         (exactDuplicates (Lib.analyzeTabs new_URL tabs0 threshold))
  /\ Forall (fun p => comparable tabs0 (tab1 p) /\ comparable tabs0 (tab2 p))
            (similarTabs (Lib.analyzeTabs new_URL tabs0 threshold)).
Proof.
  cbn [Lib.analyzeTabs exactDuplicates similarTabs]. split.
  - destruct (buildGroups_inv new_URL (Lib.validTabs tabs0)) as (_ & _ & H).
    eapply Forall_impl; [|exact H]. intros g Hg. cbn in Hg.
    eapply Forall_impl; [|exact Hg]. intros t Ht. now apply validTabs_spec.
  - apply Forall_forall. intros p Hp.
    destruct (similar_pair_in_pool _ _ _ _ Hp) as [H1 H2].
    apply comparison_pool_spec in H1, H2.
    split; apply validTabs_spec; tauto.
Qed.

(** X17.  No tab id is both in a duplicate group and in a similar pair. *)
Theorem X17_groups_and_pairs_apart
  (new_URL : string -> option URL) (tabs0 : list TabRecord) (threshold : Z) :
  Forall (fun p =>
            ~ In (id (tab1 p))
                 (all_ids (exactDuplicates (Lib.analyzeTabs new_URL tabs0 threshold)))
            /\ ~ In (id (tab2 p))
                    (all_ids (exactDuplicates (Lib.analyzeTabs new_URL tabs0 threshold))))
         (similarTabs (Lib.analyzeTabs new_URL tabs0 threshold)).
Proof.
  cbn [Lib.analyzeTabs exactDuplicates similarTabs].
  apply Forall_forall. intros p Hp.
  destruct (similar_pair_in_pool _ _ _ _ Hp) as [H1 H2].
  apply comparison_pool_spec in H1, H2.
  destruct (buildGroups_inv new_URL (Lib.validTabs tabs0)) as (Hset & _ & _).
  split; intro Hin; apply Hset in Hin; destruct H1 as (_ & E1 & _), H2 as (_ & E2 & _);
    congruence.
Qed.

(** X18.  No tab whose URL contains [docs.google.com] is in a similar pair:
    such tabs are left to the grouping by document. *)
Theorem X18_no_google_docs_in_pairs
  (new_URL : string -> option URL) (tabs0 : list TabRecord) (threshold : Z) :
  Forall (fun p => JS.includes (url (tab1 p)) "docs.google.com" = false
                   /\ JS.includes (url (tab2 p)) "docs.google.com" = false)
         (similarTabs (Lib.analyzeTabs new_URL tabs0 threshold)).
Proof.
  cbn [Lib.analyzeTabs similarTabs].
  apply Forall_forall. intros p Hp.
  destruct (similar_pair_in_pool _ _ _ _ Hp) as [H1 H2].
  apply comparison_pool_spec in H1, H2. tauto.
Qed.

(** ** How many pairs, how many duplicates *)

Section PairCount.

Variable new_URL : string -> option URL.

Lemma compare_pair_length threshold a b st :
  length (snd (Lib.compare_pair new_URL threshold a b st)) <= S (length (snd st)).
Proof.
  unfold Lib.compare_pair. cbv zeta.
  destruct (JS.sset_has _ (fst st)); [lia|].
  destruct (similar _); cbn [snd]; [rewrite length_app; cbn; lia|lia].
Qed.

Lemma inner_loop_length threshold a : forall rest st,
  length (snd (Lib.inner_loop new_URL threshold a rest st))
  <= length (snd st) + length rest.
Proof.
  induction rest as [|b rest IH]; intro st; cbn [Lib.inner_loop length].
  - lia.
  - specialize (IH (Lib.compare_pair new_URL threshold a b st)).
    pose proof (compare_pair_length threshold a b st). lia.
Qed.

Lemma outer_loop_length threshold : forall pool st,
  2 * length (snd (Lib.outer_loop new_URL threshold pool st)) + length pool
  <= 2 * length (snd st) + length pool * length pool.
Proof.
  induction pool as [|a pool IH]; intro st; cbn [Lib.outer_loop length].
  - lia.
  - specialize (IH (Lib.inner_loop new_URL threshold a pool st)).
    pose proof (inner_loop_length threshold a pool st). nia.
Qed.

Lemma sortedSimilarPairs_length tabs0 threshold :
  length (Lib.sortedSimilarPairs new_URL tabs0 threshold) <= 4950.
Proof.
  unfold Lib.sortedSimilarPairs. cbv zeta.
  destruct (Lib.buildGroups new_URL (Lib.validTabs tabs0)) as [gs inGroups].
  rewrite sort_pairs_length.
  set (pool := Lib.nonGoogleTabs (Lib.validTabs tabs0) inGroups).
  assert (Hn : length pool <= 100) by apply firstn_le_length.
  pose proof (outer_loop_length threshold pool ([], [])) as H. cbn [snd length] in H.
  nia.
Qed.

End PairCount.

(** X19.  [totalSimilar] is the number of pairs returned; it is at most
    4950 in the library, the pairs of a pool of 100 tabs, and at most 20 in
    the popup's copy. *)
Theorem X19_totalSimilar_bounds
  (new_URL : string -> option URL) (tabs0 : list TabRecord) (threshold : Z) :
  totalSimilar (Lib.analyzeTabs new_URL tabs0 threshold)
  = Z.of_nat (length (similarTabs (Lib.analyzeTabs new_URL tabs0 threshold)))
  /\ (totalSimilar (Lib.analyzeTabs new_URL tabs0 threshold) <= 4950)%Z
  /\ totalSimilar (Popup.analyzeTabs new_URL tabs0 threshold)
     = Z.of_nat (length (similarTabs (Popup.analyzeTabs new_URL tabs0 threshold)))
  /\ (totalSimilar (Popup.analyzeTabs new_URL tabs0 threshold) <= 20)%Z.
Proof.
  unfold Popup.analyzeTabs, Lib.analyzeTabs. cbn [totalSimilar similarTabs].
  rewrite popup_sortedSimilarPairs_eq, length_firstn.
  pose proof (sortedSimilarPairs_length new_URL tabs0 threshold). lia.
Qed.

Lemma totalDuplicates_fold : forall gs acc,
  groups_counted gs ->
  fold_left (fun sum g => (sum + count g - 1)%Z) gs acc
  = (acc + Z.of_nat (length (all_ids gs)) - Z.of_nat (length gs))%Z.
Proof.
  induction gs as [|g gs IH]; intros acc H.
  - cbn. lia.
  - cbn [fold_left]. rewrite IH by (intros g' Hg'; apply H; now right).
    destruct (H g (or_introl eq_refl)) as [Hc _]. rewrite Hc.
    unfold all_ids. cbn [map concat length]. rewrite length_app.
    change (length (group_ids g)) with (length (map id (tabs g))).
    rewrite length_map. lia.
Qed.

Lemma tabsToClose_concat gs :
  PopupUi.tabsToClose gs = concat (map rest_ids gs).
Proof.
  unfold PopupUi.tabsToClose.
  assert (Inner : forall ts acc,
            fold_left (fun acc (t : TabRecord) => acc ++ [id t]) ts acc
            = acc ++ map id ts).
  { induction ts as [|t ts IH]; intro acc; cbn.
    - now rewrite app_nil_r.
    - rewrite IH, <- app_assoc. reflexivity. }
  assert (Outer : forall gs acc,
            fold_left (fun acc group =>
                         fold_left (fun acc (t : TabRecord) => acc ++ [id t])
                                   (tl (tabs group)) acc) gs acc
            = acc ++ concat (map rest_ids gs)).
  { clear gs. induction gs as [|g gs IH]; intro acc; cbn.
    - now rewrite app_nil_r.
    - rewrite IH, Inner, <- app_assoc. reflexivity. }
  apply (Outer gs []).
Qed.

Lemma rest_ids_length gs :
  groups_counted gs ->
  length (concat (map rest_ids gs)) + length gs = length (all_ids gs).
Proof.
  induction gs as [|g gs IH]; intro H; [reflexivity|].
  unfold all_ids in *. cbn [map concat length]. rewrite !length_app.
  specialize (IH (fun g' Hg' => H g' (or_intror Hg'))).
  destruct (H g (or_introl eq_refl)) as [_ Hl].
  change (length (rest_ids g)) with (length (map id (tl (tabs g)))).
  change (length (group_ids g)) with (length (map id (tabs g))).
  rewrite !length_map.
  destruct (tabs g) as [|t ts]; cbn [tl length] in *; lia.
Qed.

(** X20.  [closeAllDuplicates] asks to close exactly [totalDuplicates]
    tabs, which is the number of tabs in the groups less the number of
    groups, and at least one tab for every group. *)
Theorem X20_closeAll_closes_totalDuplicates
  (new_URL : string -> option URL) (tabs0 : list TabRecord) (threshold : Z) :
  Z.of_nat (length (PopupUi.tabsToClose
                      (exactDuplicates (Popup.analyzeTabs new_URL tabs0 threshold))))
  = totalDuplicates (Popup.analyzeTabs new_URL tabs0 threshold)
  /\ totalDuplicates (Popup.analyzeTabs new_URL tabs0 threshold)
     = (Z.of_nat (length (all_ids
                            (exactDuplicates (Popup.analyzeTabs new_URL tabs0 threshold))))
        - Z.of_nat (length (exactDuplicates (Popup.analyzeTabs new_URL tabs0 threshold))))%Z
  /\ (Z.of_nat (length (exactDuplicates (Popup.analyzeTabs new_URL tabs0 threshold)))
      <= totalDuplicates (Popup.analyzeTabs new_URL tabs0 threshold))%Z.
Proof.
  unfold Popup.analyzeTabs. cbn [exactDuplicates totalDuplicates].
  rewrite popup_buildGroups_eq.
  change (Popup.validTabs tabs0) with (Lib.validTabs tabs0).
  destruct (buildGroups_inv new_URL (Lib.validTabs tabs0)) as (_ & Hc & _).
  set (gs := fst (Lib.buildGroups new_URL (Lib.validTabs tabs0))) in *.
  rewrite totalDuplicates_fold by exact Hc. rewrite tabsToClose_concat.
  pose proof (rest_ids_length gs Hc) as Hl.
  assert (Hg : 2 * length gs <= length (all_ids gs)).
  { clear Hl. induction gs as [|g gs IH]; [cbn; lia|].
    unfold all_ids in *. cbn [map concat length]. rewrite length_app.
    specialize (IH (fun g' Hg' => Hc g' (or_intror Hg'))).
    destruct (Hc g (or_introl eq_refl)) as [_ Hlen].
    change (length (group_ids g)) with (length (map id (tabs g))).
    rewrite length_map. lia. }
  lia.
Qed.

Lemma NoDup_app_inv {A} (l r : list A) :
  NoDup (l ++ r) -> NoDup l /\ NoDup r /\ forall x, In x l -> ~ In x r.
Proof.
  intro H. split; [now apply NoDup_app_remove_r in H|].
  split; [now apply NoDup_app_remove_l in H|].
  induction l as [|a l IH]; intros x Hx; [destruct Hx|].
  cbn in H. inversion H as [|? ? Hn Hd]; subst. destruct Hx as [->|Hx].
  - intro Hr. apply Hn, in_or_app. now right.
  - now apply IH.
Qed.

Lemma rest_ids_incl g : incl (rest_ids g) (group_ids g).
Proof.
  unfold rest_ids, group_ids. destruct (tabs g) as [|t ts]; cbn.
  - intros x [].
  - intros x Hx. now right.
Qed.

Lemma closes_incl gs : incl (concat (map rest_ids gs)) (all_ids gs).
Proof.
  unfold all_ids. induction gs as [|g gs IH]; cbn; [intros x []|].
  intros x Hx. apply in_app_or in Hx. apply in_or_app.
  destruct Hx as [Hx|Hx]; [left; now apply rest_ids_incl|right; now apply IH].
Qed.

Lemma closes_NoDup gs :
  NoDup (all_ids gs) -> NoDup (concat (map rest_ids gs)).
Proof.
  unfold all_ids. induction gs as [|g gs IH]; cbn; intro H; [constructor|].
  apply NoDup_app_inv in H. destruct H as (Hg & Hgs & Hdis).
  apply NoDup_app.
  - unfold rest_ids, group_ids in *. destruct (tabs g) as [|t ts]; cbn in *.
    + constructor.
    + now inversion Hg.
  - now apply IH.
  - intros x Hx Hc. apply (Hdis x); [now apply rest_ids_incl|now apply closes_incl].
Qed.

Lemma first_kept gs :
  NoDup (all_ids gs) ->
  forall g t, In g gs -> hd_error (tabs g) = Some t ->
  ~ In (id t) (concat (map rest_ids gs)).
Proof.
  unfold all_ids. induction gs as [|g0 gs IH]; cbn; intros H g t Hg Ht Hin;
    [destruct Hg|].
  apply NoDup_app_inv in H. destruct H as (Hg0 & Hgs & Hdis).
  assert (Hid : In (id t) (group_ids g)).
  { unfold group_ids. destruct (tabs g) as [|t' ts]; [discriminate Ht|].
    inversion Ht; subst. now left. }
  apply in_app_or in Hin. destruct Hg as [->|Hg], Hin as [Hin|Hin].
  - unfold group_ids, rest_ids in *.
    destruct (tabs g) as [|t' ts]; [discriminate Ht|]. cbn in *.
    inversion Ht; subst t'. inversion Hg0 as [|? ? Hn _]; subst. contradiction.
  - apply (Hdis (id t) Hid). now apply closes_incl.
  - apply (Hdis (id t)); [now apply rest_ids_incl|].
    apply in_concat. exists (group_ids g). split; [now apply in_map|exact Hid].
  - now apply (IH Hgs g t).
Qed.

(** X21.  With unique ids in the input, [closeAllDuplicates] asks to close
    no tab twice, never the first tab of a group, and only tabs of the
    input. *)
Theorem X21_closeAll_keeps_one_per_group
  (new_URL : string -> option URL) (tabs0 : list TabRecord) (threshold : Z) :
  NoDup (map id tabs0) ->
  NoDup (PopupUi.tabsToClose
           (exactDuplicates (Popup.analyzeTabs new_URL tabs0 threshold)))
  /\ Forall (fun g => exists t,
                hd_error (tabs g) = Some t
                /\ ~ In (id t)
                       (PopupUi.tabsToClose
                          (exactDuplicates (Popup.analyzeTabs new_URL tabs0 threshold))))
            (exactDuplicates (Popup.analyzeTabs new_URL tabs0 threshold))
  /\ Forall (fun x => In x (map id tabs0))
            (PopupUi.tabsToClose
               (exactDuplicates (Popup.analyzeTabs new_URL tabs0 threshold))).
Proof.
  intro Hnd. unfold Popup.analyzeTabs. cbn [exactDuplicates].
  rewrite popup_buildGroups_eq.
  change (Popup.validTabs tabs0) with (Lib.validTabs tabs0).
  destruct (buildGroups_ok new_URL (Lib.validTabs tabs0) (validTabs_NoDup _ Hnd))
    as (Hids & _ & Hcount).
  destruct (buildGroups_inv new_URL (Lib.validTabs tabs0)) as (_ & _ & Hin).
  set (gs := fst (Lib.buildGroups new_URL (Lib.validTabs tabs0))) in *.
  rewrite tabsToClose_concat. split; [now apply closes_NoDup|split].
  - apply Forall_forall. intros g Hg.
    destruct (Hcount g Hg) as [_ Hlen].
    destruct (tabs g) as [|t ts] eqn:E; [cbn in Hlen; lia|].
    exists t. split; [reflexivity|].
    apply (first_kept gs Hids g t Hg). now rewrite E.
  - apply Forall_forall. intros x Hx. apply closes_incl in Hx.
    unfold all_ids in Hx. apply in_concat in Hx. destruct Hx as [l [Hl Hx]].
    apply in_map_iff in Hl. destruct Hl as [g [<- Hg]].
    unfold group_ids in Hx. apply in_map_iff in Hx. destruct Hx as [t [<- Ht]].
    rewrite Forall_forall in Hin. specialize (Hin g Hg).
    rewrite Forall_forall in Hin. specialize (Hin t Ht).
    apply in_map. now apply validTabs_spec in Hin.
Qed.

(** X21 on five tabs that make two groups. *)
Lemma X21_closeAll_keeps_one_per_group_witness :
  PopupUi.tabsToClose (exactDuplicates (Popup.analyzeTabs URL_parse tabs_five 80))
  = [5%Z; 3%Z]
  /\ NoDup (PopupUi.tabsToClose
              (exactDuplicates (Popup.analyzeTabs URL_parse tabs_five 80)))
  /\ Forall (fun g => exists t,
                hd_error (tabs g) = Some t
                /\ ~ In (id t)
                       (PopupUi.tabsToClose
                          (exactDuplicates (Popup.analyzeTabs URL_parse tabs_five 80))))
            (exactDuplicates (Popup.analyzeTabs URL_parse tabs_five 80))
  /\ Forall (fun x => In x (map id tabs_five))
            (PopupUi.tabsToClose
               (exactDuplicates (Popup.analyzeTabs URL_parse tabs_five 80))).
Proof.
  split; [reflexivity|].
  apply (X21_closeAll_keeps_one_per_group URL_parse tabs_five 80).
  cbn. repeat constructor; cbn; lia.
Defined.

(** ** Tabs that must end up in one group *)

Lemma bucket_map_push k k' t m :
  bucket k (map_push k' t m)
  = if (k' =? k)%string then bucket k m ++ [t] else bucket k m.
Proof.
  induction m as [|[k0 ts] m IH]; cbn.
  - now destruct (k' =? k)%string.
  - destruct (String.eqb_spec k0 k') as [->|Hne]; cbn.
    + now destruct (k' =? k)%string.
    + destruct (String.eqb_spec k0 k) as [->|Hk].
      * destruct (String.eqb_spec k' k) as [->|]; [contradiction|reflexivity].
      * exact IH.
Qed.

Lemma bucket_group_fold key k : forall l m,
  bucket k (group_fold key l m) = bucket k m ++ filter (key_is key k) l.
Proof.
  induction l as [|t l IH]; intro m.
  - cbn. now rewrite app_nil_r.
  - change (group_fold key (t :: l) m)
      with (group_fold key l
              match key t with Some k' => map_push k' t m | None => m end).
    rewrite IH. cbn [filter]. unfold key_is at 2. destruct (key t) as [k'|].
    + rewrite bucket_map_push. destruct (k' =? k)%string.
      * now rewrite <- app_assoc.
      * reflexivity.
    + reflexivity.
Qed.

Lemma bucket_In k m : bucket k m <> [] -> In (k, bucket k m) m.
Proof.
  induction m as [|[k0 ts] m IH]; cbn; [congruence|].
  destruct (String.eqb_spec k0 k) as [->|Hne].
  - now left.
  - intro H. right. now apply IH.
Qed.

Lemma map_push_keys_NoDup k t m :
  NoDup (map fst m) -> NoDup (map fst (map_push k t m)).
Proof.
  induction m as [|[k0 ts] m IH]; cbn; intro H.
  - repeat constructor. intros [].
  - inversion H as [|? ? Hn Hd]; subst.
    destruct (String.eqb_spec k0 k) as [->|Hne]; cbn.
    + now constructor.
    + constructor; [|now apply IH].
      intro Hin. apply Hn. clear - Hin Hne.
      induction m as [|[k1 ts1] m IHm]; cbn in *.
      * destruct Hin as [E|[]]. now subst.
      * destruct (k1 =? k)%string; cbn in *; tauto.
Qed.

Lemma group_fold_keys_NoDup key : forall l m,
  NoDup (map fst m) -> NoDup (map fst (group_fold key l m)).
Proof.
  unfold group_fold. induction l as [|t l IH]; intros m H; cbn.
  - exact H.
  - apply IH. destruct (key t); [now apply map_push_keys_NoDup|exact H].
Qed.

Lemma two_members {A} (a b : A) l : In a l -> In b l -> a <> b -> 1 < length l.
Proof.
  destruct l as [|x [|y l]]; cbn; try tauto; [|lia].
  intros [<-|[]] [<-|[]] H. exfalso. now apply H.
Qed.

Lemma same_id_same_tab l a b :
  NoDup (map id l) -> In a l -> In b l -> id a = id b -> a = b.
Proof.
  induction l as [|x l IH]; cbn; intros Hnd Ha Hb E; [destruct Ha|].
  inversion Hnd as [|? ? Hn Hd]; subst.
  destruct Ha as [<-|Ha], Hb as [<-|Hb]; try reflexivity.
  - exfalso. apply Hn. rewrite E. now apply in_map.
  - exfalso. apply Hn. rewrite <- E. now apply in_map.
  - now apply IH.
Qed.

Lemma push_doc_groups_keep : forall buckets st g,
  In g (fst st) -> In g (fst (fold_left Lib.push_doc_group buckets st)).
Proof.
  induction buckets as [|[k ts] buckets IH]; intros st g H; [exact H|].
  cbn [fold_left]. apply IH. unfold Lib.push_doc_group.
  destruct (1 <? length ts)%nat; [|exact H]. cbn. apply in_or_app. now left.
Qed.

Lemma push_url_groups_keep : forall buckets st g,
  In g (fst st) -> In g (fst (fold_left Lib.push_url_group buckets st)).
Proof.
  induction buckets as [|[k ts] buckets IH]; intros st g H; [exact H|].
  cbn [fold_left]. apply IH. unfold Lib.push_url_group. cbv zeta.
  destruct (1 <? length _)%nat; [|exact H]. cbn. apply in_or_app. now left.
Qed.

Lemma push_doc_groups_member : forall buckets st k ts,
  In (k, ts) buckets -> 1 < length ts ->
  In {| normalizedUrl := k; tabs := ts; count := Z.of_nat (length ts) |}
     (fst (fold_left Lib.push_doc_group buckets st)).
Proof.
  induction buckets as [|[k0 ts0] buckets IH]; intros st k ts Hin Hlen;
    [destruct Hin|].
  cbn [fold_left]. destruct Hin as [E|Hin]; [|now apply IH].
  inversion E; subst. apply push_doc_groups_keep.
  unfold Lib.push_doc_group. apply Nat.ltb_lt in Hlen. rewrite Hlen.
  cbn. apply in_or_app. right. now left.
Qed.

Section Completeness.

Variable new_URL : string -> option URL.

Lemma doc_group_complete valid t1 t2 k :
  In t1 valid -> In t2 valid -> t1 <> t2 ->
  Lib.googleDocKey new_URL t1 = Some k ->
  Lib.googleDocKey new_URL t2 = Some k ->
  exists g, In g (fst (Lib.buildGroups new_URL valid))
            /\ normalizedUrl g = k /\ In t1 (tabs g) /\ In t2 (tabs g).
Proof.
  intros H1 H2 Hne K1 K2.
  set (B := bucket k (Lib.googleDocGroups new_URL valid)).
  assert (HB : B = filter (key_is (Lib.googleDocKey new_URL) k) valid).
  { unfold B. rewrite googleDocGroups_fold, bucket_group_fold. reflexivity. }
  assert (B1 : In t1 B).
  { rewrite HB. apply filter_In. split; [exact H1|].
    unfold key_is. rewrite K1. apply String.eqb_refl. }
  assert (B2 : In t2 B).
  { rewrite HB. apply filter_In. split; [exact H2|].
    unfold key_is. rewrite K2. apply String.eqb_refl. }
  exists {| normalizedUrl := k; tabs := B; count := Z.of_nat (length B) |}.
  cbn. split; [|tauto].
  unfold Lib.buildGroups. apply push_url_groups_keep, push_doc_groups_member.
  - apply bucket_In. fold B. intro E. rewrite E in B1. destruct B1.
  - exact (two_members t1 t2 B B1 B2 Hne).
Qed.

Lemma doc_groups_origin : forall buckets st,
  keyed (Lib.googleDocKey new_URL) buckets ->
  groups_origin new_URL [] (fst st) ->
  groups_origin new_URL [] (fst (fold_left Lib.push_doc_group buckets st)).
Proof.
  induction buckets as [|[key ts] buckets IH]; intros [gs set] Hb Hg.
  - exact Hg.
  - cbn [fold_left]. apply IH.
    + intros k l t H. apply (Hb k l t). now right.
    + unfold Lib.push_doc_group. cbn [fst snd].
      destruct (1 <? length ts)%nat; [|exact Hg]. cbn [fst].
      intros g t Hin Ht. apply in_app_or in Hin. destruct Hin as [Hin|[<-|[]]].
      * now apply Hg.
      * left. cbn in *. apply (Hb key ts t); [now left|exact Ht].
Qed.

Lemma groups_origin_more ks ks' gs :
  incl ks ks' -> groups_origin new_URL ks gs -> groups_origin new_URL ks' gs.
Proof.
  intros Hi H g t Hg Ht. destruct (H g t Hg Ht) as [K|[K1 K2]]; [now left|right].
  split; [now apply Hi|exact K2].
Qed.

Lemma url_groups_origin : forall buckets ks st,
  keyed (fun tab => Some (Lib.normalizeUrl new_URL (url tab))) buckets ->
  groups_origin new_URL ks (fst st) ->
  groups_origin new_URL (ks ++ map fst buckets)
    (fst (fold_left Lib.push_url_group buckets st)).
Proof.
  induction buckets as [|[key ts] buckets IH]; intros ks [gs set] Hb Hg.
  - cbn. now rewrite app_nil_r.
  - cbn [fold_left map fst].
    replace (ks ++ key :: map fst buckets) with ((ks ++ [key]) ++ map fst buckets)
      by (rewrite <- app_assoc; reflexivity).
    apply IH.
    + intros k l t H. apply (Hb k l t). now right.
    + unfold Lib.push_url_group. cbv zeta. cbn [fst snd].
      destruct (1 <? length _)%nat.
      * cbn [fst]. intros g t Hin Ht. apply in_app_or in Hin.
        destruct Hin as [Hin|[<-|[]]].
        -- exact (groups_origin_more ks (ks ++ [key]) gs
                    (incl_appl _ (incl_refl _)) Hg g t Hin Ht).
        -- right. cbn in *. apply filter_In in Ht. destruct Ht as [Ht _].
           assert (E := Hb key ts t (or_introl eq_refl) Ht). inversion E.
           split; [apply in_or_app; right; now left|reflexivity].
      * exact (groups_origin_more ks (ks ++ [key]) gs
                 (incl_appl _ (incl_refl _)) Hg).
Qed.

End Completeness.

Section UrlCompleteness.

Variable new_URL : string -> option URL.

Lemma not_claimed_before valid U1 k t :
  NoDup (map id valid) ->
  Forall (fun b => Forall (fun t => In t valid) (snd b)) U1 ->
  keyed (fun tab => Some (Lib.normalizeUrl new_URL (url tab))) U1 ->
  ~ In k (map fst U1) ->
  In t valid ->
  Lib.normalizeUrl new_URL (url t) = k ->
  Lib.googleDocKey new_URL t = None ->
  JS.set_has (id t)
    (snd (fold_left Lib.push_url_group U1
            (fold_left Lib.push_doc_group (Lib.googleDocGroups new_URL valid) ([], []))))
  = false.
Proof.
  intros Hnd HU1 HK1 Hk Ht Hn Hg.
  set (st0 := fold_left Lib.push_doc_group (Lib.googleDocGroups new_URL valid) ([], [])).
  assert (I0 : groups_inv (fun t => In t valid) st0).
  { apply doc_groups_inv.
    - rewrite googleDocGroups_fold. apply group_fold_buckets_within.
    - split; [|split].
      + intro x. cbn. split; [discriminate|intros []].
      + intros g [].
      + constructor. }
  assert (O0 : groups_origin new_URL [] (fst st0)).
  { apply doc_groups_origin.
    - rewrite googleDocGroups_fold. apply group_fold_keyed, keyed_nil.
    - intros g t' []. }
  pose proof (url_groups_inv _ U1 st0 HU1 I0) as (Hset & _ & Hin).
  pose proof (url_groups_origin new_URL U1 [] st0 HK1 O0) as Ho. cbn [app] in Ho.
  set (st1 := fold_left Lib.push_url_group U1 st0) in *.
  destruct (JS.set_has (id t) (snd st1)) eqn:E; [exfalso|reflexivity].
  apply Hset in E. unfold all_ids in E. apply in_concat in E.
  destruct E as [l [Hl Hx]]. apply in_map_iff in Hl. destruct Hl as [g [<- Hgin]].
  unfold group_ids in Hx. apply in_map_iff in Hx. destruct Hx as [t' [Hid Ht']].
  rewrite Forall_forall in Hin. pose proof (Hin g Hgin) as Hg'.
  rewrite Forall_forall in Hg'. specialize (Hg' t' Ht').
  assert (t' = t) by (apply (same_id_same_tab valid); assumption). subst t'.
  destruct (Ho g t Hgin Ht') as [K|[K1 K2]].
  - congruence.
  - apply Hk. congruence.
Qed.

Lemma url_group_complete valid t1 t2 k :
  NoDup (map id valid) ->
  In t1 valid -> In t2 valid -> t1 <> t2 ->
  Lib.normalizeUrl new_URL (url t1) = k ->
  Lib.normalizeUrl new_URL (url t2) = k ->
  Lib.googleDocKey new_URL t1 = None ->
  Lib.googleDocKey new_URL t2 = None ->
  exists g, In g (fst (Lib.buildGroups new_URL valid))
            /\ normalizedUrl g = k /\ In t1 (tabs g) /\ In t2 (tabs g).
Proof.
  intros Hnd H1 H2 Hne N1 N2 G1 G2.
  set (key := fun tab => Some (Lib.normalizeUrl new_URL (url tab))).
  set (B := bucket k (Lib.urlGroups new_URL valid)).
  assert (HB : B = filter (key_is key k) valid).
  { unfold B. rewrite urlGroups_fold, bucket_group_fold. reflexivity. }
  assert (B1 : In t1 B).
  { rewrite HB. apply filter_In. split; [exact H1|].
    unfold key_is, key. rewrite N1. apply String.eqb_refl. }
  assert (B2 : In t2 B).
  { rewrite HB. apply filter_In. split; [exact H2|].
    unfold key_is, key. rewrite N2. apply String.eqb_refl. }
  assert (HU : In (k, B) (Lib.urlGroups new_URL valid)).
  { apply bucket_In. fold B. intro E. rewrite E in B1. destruct B1. }
  destruct (in_split _ _ HU) as (U1 & U2 & EU).
  assert (Hkeys : NoDup (map fst (Lib.urlGroups new_URL valid))).
  { rewrite urlGroups_fold. apply group_fold_keys_NoDup. constructor. }
  assert (Hwithin : Forall (fun b => Forall (fun t => In t valid) (snd b))
                           (Lib.urlGroups new_URL valid)).
  { rewrite urlGroups_fold. apply group_fold_buckets_within. }
  assert (Hkeyed : keyed key (Lib.urlGroups new_URL valid)).
  { rewrite urlGroups_fold. apply group_fold_keyed, keyed_nil. }
  rewrite EU in Hkeys, Hwithin, Hkeyed.
  rewrite map_app in Hkeys. cbn [map fst] in Hkeys.
  apply NoDup_remove_2 in Hkeys.
  assert (Hk1 : ~ In k (map fst U1)).
  { intro Hin. apply Hkeys, in_or_app. now left. }
  apply Forall_app in Hwithin. destruct Hwithin as [Hw1 _].
  assert (Hkeyed1 : keyed key U1).
  { intros k' ts t Hin. apply (Hkeyed k' ts t), in_or_app. now left. }
  pose proof (not_claimed_before valid U1 k t1 Hnd Hw1 Hkeyed1 Hk1 H1 N1 G1) as C1.
  pose proof (not_claimed_before valid U1 k t2 Hnd Hw1 Hkeyed1 Hk1 H2 N2 G2) as C2.
  unfold Lib.buildGroups. rewrite EU, fold_left_app. cbn [fold_left].
  set (st1 := fold_left Lib.push_url_group U1 _) in *.
  set (F := filter (fun t => negb (JS.set_has (id t) (snd st1))) B).
  assert (F1 : In t1 F) by (apply filter_In; split; [exact B1|now rewrite C1]).
  assert (F2 : In t2 F) by (apply filter_In; split; [exact B2|now rewrite C2]).
  exists {| normalizedUrl := k; tabs := F; count := Z.of_nat (length F) |}.
  cbn [normalizedUrl tabs]. split; [|tauto].
  apply push_url_groups_keep. unfold Lib.push_url_group. cbv zeta. fold F.
  pose proof (two_members t1 t2 F F1 F2 Hne) as Hlen.
  apply Nat.ltb_lt in Hlen. rewrite Hlen. cbn. apply in_or_app. right. now left.
Qed.

End UrlCompleteness.

(** X22.  Two different tabs of the input with the same document key, both
    with a URL the analyzer takes into account, are in one duplicate group,
    keyed by that document. *)
Theorem X22_same_document_same_group
  (new_URL : string -> option URL) (tabs0 : list TabRecord) (threshold : Z)
  (t1 t2 : TabRecord) (k : string) :
  In t1 (Lib.validTabs tabs0) -> In t2 (Lib.validTabs tabs0) -> t1 <> t2 ->
  Lib.googleDocKey new_URL t1 = Some k ->
  Lib.googleDocKey new_URL t2 = Some k ->
  exists g, In g (exactDuplicates (Lib.analyzeTabs new_URL tabs0 threshold))
            /\ normalizedUrl g = k /\ In t1 (tabs g) /\ In t2 (tabs g).
Proof.
  intros. cbn [Lib.analyzeTabs exactDuplicates]. now apply doc_group_complete.
Qed.

(** X22 on the two views of one document. *)
Lemma X22_same_document_same_group_witness :
  exists g, In g (exactDuplicates (Lib.analyzeTabs URL_parse tabs_five 80))
            /\ normalizedUrl g = "gdoc:doc:ABC123"
            /\ In tab_doc_edit (tabs g) /\ In tab_doc_view (tabs g).
Proof.
  apply (X22_same_document_same_group URL_parse tabs_five 80
           tab_doc_edit tab_doc_view "gdoc:doc:ABC123").
  - vm_compute. tauto.
  - vm_compute. tauto.
  - discriminate.
  - reflexivity.
  - reflexivity.
Defined.

(** X23.  With unique ids in the input, two different tabs that the
    analyzer takes into account, with the same normalized URL and no
    document key, are in one duplicate group, keyed by that URL. *)
Theorem X23_same_url_same_group
  (new_URL : string -> option URL) (tabs0 : list TabRecord) (threshold : Z)
  (t1 t2 : TabRecord) :
  NoDup (map id tabs0) ->
  In t1 (Lib.validTabs tabs0) -> In t2 (Lib.validTabs tabs0) -> t1 <> t2 ->
  Lib.normalizeUrl new_URL (url t1) = Lib.normalizeUrl new_URL (url t2) ->
  Lib.googleDocKey new_URL t1 = None ->
  Lib.googleDocKey new_URL t2 = None ->
  exists g, In g (exactDuplicates (Lib.analyzeTabs new_URL tabs0 threshold))
            /\ normalizedUrl g = Lib.normalizeUrl new_URL (url t1)
            /\ In t1 (tabs g) /\ In t2 (tabs g).
Proof.
  intros Hnd H1 H2 Hne E G1 G2. cbn [Lib.analyzeTabs exactDuplicates].
  apply url_group_complete; try assumption; try reflexivity.
  - now apply validTabs_NoDup.
  - now symmetry.
Qed.

(** X23 on two tabs of one blog post. *)
Lemma X23_same_url_same_group_witness :
  exists g, In g (exactDuplicates (Lib.analyzeTabs URL_parse tabs_five 80))
            /\ normalizedUrl g = Lib.normalizeUrl URL_parse (url tab_post1)
            /\ In tab_post1 (tabs g) /\ In tab_post3 (tabs g).
Proof.
  apply (X23_same_url_same_group URL_parse tabs_five 80 tab_post1 tab_post3).
  - cbn. repeat constructor; cbn; lia.
  - vm_compute. tauto.
  - vm_compute. tauto.
  - discriminate.
  - reflexivity.
  - reflexivity.
  - reflexivity.
Defined.

(** ** The badge count of the service worker *)

Section BadgeCount.

Variable new_URL : string -> option URL.

Lemma bump_spec k : forall m,
  Forall (fun kc => (1 <= snd kc)%Z) m ->
  let m' := ServiceWorker.count_set k
              (ServiceWorker.or_zero (ServiceWorker.count_get k m) + 1)%Z m in
  count_total m' = (count_total m + 1)%Z
  /\ Forall (fun kc => (1 <= snd kc)%Z) m'
  /\ (forall k', In k' (map fst m') <-> k' = k \/ In k' (map fst m))
  /\ (NoDup (map fst m) -> NoDup (map fst m')).
Proof.
  induction m as [|[k0 c0] m IH]; intro Hpos; cbv zeta.
  - cbn. split; [reflexivity|]. split; [constructor; [cbn; lia|constructor]|]. split.
    + intro k'. split; [intros [E|[]]; now left|intros [E|[]]; now left].
    + intros _. repeat constructor. intros [].
  - inversion Hpos as [|? ? Hc0 Hm]; subst. cbn [snd] in Hc0.
    cbn [ServiceWorker.count_get ServiceWorker.count_set].
    destruct (String.eqb_spec k0 k) as [->|Hne].
    + cbn [ServiceWorker.or_zero].
      destruct (Z.eqb_spec c0 0) as [E0|_]; [lia|].
      cbn [count_total fold_right map fst snd]. split; [|split; [|split]].
      * fold (count_total m). lia.
      * constructor; [cbn; lia|exact Hm].
      * intro k'. cbn [In]. split; [intros [E|H]; [now left|right; now right]|].
        intros [E|[E|H]]; [now left|now left|now right].
      * intro H. exact H.
    + destruct (IH Hm) as (Ht & Hp & Hk & Hn). cbv zeta in *.
      cbn [count_total fold_right map fst snd]. split; [|split; [|split]].
      * fold (count_total m) in *.
        change (fold_right (fun kc s => (snd kc + s)%Z) 0%Z ?x) with (count_total x).
        lia.
      * constructor; [exact Hc0|exact Hp].
      * intro k'. cbn [In]. split.
        -- intros [E|H]; [right; now left|]. apply Hk in H. tauto.
        -- intros [E|[E|H]].
           ++ right. apply Hk. now left.
           ++ now left.
           ++ right. apply Hk. now right.
      * intro H. inversion H as [|? ? Hn0 Hd]; subst. constructor; [|now apply Hn].
        intro Hin. apply Hk in Hin. destruct Hin as [E|Hin]; [now apply Hne|contradiction].
Qed.

Lemma urlCounts_spec : forall tabs0 m,
  Forall (fun kc => (1 <= snd kc)%Z) m ->
  NoDup (map fst m) ->
  let m' := fold_left (ServiceWorker.count_tab new_URL) tabs0 m in
  count_total m' = (count_total m + Z.of_nat (length (Lib.validTabs tabs0)))%Z
  /\ Forall (fun kc => (1 <= snd kc)%Z) m'
  /\ NoDup (map fst m')
  /\ (forall k, In k (map fst m')
                <-> In k (map fst m)
                    \/ In k (map (fun t => ServiceWorker.normalizeUrlSimple new_URL (url t))
                                 (Lib.validTabs tabs0))).
Proof.
  induction tabs0 as [|t tabs0 IH]; intros m Hpos Hnd; cbv zeta.
  - unfold Lib.validTabs. cbn [fold_left filter length map In Z.of_nat].
    split; [lia|]. split; [exact Hpos|]. split; [exact Hnd|]. intro k. tauto.
  - cbn [fold_left]. unfold Lib.validTabs. cbn [filter]. fold (Lib.validTabs tabs0).
    assert (Skip : negb (JS.truthy (url t))
                   || JS.startsWith (url t) "chrome://"
                   || JS.startsWith (url t) "chrome-extension://" = true ->
                   ServiceWorker.count_tab new_URL m t = m).
    { intro E. unfold ServiceWorker.count_tab. now rewrite E. }
    assert (Take : negb (JS.truthy (url t))
                   || JS.startsWith (url t) "chrome://"
                   || JS.startsWith (url t) "chrome-extension://" = false ->
                   ServiceWorker.count_tab new_URL m t
                   = ServiceWorker.count_set
                       (ServiceWorker.normalizeUrlSimple new_URL (url t))
                       (ServiceWorker.or_zero
                          (ServiceWorker.count_get
                             (ServiceWorker.normalizeUrlSimple new_URL (url t)) m) + 1)%Z
                       m).
    { intro E. unfold ServiceWorker.count_tab. now rewrite E. }
    destruct (JS.truthy (url t)); cbn [negb orb andb] in *;
      [|rewrite (Skip eq_refl); exact (IH m Hpos Hnd)].
    destruct (JS.startsWith (url t) "chrome://"); cbn [negb orb andb] in *;
      [rewrite (Skip eq_refl); exact (IH m Hpos Hnd)|].
    destruct (JS.startsWith (url t) "chrome-extension://"); cbn [negb orb andb] in *;
      [rewrite (Skip eq_refl); exact (IH m Hpos Hnd)|].
    rewrite (Take eq_refl).
    destruct (bump_spec (ServiceWorker.normalizeUrlSimple new_URL (url t)) m Hpos)
      as (Ht & Hp & Hk & Hn). cbv zeta in *.
    destruct (IH _ Hp (Hn Hnd)) as (Ht' & Hp' & Hn' & Hk'). cbv zeta in *.
    split; [|split; [exact Hp'|split; [exact Hn'|]]].
    + rewrite Ht', Ht. cbn [length]. lia.
    + intro k. cbn [map In]. split.
      * intro H. apply Hk' in H. destruct H as [H|H].
        -- apply Hk in H. destruct H as [->|H]; [right; now left|now left].
        -- right. now right.
      * intros [H|[H|H]]; apply Hk'.
        -- left. apply Hk. now right.
        -- left. apply Hk. now left.
        -- now right.
Qed.

Lemma duplicates_fold : forall m acc,
  Forall (fun kc => (1 <= snd kc)%Z) m ->
  fold_left (fun duplicates kc =>
               if (1 <? snd kc)%Z then (duplicates + (snd kc - 1))%Z else duplicates)
            m acc
  = (acc + count_total m - Z.of_nat (length m))%Z.
Proof.
  induction m as [|[k c] m IH]; intros acc H.
  - cbn. lia.
  - inversion H as [|? ? Hc Hm]; subst. cbn [snd] in Hc.
    cbn [fold_left snd]. rewrite (IH _ Hm).
    cbn [count_total fold_right snd length]. fold (count_total m).
    destruct (Z.ltb_spec 1 c); lia.
Qed.

Lemma countDuplicates_formula tabs0 :
  ServiceWorker.countDuplicates new_URL tabs0
  = (Z.of_nat (length (Lib.validTabs tabs0))
     - Z.of_nat (length (nodup string_dec
                           (map (fun t => ServiceWorker.normalizeUrlSimple new_URL (url t))
                                (Lib.validTabs tabs0)))))%Z.
Proof.
  unfold ServiceWorker.countDuplicates. cbv zeta.
  destruct (urlCounts_spec tabs0 [] (Forall_nil _) (NoDup_nil _))
    as (Ht & Hp & Hn & Hk). cbv zeta in *.
  set (m := fold_left (ServiceWorker.count_tab new_URL) tabs0 []) in *.
  rewrite (duplicates_fold m 0%Z Hp), Ht. cbn [count_total fold_right].
  assert (Hlen : length m
                 = length (nodup string_dec
                             (map (fun t => ServiceWorker.normalizeUrlSimple new_URL (url t))
                                  (Lib.validTabs tabs0)))).
  { rewrite <- (length_map fst m). apply Permutation_length, NoDup_Permutation.
    - exact Hn.
    - apply NoDup_nodup.
    - intro k. rewrite nodup_In, Hk. cbn [map In]. tauto. }
  rewrite Hlen. lia.
Qed.

End BadgeCount.

(** X24.  The badge count is the number of tabs taken into account (URL not
    empty, not [chrome://], not [chrome-extension://]) less the number of
    different normalized URLs among them. *)
Theorem X24_countDuplicates_formula
  (new_URL : string -> option URL) (tabs0 : list TabRecord) :
  ServiceWorker.countDuplicates new_URL tabs0
  = (Z.of_nat (length (Lib.validTabs tabs0))
     - Z.of_nat (length (nodup string_dec
                           (map (fun t => ServiceWorker.normalizeUrlSimple new_URL (url t))
                                (Lib.validTabs tabs0)))))%Z.
Proof. apply countDuplicates_formula. Qed.

Lemma Object_fromEntries_single k v : JS.Object_fromEntries [(k, v)] = [(k, v)].
Proof.
  unfold JS.Object_fromEntries, JS.obj_set. cbn.
  now destruct (JS.array_index k).
Qed.

(** X25.  On a URL that does not parse, or has at most one query
    parameter, the service worker's [normalizeUrlSimple] gives what the
    engine's [normalizeUrl] gives. *)
Theorem X25_normalizeUrlSimple_agrees
  (new_URL : string -> option URL) (u : string) :
  match new_URL u with
  | Some r => (length (url_searchParams r) <=? 1)%nat
  | None => true
  end = true ->
  ServiceWorker.normalizeUrlSimple new_URL u = Lib.normalizeUrl new_URL u.
Proof.
  unfold ServiceWorker.normalizeUrlSimple, Lib.normalizeUrl, Lib.parseUrl.
  destruct (new_URL u) as [r|]; [|reflexivity].
  cbv zeta. cbn [protocol hostname port pathname params].
  destruct (url_searchParams r) as [|[k v] [|e es]]; [| |discriminate]; intros _.
  - reflexivity.
  - rewrite Object_fromEntries_single. cbn. now rewrite String.eqb_refl.
Qed.

(** X25 on a URL with one parameter. *)
Lemma X25_normalizeUrlSimple_agrees_witness :
  ServiceWorker.normalizeUrlSimple URL_parse "https://www.a.com/p/?q=1#x"
  = Lib.normalizeUrl URL_parse "https://www.a.com/p/?q=1#x".
Proof.
  exact (X25_normalizeUrlSimple_agrees URL_parse "https://www.a.com/p/?q=1#x" eq_refl).
Defined.

(** ** The URL shown for a group *)

Lemma length_append s1 s2 :
  String.length (s1 +++ s2) = String.length s1 + String.length s2.
Proof. induction s1 as [|c s1 IH]; cbn; [reflexivity|now rewrite IH]. Qed.

Lemma length_substring_0 n : forall s, String.length (String.substring 0 n s) <= n.
Proof.
  induction n as [|n IH]; intros [|c s]; cbn; try lia.
  specialize (IH s). lia.
Qed.

(** X26.  The text [getDisplayUrl] makes for a URL that parses is never
    longer than 50 characters. *)
Theorem X26_getDisplayUrl_length (new_URL : string -> option URL) (u : string) :
  new_URL u <> None ->
  String.length (PopupUi.getDisplayUrl new_URL u) <= 50.
Proof.
  unfold PopupUi.getDisplayUrl. destruct (new_URL u) as [r|]; [|congruence].
  intros _. cbv zeta.
  set (display := if negb (url_pathname r =? "/")%string then _ else _).
  destruct (Nat.ltb_spec 50 (String.length display)) as [Hlong|Hshort].
  - rewrite length_append. pose proof (length_substring_0 47 display). cbn. lia.
  - exact Hshort.
Qed.

(** X26 on a URL with a long path. *)
Lemma X26_getDisplayUrl_length_witness :
  PopupUi.getDisplayUrl URL_parse
    "https://www.example.com/a/very/long/path/that/goes/on/and/on/and/on/index.html"
  = "example.com/a/very/long/path/that/goes/on/and/o..."
  /\ String.length
       (PopupUi.getDisplayUrl URL_parse
          "https://www.example.com/a/very/long/path/that/goes/on/and/on/and/on/index.html")
     <= 50.
Proof.
  split; [reflexivity|].
  apply (X26_getDisplayUrl_length URL_parse). discriminate.
Defined.

(** ** A threshold of 40 or less *)

Lemma weighted_at_least_40 (ps ts : Z) :
  (0 <= ps)%Z -> (0 <= ts)%Z ->
  (40 <= JS.Math_round (inject_Z 100 * (4 # 10) + inject_Z ps * (4 # 10)
                        + inject_Z ts * (2 # 10)))%Z.
Proof.
  intros P0 T0. rewrite Zle_Qle in P0, T0.
  change (inject_Z 0) with 0%Q in *.
  unfold JS.Math_round. change 40%Z with (Qfloor 40). apply Qfloor_resp_le.
  change (inject_Z 100) with 100%Q. lra.
Qed.

(** X27.  At a threshold of 40 or less, any two tabs whose URLs parse and
    whose hosts are the same after a leading [www.] is removed are similar:
    the domain alone weighs 40.  The paths and the titles are strings of
    the platform (shorter than [2 ^ 53]). *)
Theorem X27_same_site_similar_at_low_threshold
  (new_URL : string -> option URL) (t1 t2 : TabRecord) (threshold : Z)
  (u1 u2 : ParsedUrl) :
  (threshold <= 40)%Z ->
  Lib.parseUrl new_URL (url t1) = Some u1 ->
  Lib.parseUrl new_URL (url t2) = Some u2 ->
  JS.strip_www (hostname u1) = JS.strip_www (hostname u2) ->
  measurable new_URL t1 -> measurable new_URL t2 ->
  similar (Lib.findSimilarity new_URL t1 t2 threshold) = true.
Proof.
  intros Hth H1 H2 Hhost [P1 T1] [P2 T2]. rewrite H1 in P1. rewrite H2 in P2.
  cbn [pathname_of] in P1, P2.
  unfold Lib.findSimilarity. rewrite H1, H2. cbv zeta.
  rewrite Hhost, String.eqb_refl. cbn [negb].
  pose proof (stringSimilarity_range (pathname u1) (pathname u2) P1 P2) as Hps.
  pose proof (titleScore_range (title t1) (title t2) T1 T2) as Hts.
  pose proof (weighted_at_least_40 _ _ (proj1 Hps) (proj1 Hts)) as Hw.
  repeat match goal with
         | |- similar (if ?c then _ else _) = true => destruct c eqn:?
         end; try reflexivity.
  cbn. match goal with H : (_ <=? _)%Z = false |- _ => apply Z.leb_gt in H end. lia.
Qed.

(** X27 on two pages of one site that have nothing else in common. *)
Lemma X27_same_site_similar_at_low_threshold_witness :
  similar (Lib.findSimilarity URL_parse
             (mkTab 1 "https://www.a.com/x" None)
             (mkTab 2 "https://a.com/qqqqqqqqqqqq/rrrrrrrr" None) 40) = true.
Proof.
  refine (X27_same_site_similar_at_low_threshold URL_parse
            (mkTab 1 "https://www.a.com/x" None)
            (mkTab 2 "https://a.com/qqqqqqqqqqqq/rrrrrrrr" None) 40 _ _ _
            eq_refl eq_refl eq_refl _ _).
  - lia.
  - split; vm_compute; reflexivity.
  - split; vm_compute; reflexivity.
Defined.

(** ** The order of the tabs in a group *)

Lemma bucket_of_entry k ts m :
  NoDup (map fst m) -> In (k, ts) m -> bucket k m = ts.
Proof.
  induction m as [|[k0 ts0] m IH]; cbn; intros Hnd Hin; [destruct Hin|].
  inversion Hnd as [|? ? Hn Hd]; subst.
  destruct Hin as [E|Hin].
  - inversion E; subst. now rewrite String.eqb_refl.
  - destruct (String.eqb_spec k0 k) as [->|Hne]; [|now apply IH].
    exfalso. apply Hn. apply in_map_iff. now exists (k, ts).
Qed.

Lemma filter_filter {A} (f g : A -> bool) l :
  filter f (filter g l) = filter (fun x => g x && f x) l.
Proof.
  induction l as [|x l IH]; cbn; [reflexivity|].
  destruct (g x); cbn; [destruct (f x); now rewrite IH|exact IH].
Qed.

Lemma in_input_order_filter tabs0 l f :
  in_input_order tabs0 l -> in_input_order tabs0 (filter f l).
Proof.
  intros [keep ->]. exists (fun x => keep x && f x). apply filter_filter.
Qed.

Lemma group_fold_in_order key valid :
  Forall (fun b => in_input_order valid (snd b)) (group_fold key valid []).
Proof.
  apply Forall_forall. intros [k ts] Hin. cbn.
  exists (key_is key k).
  rewrite <- (bucket_of_entry k ts _ (group_fold_keys_NoDup key valid [] (NoDup_nil _)) Hin).
  now rewrite bucket_group_fold.
Qed.

Section GroupOrder.

Variable tabs0 : list TabRecord.

Lemma doc_groups_in_order : forall buckets st,
  Forall (fun b => in_input_order tabs0 (snd b)) buckets ->
  Forall (fun g => in_input_order tabs0 (tabs g)) (fst st) ->
  Forall (fun g => in_input_order tabs0 (tabs g))
         (fst (fold_left Lib.push_doc_group buckets st)).
Proof.
  induction buckets as [|[key ts] buckets IH]; intros [gs set] Hb Hst.
  - exact Hst.
  - inversion Hb as [|? ? Hts Hb']; subst. cbn [fold_left]. apply IH; [exact Hb'|].
    unfold Lib.push_doc_group. cbn [fst snd].
    destruct (1 <? length ts)%nat; [|exact Hst]. cbn [fst].
    apply Forall_app. split; [exact Hst|]. constructor; [exact Hts|constructor].
Qed.

Lemma url_groups_in_order : forall buckets st,
  Forall (fun b => in_input_order tabs0 (snd b)) buckets ->
  Forall (fun g => in_input_order tabs0 (tabs g)) (fst st) ->
  Forall (fun g => in_input_order tabs0 (tabs g))
         (fst (fold_left Lib.push_url_group buckets st)).
Proof.
  induction buckets as [|[key ts] buckets IH]; intros [gs set] Hb Hst.
  - exact Hst.
  - inversion Hb as [|? ? Hts Hb']; subst. cbn [fold_left]. apply IH; [exact Hb'|].
    unfold Lib.push_url_group. cbv zeta. cbn [fst snd].
    destruct (1 <? length _)%nat; [|exact Hst]. cbn [fst].
    apply Forall_app. split; [exact Hst|].
    constructor; [|constructor]. cbn [tabs]. now apply in_input_order_filter.
Qed.

End GroupOrder.

(** X28.  The tabs of every duplicate group stand in the order of the
    input: the group is the input filtered by some test, so its first tab,
    the one that is kept, is the first of them in the input. *)
Theorem X28_group_tabs_in_input_order
  (new_URL : string -> option URL) (tabs0 : list TabRecord) (threshold : Z) :
  Forall (fun g => in_input_order tabs0 (tabs g))
         (exactDuplicates (Lib.analyzeTabs new_URL tabs0 threshold)).
Proof.
  cbn [Lib.analyzeTabs exactDuplicates]. unfold Lib.buildGroups.
  assert (V : forall l, in_input_order (Lib.validTabs tabs0) l -> in_input_order tabs0 l).
  { intros l [keep ->]. unfold Lib.validTabs. rewrite filter_filter. now eexists. }
  assert (B : forall key,
            Forall (fun b => in_input_order tabs0 (snd b))
                   (group_fold key (Lib.validTabs tabs0) [])).
  { intro key. eapply Forall_impl; [|apply group_fold_in_order].
    intros b Hb. now apply V. }
  apply url_groups_in_order.
  - rewrite urlGroups_fold. apply B.
  - apply doc_groups_in_order.
    + rewrite googleDocGroups_fold. apply B.
    + constructor.
Qed.

(** ** The badge of the service worker against the popup *)

Lemma map_push_nonempty k t m :
  Forall (fun b => snd b <> []) m -> Forall (fun b => snd b <> []) (map_push k t m).
Proof.
  induction m as [|[k0 ts] m IH]; cbn; intro H.
  - repeat constructor. discriminate.
  - inversion H as [|? ? Hts Hm]; subst.
    destruct (k0 =? k)%string; constructor; try assumption.
    + cbn. intro E. now apply app_eq_nil in E.
    + now apply IH.
Qed.

Lemma group_fold_nonempty key : forall l m,
  Forall (fun b => snd b <> []) m ->
  Forall (fun b => snd b <> []) (group_fold key l m).
Proof.
  unfold group_fold. induction l as [|t l IH]; intros m H; cbn; [exact H|].
  apply IH. destruct (key t); [now apply map_push_nonempty|exact H].
Qed.

Lemma group_fold_none key : forall l m,
  Forall (fun t => key t = None) l -> group_fold key l m = m.
Proof.
  unfold group_fold. induction l as [|t l IH]; intros m H; cbn; [reflexivity|].
  inversion H as [|? ? Ht Hl]; subst. rewrite Ht. now apply IH.
Qed.

Lemma filter_all {A} (f : A -> bool) l :
  Forall (fun x => f x = true) l -> filter f l = l.
Proof.
  induction 1 as [|x l Hx _ IH]; cbn; [reflexivity|]. now rewrite Hx, IH.
Qed.

Lemma url_stage_count : forall U gs set,
  NoDup (all_ids gs ++ map id (bucket_tabs U)) ->
  groups_inv (fun _ => True) (gs, set) ->
  Forall (fun b => snd b <> []) U ->
  (Z.of_nat (length (all_ids (fst (fold_left Lib.push_url_group U (gs, set)))))
   - Z.of_nat (length (fst (fold_left Lib.push_url_group U (gs, set))))
   = Z.of_nat (length (all_ids gs)) - Z.of_nat (length gs)
     + Z.of_nat (length (bucket_tabs U)) - Z.of_nat (length U))%Z.
Proof.
  induction U as [|[k ts] U IH]; intros gs set Hnd Hinv Hne.
  - unfold bucket_tabs. cbn [fold_left fst map concat length]. lia.
  - inversion Hne as [|? ? Hts HU]; subst. cbn [snd] in Hts.
    unfold bucket_tabs in Hnd |- *. cbn [map concat snd] in Hnd |- *.
    fold (bucket_tabs U) in Hnd |- *. rewrite map_app in Hnd.
    cbn [fold_left]. unfold Lib.push_url_group at 2 4. cbv zeta. cbn [fst snd].
    assert (Hfree : filter (fun t => negb (JS.set_has (id t) set)) ts = ts).
    { apply filter_all, Forall_forall. intros t Ht.
      destruct (JS.set_has (id t) set) eqn:E; [exfalso|reflexivity].
      destruct Hinv as (Hset & _ & _). apply Hset in E. cbn [fst] in E.
      apply NoDup_app_inv in Hnd. destruct Hnd as (_ & _ & Hdis).
      apply (Hdis (id t) E). apply in_or_app. left. now apply in_map. }
    rewrite Hfree, length_app.
    destruct (Nat.ltb_spec 1 (length ts)) as [Hlen|Hlen].
    + rewrite IH; [|rewrite all_ids_app, <- app_assoc; exact Hnd
                   |apply groups_inv_push;
                      [exact Hinv|exact Hlen|apply Forall_forall; auto]
                   |exact HU].
      rewrite all_ids_app, !length_app, length_map. cbn [length tabs]. lia.
    + rewrite IH; [| |exact Hinv|exact HU].
      * destruct ts as [|t [|t' ts]]; [congruence| |cbn in Hlen; lia].
        cbn [length]. lia.
      * eapply NoDup_app_remove_l.
        eapply Permutation_NoDup; [apply Permutation_app_swap_app|exact Hnd].
Qed.

Section BadgeAgainstPopup.

Variable new_URL : string -> option URL.

Lemma urlGroups_sizes valid :
  length (bucket_tabs (Lib.urlGroups new_URL valid)) = length valid
  /\ length (Lib.urlGroups new_URL valid)
     = length (nodup string_dec
                 (map (fun t => Lib.normalizeUrl new_URL (url t)) valid)).
Proof.
  set (key := fun tab => Some (Lib.normalizeUrl new_URL (url tab))).
  rewrite urlGroups_fold. fold key. split.
  - rewrite (Permutation_length (group_fold_perm key valid [])). cbn [bucket_tabs map concat app].
    rewrite filter_all; [reflexivity|]. apply Forall_forall. now intros t _.
  - rewrite <- (length_map fst (group_fold key valid [])).
    apply Permutation_length, NoDup_Permutation.
    + apply group_fold_keys_NoDup. constructor.
    + apply NoDup_nodup.
    + intro k. rewrite nodup_In. split.
      * intro Hk. apply in_map_iff in Hk. destruct Hk as [[k' ts] [<- Hin]]. cbn.
        apply in_map_iff.
        pose proof (group_fold_nonempty key valid [] (Forall_nil _)) as Hne.
        rewrite Forall_forall in Hne. specialize (Hne _ Hin). cbn in Hne.
        destruct ts as [|t ts]; [congruence|]. exists t.
        pose proof (group_fold_keyed key valid [] (keyed_nil key) k' (t :: ts) t Hin
                      (or_introl eq_refl)) as K.
        pose proof (group_fold_buckets_within key valid) as W.
        rewrite Forall_forall in W. specialize (W _ Hin). cbn in W.
        inversion W; subst. unfold key in K. inversion K. now split.
      * intro Hk. apply in_map_iff in Hk. destruct Hk as [t [<- Ht]].
        assert (Hb : In t (bucket (Lib.normalizeUrl new_URL (url t))
                                  (group_fold key valid []))).
        { rewrite bucket_group_fold. cbn [bucket app]. apply filter_In.
          split; [exact Ht|]. unfold key_is, key. apply String.eqb_refl. }
        apply in_map_iff. eexists. split; [|apply bucket_In].
        -- reflexivity.
        -- intro E. rewrite E in Hb. destruct Hb.
Qed.

Lemma totalDuplicates_without_documents tabs0 threshold :
  NoDup (map id tabs0) ->
  Forall (fun t => Lib.googleDocKey new_URL t = None) (Lib.validTabs tabs0) ->
  totalDuplicates (Popup.analyzeTabs new_URL tabs0 threshold)
  = (Z.of_nat (length (Lib.validTabs tabs0))
     - Z.of_nat (length (nodup string_dec
                           (map (fun t => Lib.normalizeUrl new_URL (url t))
                                (Lib.validTabs tabs0)))))%Z.
Proof.
  intros Hnd Hdoc. unfold Popup.analyzeTabs. cbn [totalDuplicates].
  rewrite popup_buildGroups_eq.
  change (Popup.validTabs tabs0) with (Lib.validTabs tabs0).
  destruct (buildGroups_inv new_URL (Lib.validTabs tabs0)) as (_ & Hc & _).
  rewrite (totalDuplicates_fold _ 0%Z Hc).
  unfold Lib.buildGroups. rewrite googleDocGroups_fold, (group_fold_none _ _ _ Hdoc).
  cbn [fold_left].
  destruct (urlGroups_sizes (Lib.validTabs tabs0)) as [S1 S2].
  assert (Hcount := url_stage_count (Lib.urlGroups new_URL (Lib.validTabs tabs0)) [] []).
  cbn [all_ids map concat length app] in Hcount. rewrite S1, S2 in Hcount.
  enough (Hpre : NoDup (map id (bucket_tabs (Lib.urlGroups new_URL (Lib.validTabs tabs0))))
                 /\ groups_inv (fun _ : TabRecord => True) ([], [])
                 /\ Forall (fun b : string * list TabRecord => snd b <> [])
                           (Lib.urlGroups new_URL (Lib.validTabs tabs0))).
  { destruct Hpre as (P1 & P2 & P3). specialize (Hcount P1 P2 P3).
    rewrite Z.add_0_l. etransitivity; [exact Hcount|lia]. }
  split; [|split].
  - eapply Permutation_NoDup.
    + apply Permutation_map, Permutation_sym.
      rewrite urlGroups_fold. apply group_fold_perm.
    + cbn [bucket_tabs map concat app]. apply NoDup_map_filter.
      now apply validTabs_NoDup.
  - split; [|split].
    + intro x. cbn. split; [discriminate|intros []].
    + intros g [].
    + constructor.
  - rewrite urlGroups_fold. apply group_fold_nonempty. constructor.
Qed.

End BadgeAgainstPopup.

(** X29.  With unique ids, no tab that yields a document key, and URLs on
    which [normalizeUrlSimple] and [normalizeUrl] agree, the badge of the
    service worker shows the [totalDuplicates] of the popup. *)
Theorem X29_badge_shows_totalDuplicates
  (new_URL : string -> option URL) (tabs0 : list TabRecord) (threshold : Z) :
  NoDup (map id tabs0) ->
  Forall (fun t => Lib.googleDocKey new_URL t = None) (Lib.validTabs tabs0) ->
  Forall (fun t => ServiceWorker.normalizeUrlSimple new_URL (url t)
                   = Lib.normalizeUrl new_URL (url t)) (Lib.validTabs tabs0) ->
  ServiceWorker.countDuplicates new_URL tabs0
  = totalDuplicates (Popup.analyzeTabs new_URL tabs0 threshold).
Proof.
  intros Hnd Hdoc Hsame.
  rewrite countDuplicates_formula, totalDuplicates_without_documents by assumption.
  rewrite (map_ext_in _ (fun t => Lib.normalizeUrl new_URL (url t))); [reflexivity|].
  rewrite Forall_forall in Hsame. exact Hsame.
Qed.

(** X29 on three tabs, two of them on one page. *)
Lemma X29_badge_shows_totalDuplicates_witness :
  ServiceWorker.countDuplicates URL_parse [tab_post1; tab_post2; tab_post3] = 1%Z
  /\ ServiceWorker.countDuplicates URL_parse [tab_post1; tab_post2; tab_post3]
     = totalDuplicates (Popup.analyzeTabs URL_parse [tab_post1; tab_post2; tab_post3] 80).
Proof.
  split; [vm_compute; reflexivity|].
  assert (V : Lib.validTabs [tab_post1; tab_post2; tab_post3]
              = [tab_post1; tab_post2; tab_post3]) by (vm_compute; reflexivity).
  apply (X29_badge_shows_totalDuplicates URL_parse [tab_post1; tab_post2; tab_post3] 80).
  - cbn. repeat constructor; cbn; lia.
  - rewrite V. repeat (constructor; [vm_compute; reflexivity|]). constructor.
  - rewrite V. repeat (constructor; [vm_compute; reflexivity|]). constructor.
Defined.

(** ** No similar pair is skipped *)

Lemma uint_dash_free d : dash_free (NilEmpty.string_of_uint d) = true.
Proof. induction d; cbn; auto. Qed.

Lemma nilzero_uint_dash_free d : dash_free (NilZero.string_of_uint d) = true.
Proof. destruct d; try reflexivity; apply (uint_dash_free (_ _)). Qed.

(** A decimal numeral is one code unit, a digit or a minus sign, followed
    by digits. *)
Lemma string_of_Z_shape z :
  exists c t, JS.string_of_Z z = String c t /\ dash_free t = true.
Proof.
  unfold JS.string_of_Z. destruct (Z.to_int z) as [d|d]; cbn [NilZero.string_of_int].
  - destruct d; cbn; eexists; eexists; (split; [reflexivity|]);
      try reflexivity; apply uint_dash_free.
  - eexists; eexists; split; [reflexivity|]. apply nilzero_uint_dash_free.
Qed.

Lemma string_of_Z_inj x y : JS.string_of_Z x = JS.string_of_Z y -> x = y.
Proof.
  unfold JS.string_of_Z. intro H.
  assert (G : forall z, NilZero.int_of_string (NilZero.string_of_int (Z.to_int z))
                        = Some (Z.to_int z)).
  { intro z. apply NilZero.isi; destruct z; cbn; try discriminate;
      intros [= E]; now apply DecimalPos.Unsigned.to_uint_nonnil in E. }
  pose proof (G x) as Gx. rewrite H, G in Gx. injection Gx as Gx.
  now apply DecimalZ.to_int_inj.
Qed.

Lemma dash_split t1 : forall t2 r1 r2,
  dash_free t1 = true -> dash_free t2 = true ->
  t1 +++ String "-" r1 = t2 +++ String "-" r2 -> t1 = t2 /\ r1 = r2.
Proof.
  induction t1 as [|a t1 IH]; intros [|b t2] r1 r2 D1 D2 E; cbn in *.
  - injection E as E. now split.
  - injection E as E1 E2. subst b. discriminate.
  - injection E as E1 E2. subst a. discriminate.
  - injection E as E1 E2. subst b.
    apply andb_true_iff in D1, D2.
    destruct (IH t2 r1 r2) as [-> ->]; tauto.
Qed.

(** Different pairs of ids have different keys. *)
Lemma pairKey_inj i j i' j' : pairKey i j = pairKey i' j' -> i = i' /\ j = j'.
Proof.
  unfold pairKey. intro E.
  destruct (string_of_Z_shape i) as [c [t [Ei Di]]].
  destruct (string_of_Z_shape i') as [c' [t' [Ei' Di']]].
  rewrite Ei, Ei' in E. cbn in E. injection E as Ec E.
  apply dash_split in E; [|assumption..]. destruct E as [Et Ej].
  split; apply string_of_Z_inj; congruence.
Qed.

Lemma sset_has_In x s : JS.sset_has x s = true <-> In x s.
Proof.
  unfold JS.sset_has. rewrite existsb_exists. split.
  - intros [y [Hy E]]. apply String.eqb_eq in E. now subst.
  - intro H. exists x. split; [assumption|apply String.eqb_refl].
Qed.

Lemma NoDup_firstn {A} : forall n (l : list A), NoDup l -> NoDup (firstn n l).
Proof.
  induction n as [|n IH]; intros [|a l] H; cbn; try constructor.
  - inversion H; subst. intro Hin. now apply firstn_In in Hin.
  - inversion H; subst. now apply IH.
Qed.

Lemma comparison_pool_NoDup (new_URL : string -> option URL) tabs0 :
  NoDup (map id tabs0) -> NoDup (map id (comparison_pool new_URL tabs0)).
Proof.
  intro H. unfold comparison_pool, Lib.nonGoogleTabs. cbv zeta.
  rewrite <- firstn_map. apply NoDup_firstn.
  do 2 apply NoDup_map_filter. now apply validTabs_NoDup.
Qed.

Section PairsComplete.

Variable new_URL : string -> option URL.
Variable threshold : Z.

Lemma compare_pair_keeps a b st p :
  In p (snd st) -> In p (snd (Lib.compare_pair new_URL threshold a b st)).
Proof.
  unfold Lib.compare_pair. cbv zeta. intro H.
  destruct (JS.sset_has _ (fst st)); [assumption|].
  destruct (similar _); cbn [snd]; [apply in_or_app; now left|assumption].
Qed.

Lemma inner_loop_keeps a p : forall rest st,
  In p (snd st) -> In p (snd (Lib.inner_loop new_URL threshold a rest st)).
Proof.
  induction rest as [|b rest IH]; intros st H; cbn; [assumption|].
  apply IH. now apply compare_pair_keeps.
Qed.

Lemma outer_loop_keeps p : forall pool st,
  In p (snd st) -> In p (snd (Lib.outer_loop new_URL threshold pool st)).
Proof.
  induction pool as [|a pool IH]; intros st H; cbn; [assumption|].
  apply IH. now apply inner_loop_keeps.
Qed.

Lemma compare_pair_keys done seen a b st :
  keys_ok done (id a) seen st ->
  keys_ok done (id a) (seen ++ [id b]) (Lib.compare_pair new_URL threshold a b st).
Proof.
  intro K.
  assert (K' : keys_ok done (id a) (seen ++ [id b]) st).
  { intros key Hk. destruct (K key Hk) as [i [j [E [Hd|[Hc Hs]]]]];
      exists i, j; split; auto. right. split; [assumption|].
      apply in_or_app. now left. }
  unfold Lib.compare_pair. cbv zeta.
  destruct (JS.sset_has _ (fst st)) eqn:Hhas; [assumption|].
  assert (K2 : forall ps, keys_ok done (id a) (seen ++ [id b])
                 (JS.sset_add (fst st)
                    (JS.string_of_Z (id a) +++ "-" +++ JS.string_of_Z (id b)), ps)).
  { intros ps key Hk. cbn [fst] in Hk. unfold JS.sset_add in Hk.
    rewrite Hhas in Hk. apply in_app_or in Hk. destruct Hk as [Hk|[<-|[]]].
    - now apply K'.
    - exists (id a), (id b). split; [reflexivity|]. right. split; [reflexivity|].
      apply in_or_app. right. now left. }
  destruct (similar _); apply K2.
Qed.

(** With ids that were not met before, the key of the pair is new. *)
Lemma compare_pair_fresh done seen a b st :
  keys_ok done (id a) seen st -> ~ In (id a) done -> ~ In (id b) seen ->
  JS.sset_has (pairKey (id a) (id b)) (fst st) = false.
Proof.
  intros K Ha Hb. destruct (JS.sset_has _ _) eqn:E; [|reflexivity].
  apply sset_has_In in E. destruct (K _ E) as [i [j [Ek H]]].
  apply pairKey_inj in Ek. destruct Ek as [<- <-]. tauto.
Qed.

Lemma compare_pair_adds a b st :
  JS.sset_has (pairKey (id a) (id b)) (fst st) = false ->
  similar (Lib.findSimilarity new_URL a b threshold) = true ->
  In {| tab1 := a; tab2 := b;
        pair_score := score (Lib.findSimilarity new_URL a b threshold);
        pair_reason := reason (Lib.findSimilarity new_URL a b threshold) |}
     (snd (Lib.compare_pair new_URL threshold a b st)).
Proof.
  unfold Lib.compare_pair, pairKey. cbv zeta. intros -> ->. cbn [snd].
  apply in_or_app. right. now left.
Qed.

Lemma inner_loop_keys done a : forall rest seen st,
  keys_ok done (id a) seen st ->
  keys_ok done (id a) (seen ++ map id rest)
    (Lib.inner_loop new_URL threshold a rest st).
Proof.
  induction rest as [|c rest IH]; intros seen st K; cbn.
  - now rewrite app_nil_r.
  - change (seen ++ id c :: map id rest) with (seen ++ [id c] ++ map id rest).
    rewrite app_assoc. apply IH. now apply compare_pair_keys.
Qed.

Lemma inner_loop_complete done a b : forall rest seen st,
  keys_ok done (id a) seen st -> ~ In (id a) done ->
  NoDup (seen ++ map id rest) -> In b rest ->
  similar (Lib.findSimilarity new_URL a b threshold) = true ->
  In {| tab1 := a; tab2 := b;
        pair_score := score (Lib.findSimilarity new_URL a b threshold);
        pair_reason := reason (Lib.findSimilarity new_URL a b threshold) |}
     (snd (Lib.inner_loop new_URL threshold a rest st)).
Proof.
  induction rest as [|c rest IH]; intros seen st K Ha Hnd Hin Hsim; [destruct Hin|].
  cbn [Lib.inner_loop]. destruct Hin as [->|Hin].
  - apply inner_loop_keeps. apply compare_pair_adds; [|assumption].
    apply (compare_pair_fresh done seen); [assumption..|].
    intro Hs. cbn in Hnd. apply NoDup_remove_2 in Hnd. apply Hnd.
    apply in_or_app. now left.
  - apply (IH (seen ++ [id c])); try assumption.
    + now apply compare_pair_keys.
    + rewrite <- app_assoc. exact Hnd.
Qed.

Lemma outer_loop_complete a b l2 :
  In b l2 -> similar (Lib.findSimilarity new_URL a b threshold) = true ->
  forall l1 done st,
  keys_ok done (id a) [] st ->
  NoDup (done ++ map id (l1 ++ a :: l2)) ->
  In {| tab1 := a; tab2 := b;
        pair_score := score (Lib.findSimilarity new_URL a b threshold);
        pair_reason := reason (Lib.findSimilarity new_URL a b threshold) |}
     (snd (Lib.outer_loop new_URL threshold (l1 ++ a :: l2) st)).
Proof.
  intros Hin Hsim. induction l1 as [|c l1 IH]; intros done st K Hnd.
  - cbn [app Lib.outer_loop]. apply outer_loop_keeps.
    cbn [app map] in Hnd.
    apply (inner_loop_complete done a b l2 []); try assumption.
    + apply NoDup_remove_2 in Hnd. intro H. apply Hnd. apply in_or_app. now left.
    + apply NoDup_remove_1 in Hnd. apply NoDup_app_inv in Hnd.
      cbn [app]. tauto.
  - cbn [app Lib.outer_loop]. apply (IH (done ++ [id c])).
    + assert (K0 : keys_ok done (id c) [] st).
      { intros key Hk. destruct (K key Hk) as [i [j [E [Hd|[_ []]]]]].
        exists i, j. split; [assumption|now left]. }
      apply (inner_loop_keys done c (l1 ++ a :: l2) []) in K0.
      intros key Hk. destruct (K0 key Hk) as [i [j [E [Hd|[Hc _]]]]];
        exists i, j; (split; [assumption|]); left; apply in_or_app;
        [now left|right; left; now symmetry].
    + rewrite <- app_assoc. exact Hnd.
Qed.

End PairsComplete.

(** X30. With unique tab ids, the [Set] [processed] never stops a
    comparison: for every tab [a] of the comparison pool and every tab [b]
    after it there, if [findSimilarity] finds them similar, the pair, with
    the score and the reason of that verdict, is among [similarTabs]. *)
Theorem X30_no_similar_pair_skipped
  (new_URL : string -> option URL) (tabs0 : list TabRecord) (threshold : Z)
  (a b : TabRecord) :
  NoDup (map id tabs0) ->
  before (comparison_pool new_URL tabs0) a b ->
  similar (Lib.findSimilarity new_URL a b threshold) = true ->
  In {| tab1 := a; tab2 := b;
        pair_score := score (Lib.findSimilarity new_URL a b threshold);
        pair_reason := reason (Lib.findSimilarity new_URL a b threshold) |}
     (similarTabs (Lib.analyzeTabs new_URL tabs0 threshold)).
Proof.
  intros Hnd [l1 [l2 [Hpool Hb]]] Hsim.
  apply (comparison_pool_NoDup new_URL) in Hnd.
  unfold Lib.analyzeTabs. cbv zeta. cbn [similarTabs].
  unfold Lib.sortedSimilarPairs. cbv zeta.
  unfold comparison_pool in Hpool, Hnd.
  destruct (Lib.buildGroups new_URL (Lib.validTabs tabs0)) as [gs inGroups].
  cbn [snd] in Hpool, Hnd.
  eapply Permutation_in; [apply Permutation_sym, sort_pairs_perm|].
  rewrite Hpool in *.
  apply (outer_loop_complete new_URL threshold a b l2 Hb Hsim l1 []).
  - intros key [].
  - exact Hnd.
Qed.

Lemma X30_no_similar_pair_skipped_witness :
  In {| tab1 := mkTab 2 "https://a.com/p?x=2" None;
        tab2 := mkTab 5 "https://a.com/p?x=5" None;
        pair_score :=
          score (Lib.findSimilarity URL_parse
                   (mkTab 2 "https://a.com/p?x=2" None)
                   (mkTab 5 "https://a.com/p?x=5" None) 80);
        pair_reason :=
          reason (Lib.findSimilarity URL_parse
                    (mkTab 2 "https://a.com/p?x=2" None)
                    (mkTab 5 "https://a.com/p?x=5" None) 80) |}
     (similarTabs (Lib.analyzeTabs URL_parse tabs_seven 80)).
Proof.
  apply (X30_no_similar_pair_skipped URL_parse tabs_seven 80).
  - cbn. repeat constructor; cbn; lia.
  - exists [mkTab 1 "https://a.com/p?x=1" None],
           [mkTab 3 "https://a.com/p?x=3" None; mkTab 4 "https://a.com/p?x=4" None;
            mkTab 5 "https://a.com/p?x=5" None; mkTab 6 "https://a.com/p?x=6" None;
            mkTab 7 "https://a.com/p?x=7" None].
    split; [vm_compute; reflexivity|]. right. right. left. reflexivity.
  - vm_compute. reflexivity.
Defined.
